(** * Version resolution pipeline of [data_collection/collect/get_version.py]

    A shallow embedding of the batch pipeline that attaches a release
    version to task records, and the properties its specification
    states about it.

    Python [str] values are modelled as [string]; a character is a code
    point below 256.  Dictionaries loaded from JSON are insertion-ordered
    association lists; the repository cache, which is only ever looked
    up, is a [gmap].  Everything the program asks of the operating
    system (the file system, [git], the worker pool, the console) is an
    event of a free monad, so that a property proved for every handler
    holds whatever the environment answers. *)

From Stdlib Require Import ZArith Lia Bool Ascii String List Permutation.
From stdpp Require Import base strings gmap.
Import ListNotations.

Local Open Scope string_scope.
Local Open Scope list_scope.

(** ** Characters and strings *)

Module Str.

(** [\d] of the [re] module, on code points below 256: the ASCII digits. *)
Definition is_digit (c : ascii) : bool :=
  let n := nat_of_ascii c in (48 <=? n)%nat && (n <=? 57)%nat.

(** [str.isspace] on code points below 256. *)
Definition is_space (c : ascii) : bool :=
  let n := nat_of_ascii c in
  ((9 <=? n)%nat && (n <=? 13)%nat) || ((28 <=? n)%nat && (n <=? 32)%nat)
  || (n =? 133)%nat || (n =? 160)%nat.

Definition chars (s : string) : list ascii := list_ascii_of_string s.
Definition of_chars (l : list ascii) : string := string_of_list_ascii l.

Fixpoint lstrip_chars (l : list ascii) : list ascii :=
  match l with
  | c :: l' => if is_space c then lstrip_chars l' else l
  | [] => []
  end.

Definition rstrip_chars (l : list ascii) : list ascii :=
  rev (lstrip_chars (rev l)).

(** [s.strip()] *)
Definition strip_chars (l : list ascii) : list ascii :=
  rstrip_chars (lstrip_chars l).

Definition strip (s : string) : string := of_chars (strip_chars (chars s)).

Definition slash : ascii := "/"%char.
Definition dot : ascii := "."%char.

(** [s.split(sep)] for a one-character separator: always at least one
    field. *)
Fixpoint split_chars (sep : ascii) (l : list ascii) : list (list ascii) :=
  match l with
  | [] => [[]]
  | c :: l' =>
      if Ascii.eqb c sep then [] :: split_chars sep l'
      else match split_chars sep l' with
           | f :: fs => (c :: f) :: fs
           | [] => [[c]]
           end
  end.

Definition split (sep : ascii) (s : string) : list string :=
  map of_chars (split_chars sep (chars s)).

(** [s.replace(old, new)] for a one-character [old]. *)
Fixpoint replace_chars (old : ascii) (new : list ascii) (l : list ascii)
  : list ascii :=
  match l with
  | [] => []
  | c :: l' =>
      if Ascii.eqb c old then new ++ replace_chars old new l'
      else c :: replace_chars old new l'
  end.

Definition replace (old : ascii) (new : string) (s : string) : string :=
  of_chars (replace_chars old (chars new) (chars s)).

(** [s.startswith(p)] and [s.endswith(p)] *)
Fixpoint starts_chars (p l : list ascii) : bool :=
  match p, l with
  | [], _ => true
  | a :: p', b :: l' => Ascii.eqb a b && starts_chars p' l'
  | _ :: _, [] => false
  end.

Definition startswith (s p : string) : bool := starts_chars (chars p) (chars s).
Definition endswith (s p : string) : bool :=
  starts_chars (rev (chars p)) (rev (chars s)).

Definition has_char (c : ascii) (s : string) : bool :=
  existsb (Ascii.eqb c) (chars s).

(** [sep.join(parts)] *)
Fixpoint join (sep : string) (parts : list string) : string :=
  match parts with
  | [] => ""
  | [p] => p
  | p :: ps => p ++ sep ++ join sep ps
  end.

(** The last element of a non-empty list of fields, [fields[-1]]. *)
Definition last_field (fields : list string) : string := List.last fields "".

End Str.

(** ** The regular expression of [get_version_by_git]

    [re.search] is a backtracking matcher: at each start position, from
    the left, it explores the ways to match in priority order and keeps
    the first.  [Re.run] lists the ways in that order. *)

Module Re.

Inductive regex : Type :=
| Digit                         (* \d *)
| Chr (c : ascii)               (* an escaped literal, \. *)
| Seq (r1 r2 : regex)
| Plus (r : regex)              (* r+, greedy *)
| Opt (r : regex)               (* r?, greedy *)
| Group (n : nat) (r : regex).  (* the n-th capturing group *)

(** A way to match: the text consumed, the text left, and the groups
    captured, the most recent first. *)
Definition way : Type := list ascii * list ascii * list (nat * list ascii).

Definition extend (m1 : list ascii) (g1 : list (nat * list ascii)) (w : way)
  : way :=
  let '(m2, rest, g2) := w in (m1 ++ m2, rest, g2 ++ g1).

(** The iterations of [r+] from [s], where [one] lists the ways to match
    [r] once: another iteration is tried before stopping, and only after
    an iteration that consumed text. *)
Fixpoint plus_loop (one : list ascii -> list way) (fuel : nat) (s : list ascii)
  : list way :=
  match fuel with
  | O => []
  | S fuel' =>
      flat_map (fun w1 => let '(m1, s1, g1) := w1 in
          (if (length s1 <? length s)%nat
           then map (extend m1 g1) (plus_loop one fuel' s1) else [])
          ++ [w1]) (one s)
  end.

Fixpoint run (r : regex) (s : list ascii) : list way :=
  match r with
  | Digit =>
      match s with
      | c :: s' => if Str.is_digit c then [([c], s', [])] else []
      | [] => []
      end
  | Chr a =>
      match s with
      | c :: s' => if Ascii.eqb c a then [([c], s', [])] else []
      | [] => []
      end
  | Seq r1 r2 =>
      flat_map (fun w1 => let '(m1, s1, g1) := w1 in
                          map (extend m1 g1) (run r2 s1)) (run r1 s)
  | Plus r1 => plus_loop (run r1) (S (length s)) s
  | Opt r1 => run r1 s ++ [([], s, [])]
  | Group n r1 =>
      map (fun w => let '(m, rest, g) := w in (m, rest, (n, m) :: g)) (run r1 s)
  end.

Fixpoint groupless (r : regex) : bool :=
  match r with
  | Digit | Chr _ => true
  | Seq r1 r2 => groupless r1 && groupless r2
  | Plus r1 | Opt r1 => groupless r1
  | Group _ _ => false
  end.

(** A match object: where the match starts, group 0 and the numbered
    groups. *)
Record match_object : Type := MatchObject {
  mo_start : nat;
  mo_text : list ascii;
  mo_groups : list (nat * list ascii)
}.

(** [re.search(r, s)]: the first way at the leftmost start position that
    has one. *)
Fixpoint search_from (r : regex) (pos : nat) (s : list ascii)
  : option match_object :=
  match run r s with
  | (m, _, g) :: _ => Some (MatchObject pos m g)
  | [] =>
      match s with
      | [] => None
      | _ :: s' => search_from r (S pos) s'
      end
  end.

Definition search (r : regex) (s : string) : option match_object :=
  search_from r 0 (Str.chars s).

Fixpoint assoc_group (n : nat) (g : list (nat * list ascii))
  : option (list ascii) :=
  match g with
  | [] => None
  | (k, m) :: g' => if (k =? n)%nat then Some m else assoc_group n g'
  end.

(** [m.group(n)]; [None] when the group took no part in the match. *)
Definition group (n : nat) (m : match_object) : option string :=
  match n with
  | O => Some (Str.of_chars (mo_text m))
  | _ => option_map Str.of_chars (assoc_group n (mo_groups m))
  end.

(** The language of a regular expression, independently of the
    matcher.  Iterations of [Plus] after the first consume text. *)
Inductive lang : regex -> list ascii -> Prop :=
| lang_digit c : Str.is_digit c = true -> lang Digit [c]
| lang_chr c : lang (Chr c) [c]
| lang_seq r1 r2 m1 m2 : lang r1 m1 -> lang r2 m2 -> lang (Seq r1 r2) (m1 ++ m2)
| lang_plus_one r m : lang r m -> lang (Plus r) m
| lang_plus_more r m1 m2 :
    lang r m1 -> m1 <> [] -> lang (Plus r) m2 -> lang (Plus r) (m1 ++ m2)
| lang_opt_some r m : lang r m -> lang (Opt r) m
| lang_opt_none r : lang (Opt r) []
| lang_group n r m : lang r m -> lang (Group n r) m.

(** r"(\d+\.\d+)(?:\.\d+)?" *)
Definition major_minor : regex := Seq (Plus Digit) (Seq (Chr Str.dot) (Plus Digit)).
Definition version_pattern : regex :=
  Seq (Group 1 major_minor) (Opt (Seq (Chr Str.dot) (Plus Digit))).

End Re.

(** ** Paths: the functions of [os.path] the program calls (POSIX) *)

Module Path.

Fixpoint rfind_from (c : ascii) (l : list ascii) (i acc : Z) : Z :=
  match l with
  | [] => acc
  | x :: l' => rfind_from c l' (i + 1) (if Ascii.eqb x c then i else acc)
  end.

(** [p.rfind(c)]: the last index of [c], or -1. *)
Definition rfind (c : ascii) (l : list ascii) : Z := rfind_from c l 0 (-1).

(** [p[i:j]] for [0 <= i]. *)
Definition slice (l : list ascii) (i j : Z) : list ascii :=
  firstn (Z.to_nat (j - i)) (skipn (Z.to_nat i) l).

Definition isabs (p : string) : bool := Str.startswith p "/".

(** [os.path.join(a, b)] *)
Definition join2 (a b : string) : string :=
  if Str.startswith b "/" then b
  else if String.eqb a "" || Str.endswith a "/" then a ++ b
  else a ++ "/" ++ b.

(** [os.path.join(a, *p)] *)
Definition join (a : string) (p : list string) : string := fold_left join2 p a.

(** [os.path.splitext(p)]: the extension starts at the last dot of the
    last component, unless only dots precede it there. *)
Definition splitext_chars (p : list ascii) : list ascii * list ascii :=
  let sepIndex := rfind Str.slash p in
  let dotIndex := rfind Str.dot p in
  if (sepIndex <? dotIndex)%Z
     && existsb (fun c => negb (Ascii.eqb c Str.dot))
                (slice p (sepIndex + 1) dotIndex)
  then (firstn (Z.to_nat dotIndex) p, skipn (Z.to_nat dotIndex) p)
  else (p, []).

Definition splitext (p : string) : string * string :=
  let '(base, ext) := splitext_chars (Str.chars p) in
  (Str.of_chars base, Str.of_chars ext).

Fixpoint rstrip_sep (rl : list ascii) : list ascii :=
  match rl with
  | c :: rl' => if Ascii.eqb c Str.slash then rstrip_sep rl' else rl
  | [] => []
  end.

(** [os.path.dirname(p)] *)
Definition dirname_chars (p : list ascii) : list ascii :=
  let i := (rfind Str.slash p + 1)%Z in
  let head := firstn (Z.to_nat i) p in
  if forallb (fun c => Ascii.eqb c Str.slash) head then head
  else rev (rstrip_sep (rev head)).

Definition dirname (p : string) : string :=
  Str.of_chars (dirname_chars (Str.chars p)).

(** The loop of [os.path.normpath] over the components. *)
Fixpoint norm_comps (initial_slashes : nat) (comps new_comps : list string)
  : list string :=
  match comps with
  | [] => new_comps
  | comp :: comps' =>
      if String.eqb comp "" || String.eqb comp "." then
        norm_comps initial_slashes comps' new_comps
      else if negb (String.eqb comp "..")
              || ((initial_slashes =? 0)%nat
                  && match new_comps with [] => true | _ => false end)
              || match new_comps with
                 | [] => false
                 | _ => String.eqb (List.last new_comps "") ".."
                 end
      then norm_comps initial_slashes comps' (new_comps ++ [comp])
      else norm_comps initial_slashes comps' (removelast new_comps)
  end.

(** [os.path.normpath(path)] *)
Definition normpath (path : string) : string :=
  if String.eqb path "" then "."
  else
    let initial_slashes :=
      if Str.startswith path "/" then
        if Str.startswith path "//" && negb (Str.startswith path "///")
        then 2%nat else 1%nat
      else 0%nat in
    let comps := norm_comps initial_slashes (Str.split Str.slash path) [] in
    let path' := Str.join "/" comps in
    let path'' :=
      match initial_slashes with
      | O => path'
      | 1%nat => ("/" ++ path')%string
      | _ => ("//" ++ path')%string
      end in
    if String.eqb path'' "" then "." else path''.

End Path.

(** ** Values, exceptions, records *)

#[local] Set Warnings "-register-all".

Inductive json : Type :=
| JNull
| JBool (b : bool)
| JInt (z : Z)
| JStr (s : string)
| JList (l : list json)
| JDict (d : list (string * json)).

(** A Python [dict] with [str] keys, in insertion order. *)
Abbreviation dict := (list (string * json)).

Module Dict.

Fixpoint get (d : dict) (k : string) : option json :=
  match d with
  | [] => None
  | (k', v) :: d' => if String.eqb k' k then Some v else get d' k
  end.

(** [d[k] = v]: in place when the key is there, at the end otherwise. *)
Fixpoint set (d : dict) (k : string) (v : json) : dict :=
  match d with
  | [] => [(k, v)]
  | (k', v') :: d' =>
      if String.eqb k' k then (k', v) :: d' else (k', v') :: set d' k v
  end.

(** [d.copy()]: values are immutable here, a copy is the value. *)
Definition copy (d : dict) : dict := d.

Definition contains (d : dict) (k : string) : bool :=
  match get d k with Some _ => true | None => false end.

End Dict.

(** The exception classes that occur; all derive from [Exception]. *)
Inductive exn_class : Type :=
| KeyError | TypeError | AttributeError | ValueError | RuntimeError
| OSError | FileNotFoundError | FileExistsError | NotADirectoryError
| PermissionError | CalledProcessError | JSONDecodeError | BrokenProcessPool.

(** An f-string: literal text and formatted values. *)
Inductive fragment : Type :=
| Text (s : string)
| Show (v : json).

Record exn : Type := Exn { exn_cls : exn_class; exn_msg : list fragment }.

Definition is_called_process_error (e : exn) : bool :=
  match exn_cls e with CalledProcessError => true | _ => false end.

(** How a call ends. *)
Inductive outcome (A : Type) : Type :=
| Returned (a : A)
| Raised (e : exn).
Arguments Returned {A} a.
Arguments Raised {A} e.

(** The two ways [save_results] writes a sequence of records. *)
Inductive artifact : Type :=
| Jsonl (records : list dict)      (* one [json.dumps(r)] per line *)
| JsonArray (records : list dict). (* [json.dump(records, indent=2)] *)

(** What the program prints, by call site. *)
Inductive log_line : Type :=
| LogCommandError (cmd : list string) (e : exn)
| LogCurrentVersion (version : string)
| LogReusing (repo : string)
| LogSkipMissing (repo : string)
| LogMissingNoClone (repo : string)
| LogCached (repo : string)
| LogCloneFailed (repo : string) (e : exn)
| LogFailed (instance_id : json) (e : exn)
| LogUnexpected (instance_id : json) (e : exn)
| LogReadError (e : exn)
| LogInvalidTask (t : dict)
| LogSaved (n : nat) (path : string)
| LogFailuresSaved (n : nat) (path : string)
| LogResult (r : dict).

(** ** Programs over the operating system *)

(** What a call to the environment is, indexed by what it answers. *)
Inductive osE : Type -> Type :=
| Getcwd : osE string
| Chdir (path : string) : osE (outcome unit)
| Expanduser (path : string) : osE string
| PathExists (path : string) : osE bool
| PathIsdir (path : string) : osE bool
| PathIsfile (path : string) : osE bool
(* os.makedirs(path, exist_ok=True) *)
| Makedirs (path : string) : osE (outcome unit)
(* shutil.rmtree(path, ignore_errors=True): never raises *)
| Rmtree (path : string) : osE unit
(* shutil.copytree(src, dst, dirs_exist_ok=True) *)
| Copytree (src dst : string) : osE (outcome unit)
(* subprocess.run(cmd, check=True, capture_output=True): its stdout *)
| Subprocess (cmd : list string) : osE (outcome string)
(* open(path) and json.loads per line, or json.load *)
| ReadInstances (path : string) (line_delimited : bool)
    : osE (outcome (list dict))
(* open(path, "w") and the writes *)
| WriteArtifact (path : string) (a : artifact) : osE (outcome unit)
(* a pool of [max_workers] processes is created and
   process_repo_task(t, testbed, repo_cache) submitted to it for each
   task; [executor.submit] raises when the pool is broken by then *)
| Submit (tasks : list dict) (testbed : string)
    (repo_cache : gmap string string) (max_workers : Z)
    : osE (outcome unit)
(* as_completed over the futures of the tasks submitted: the answer
   pairs, in completion order, each future's task with what
   future.result() does *)
| AsCompleted (tasks : list dict) (testbed : string)
    (repo_cache : gmap string string) (max_workers : Z)
    : osE (list (dict * outcome (option dict)))
| Print (l : log_line) : osE unit.

Inductive prog (A : Type) : Type :=
| Ret (a : A)
| Raise (e : exn)
| Vis {X : Type} (ev : osE X) (k : X -> prog A).
Arguments Ret {A} a.
Arguments Raise {A} e.
Arguments Vis {A X} ev k.

Fixpoint bind {A B : Type} (p : prog A) (f : A -> prog B) : prog B :=
  match p with
  | Ret a => f a
  | Raise e => Raise e
  | Vis ev k => Vis ev (fun x => bind (k x) f)
  end.

Notation "x <- p ;; q" := (bind p (fun x => q))
  (at level 100, p at next level, right associativity).
Notation "p ;; q" := (bind p (fun _ => q))
  (at level 100, right associativity).

(** A call that cannot raise. *)
Definition trigger {X : Type} (ev : osE X) : prog X := Vis ev Ret.

(** A call that raises what the environment answers. *)
Definition call {X : Type} (ev : osE (outcome X)) : prog X :=
  Vis ev (fun r => match r with Returned x => Ret x | Raised e => Raise e end).

(** [try: p  except Exception as e: h e] *)
Fixpoint try_except {A : Type} (p : prog A) (h : exn -> prog A) : prog A :=
  match p with
  | Ret a => Ret a
  | Raise e => h e
  | Vis ev k => Vis ev (fun x => try_except (k x) h)
  end.

(** [try: p  finally: f].  An exception of [f] replaces how [p] ended. *)
Fixpoint try_finally {A : Type} (p : prog A) (f : prog unit) : prog A :=
  match p with
  | Ret a => f ;; Ret a
  | Raise e => f ;; Raise e
  | Vis ev k => Vis ev (fun x => try_finally (k x) f)
  end.

(** One call and its answer. *)
Inductive step : Type :=
| Ev {X : Type} (ev : osE X) (x : X).

(** An environment: a state and how it answers each call. *)
Definition handler (S : Type) : Type := forall X : Type, osE X -> S -> X * S.

Fixpoint run {S A : Type} (h : handler S) (p : prog A) (s : S)
  : outcome A * S * list step :=
  match p with
  | Ret a => (Returned a, s, [])
  | Raise e => (Raised e, s, [])
  | Vis ev k =>
      let '(x, s1) := h _ ev s in
      let '(o, s2, tr) := run h (k x) s1 in
      (o, s2, Ev ev x :: tr)
  end.

(** ** The functions of [get_version.py] *)

(** [d[k]] *)
Definition getitem (d : dict) (k : string) : prog json :=
  match Dict.get d k with
  | Some v => Ret v
  | None => Raise (Exn KeyError [Text k])
  end.

(** [os.path.join(a, v)] for a value [v] read from a record: only a
    [str] is a path. *)
Definition os_path_join (a : string) (v : json) : prog string :=
  match v with
  | JStr b => Ret (Path.join2 a b)
  | _ => Raise (Exn TypeError [Text "expected str, bytes or os.PathLike object"])
  end.

(** [repo_cache.get(repo)]: a list or a dict cannot be hashed, any other
    value that is not a [str] is not a key of the cache. *)
Definition cache_get (repo_cache : gmap string string) (repo : json)
  : prog (option string) :=
  match repo with
  | JStr r => Ret (repo_cache !! r)
  | JList _ | JDict _ => Raise (Exn TypeError [Text "unhashable type"])
  | _ => Ret None
  end.

(** [with cd(newdir): body] *)
Definition cd {A : Type} (newdir : string) (body : prog A) : prog A :=
  prevdir <- trigger Getcwd ;;
  target <- trigger (Expanduser newdir) ;;
  call (Chdir target) ;;
  try_finally body (call (Chdir prevdir)).

Definition run_command (cmd : list string) : prog string :=
  r <- trigger (Subprocess cmd) ;;
  match r with
  | Returned out => Ret out
  | Raised e =>
      (if is_called_process_error e
       then trigger (Print (LogCommandError cmd e)) else Ret tt) ;;
      Raise e
  end.

Definition is_git_repo_path (path : string) : prog bool :=
  d <- trigger (PathIsdir path) ;;
  if negb d then Ret false
  else
    g <- trigger (PathIsdir (Path.join2 path ".git")) ;;
    if g then Ret true
    else
      let head := Path.join2 path "HEAD" in
      let objects := Path.join2 path "objects" in
      f <- trigger (PathIsfile head) ;;
      if f then trigger (PathIsdir objects) else Ret false.

(** The exception of line 50. *)
Definition UnrecognizedVersionError (version : string) : exn :=
  Exn RuntimeError [Text "Unrecognized version: "; Text version].

(** Lines 47 to 50: the version of a stripped [git describe] output;
    [m.group(1)] is [None] for a group that took no part. *)
Definition extract_version (version : string) : outcome json :=
  match Re.search Re.version_pattern version with
  | Some m =>
      match Re.group 1 m with
      | Some g => Returned (JStr g)
      | None => Returned JNull
      end
  | None => Raised (UnrecognizedVersionError version)
  end.

Definition lift {A : Type} (o : outcome A) : prog A :=
  match o with Returned a => Ret a | Raised e => Raise e end.

Definition git_describe : list string := ["git"; "describe"; "--tags"].

Fixpoint same_command (c1 c2 : list string) : bool :=
  match c1, c2 with
  | [], [] => true
  | a :: c1', b :: c2' => String.eqb a b && same_command c1' c2'
  | _, _ => false
  end.

Definition get_version_by_git (cloned_dir : string) : prog json :=
  d <- trigger (PathIsdir cloned_dir) ;;
  if negb d then
    Raise (Exn NotADirectoryError [Text "Invalid directory: "; Text cloned_dir])
  else
    cd cloned_dir
      (stdout <- run_command git_describe ;;
       let version := Str.strip stdout in
       trigger (Print (LogCurrentVersion version)) ;;
       lift (extract_version version)).

Definition get_instances (instance_path : string) : prog (list dict) :=
  if Str.endswith instance_path ".jsonl"
     || Str.endswith instance_path ".jsonl.all"
  then call (ReadInstances instance_path true)
  else call (ReadInstances instance_path false).

(** A [str] that is not empty, or an [Optional[str]] that is neither
    [None] nor empty. *)
Definition nonempty (s : string) : bool := negb (String.eqb s "").
Definition truthy_opt (o : option string) : bool :=
  match o with Some s => nonempty s | None => false end.

(** Lines 69 to 76. *)
Definition candidates (local_cache_dir repo : string) : list string :=
  let owner_repo_flat := Str.replace Str.slash "__" repo in
  let fields := Str.split Str.slash repo in
  [ Path.join2 local_cache_dir owner_repo_flat;
    Path.join2 local_cache_dir (owner_repo_flat ++ ".git");
    Path.join local_cache_dir fields;
    (Path.join local_cache_dir fields ++ ".git")%string;
    Path.join2 local_cache_dir (Str.last_field fields);
    Path.join2 local_cache_dir (Str.last_field fields ++ ".git") ].

(** [next((p for p in paths if is_git_repo_path(p)), None)] *)
Fixpoint first_git_repo_path (paths : list string) : prog (option string) :=
  match paths with
  | [] => Ret None
  | p :: ps =>
      ok <- is_git_repo_path p ;;
      if ok then Ret (Some p) else first_git_repo_path ps
  end.

(** [os.path.abspath(path)] *)
Definition abspath (path : string) : prog string :=
  if Path.isabs path then Ret (Path.normpath path)
  else cwd <- trigger Getcwd ;; Ret (Path.normpath (Path.join2 cwd path)).

(** The body of the loop of [prepare_repo_cache] for a [repo] that is not
    in the cache yet, lines 66 to 94. *)
Definition resolve_repo (repo cache_dir : string)
    (local_cache_dir : option string) (skip_missing_repo : bool)
    (repo_cache : gmap string string) : prog (gmap string string) :=
  if truthy_opt local_cache_dir then
    let dir := default "" local_cache_dir in
    local_path <- first_git_repo_path (candidates dir repo) ;;
    if truthy_opt local_path then
      path <- abspath (default "" local_path) ;;
      trigger (Print (LogReusing repo)) ;;
      Ret (<[repo := path]> repo_cache)
    else if skip_missing_repo then
      trigger (Print (LogSkipMissing repo)) ;; Ret repo_cache
    else
      trigger (Print (LogMissingNoClone repo)) ;; Ret repo_cache
  else
    let repo_url := ("https://github.com/" ++ repo ++ ".git")%string in
    let local_path := Path.join2 cache_dir (Str.replace Str.slash "__" repo) in
    try_except
      (run_command ["git"; "clone"; repo_url; local_path] ;;
       trigger (Print (LogCached repo)) ;;
       Ret (<[repo := local_path]> repo_cache))
      (fun e => trigger (Print (LogCloneFailed repo e)) ;; Ret repo_cache).

(** The loop of [prepare_repo_cache], lines 62 to 95. *)
Fixpoint prepare_repo_cache_loop (tasks : list dict) (cache_dir : string)
    (local_cache_dir : option string) (skip_missing_repo : bool)
    (repo_cache : gmap string string) : prog (gmap string string) :=
  match tasks with
  | [] => Ret repo_cache
  | task :: tasks' =>
      v <- getitem task "repo" ;;
      match v with
      | JStr repo =>
          match repo_cache !! repo with
          | Some _ =>
              prepare_repo_cache_loop tasks' cache_dir local_cache_dir
                skip_missing_repo repo_cache
          | None =>
              repo_cache' <- resolve_repo repo cache_dir local_cache_dir
                               skip_missing_repo repo_cache ;;
              prepare_repo_cache_loop tasks' cache_dir local_cache_dir
                skip_missing_repo repo_cache'
          end
      | JList _ | JDict _ => Raise (Exn TypeError [Text "unhashable type"])
      | _ => Raise (Exn AttributeError [Text "object has no attribute 'replace'"])
      end
  end.

Definition prepare_repo_cache (tasks : list dict) (cache_dir : string)
    (local_cache_dir : option string) (skip_missing_repo : bool)
  : prog (gmap string string) :=
  call (Makedirs cache_dir) ;;
  prepare_repo_cache_loop tasks cache_dir local_cache_dir skip_missing_repo ∅.

(** Line 107: [not cached_repo or not os.path.exists(cached_repo)]. *)
Definition cache_entry_missing (cached_repo : option string) : prog bool :=
  if truthy_opt cached_repo
  then present <- trigger (PathExists (default "" cached_repo)) ;;
       Ret (negb present)
  else Ret true.

(** [git checkout base_commit]: an argument that is not a [str] is
    refused before any process starts. *)
Definition git_checkout (base_commit : json) : prog string :=
  match base_commit with
  | JStr c => run_command ["git"; "checkout"; c]
  | _ => Raise (Exn TypeError [Text "expected str, bytes or os.PathLike object"])
  end.

Definition git_safe_directory (repo_dir : string) : list string :=
  ["git"; "config"; "--global"; "--add"; "safe.directory"; repo_dir].

(** Lines 105 to 126: the [try] statement of [process_repo_task]. *)
Definition extract_staged (task : dict) (instance_id repo base_commit : json)
    (repo_dir : string) (repo_cache : gmap string string)
  : prog (option dict) :=
  try_finally
    (try_except
       (cached_repo <- cache_get repo_cache repo ;;
        missing <- cache_entry_missing cached_repo ;;
        (if missing
         then Raise (Exn RuntimeError [Text "Missing cached repo for "; Show repo])
         else Ret tt) ;;
        let cached := default "" cached_repo in
        tree <- trigger (PathIsdir (Path.join2 cached ".git")) ;;
        (if tree then call (Copytree cached repo_dir)
         else run_command ["git"; "clone"; cached; repo_dir] ;; Ret tt) ;;
        run_command (git_safe_directory repo_dir) ;;
        cd repo_dir (git_checkout base_commit) ;;
        version <- get_version_by_git repo_dir ;;
        let result := Dict.copy task in
        let result := Dict.set result "version" version in
        Ret (Some result))
       (fun e => trigger (Print (LogFailed instance_id e)) ;; Ret None))
    (trigger (Rmtree repo_dir)).

Definition process_repo_task (task : dict) (testbed : string)
    (repo_cache : gmap string string) : prog (option dict) :=
  instance_id <- getitem task "instance_id" ;;
  repo <- getitem task "repo" ;;
  base_commit <- getitem task "base_commit" ;;
  repo_dir <- os_path_join testbed instance_id ;;
  present <- trigger (PathExists repo_dir) ;;
  (if present then trigger (Rmtree repo_dir) else Ret tt) ;;
  extract_staged task instance_id repo base_commit repo_dir repo_cache.

(** [if result:] for what a worker returns: [None] and the empty dict
    are false. *)
Definition truthy_result (result : option dict) : bool :=
  match result with
  | Some (_ :: _) => true
  | _ => false
  end.

(** The loop over [as_completed], lines 135 to 145. *)
Fixpoint collect (completed : list (dict * outcome (option dict)))
    (results failures : list dict) : prog (list dict * list dict) :=
  match completed with
  | [] => Ret (results, failures)
  | (task, future) :: completed' =>
      match future with
      | Returned result =>
          if truthy_result result
          then collect completed' (results ++ [default [] result]) failures
          else collect completed' results (failures ++ [task])
      | Raised e =>
          instance_id <- getitem task "instance_id" ;;
          trigger (Print (LogUnexpected instance_id e)) ;;
          collect completed' results (failures ++ [task])
      end
  end.

Definition process_repos (tasks : list dict) (testbed : string)
    (repo_cache : gmap string string) (max_workers : Z)
  : prog (list dict * list dict) :=
  call (Makedirs testbed) ;;
  (* ProcessPoolExecutor refuses a pool without workers *)
  (if (max_workers <=? 0)%Z
   then Raise (Exn ValueError [Text "max_workers must be greater than 0"])
   else Ret tt) ;;
  (* lines 132 to 134 are outside the [try] statement of the loop *)
  call (Submit tasks testbed repo_cache max_workers) ;;
  completed <- trigger (AsCompleted tasks testbed repo_cache max_workers) ;;
  collect completed [] [].

Definition is_line_delimited (path : string) : bool :=
  Str.endswith path ".jsonl" || Str.endswith path ".jsonl.all".

Definition save_results (results : list dict) (output_path : string)
  : prog unit :=
  call (Makedirs (Path.dirname output_path)) ;;
  if is_line_delimited output_path
  then call (WriteArtifact output_path (Jsonl results))
  else call (WriteArtifact output_path (JsonArray results)).

Definition generate_output_path (instance_path suffix : string) : string :=
  let '(base, ext) := Path.splitext instance_path in
  (base ++ suffix ++ ext)%string.

Record arguments : Type := Arguments {
  instance_path : string;
  testbed : string;
  local_cache_dir : option string;
  skip_missing_repo : bool;
  max_workers : Z
}.

Definition required_keys : list string := ["repo"; "base_commit"; "instance_id"].

Definition has_required_keys (t : dict) : bool :=
  forallb (Dict.contains t) required_keys.

(** Line 192: [[t for t in tasks if t["repo"] in repo_cache]]. *)
Fixpoint tasks_in_cache (tasks : list dict) (repo_cache : gmap string string)
  : prog (list dict) :=
  match tasks with
  | [] => Ret []
  | t :: tasks' =>
      repo <- getitem t "repo" ;;
      cached <- cache_get repo_cache repo ;;
      kept <- tasks_in_cache tasks' repo_cache ;;
      Ret (match cached with Some _ => t :: kept | None => kept end)
  end.

Fixpoint print_results (results : list dict) : prog unit :=
  match results with
  | [] => Ret tt
  | r :: rs => trigger (Print (LogResult r)) ;; print_results rs
  end.

Definition main (args : arguments) : prog unit :=
  loaded <- try_except
              (tasks <- get_instances (instance_path args) ;; Ret (Some tasks))
              (fun e => trigger (Print (LogReadError e)) ;; Ret None) ;;
  match loaded with
  | None => Ret tt
  | Some tasks =>
      match find (fun t => negb (has_required_keys t)) tasks with
      | Some t => trigger (Print (LogInvalidTask t))
      | None =>
          let repo_cache_dir := Path.join2 (testbed args) "_cache" in
          repo_cache <- prepare_repo_cache tasks repo_cache_dir
                          (local_cache_dir args) (skip_missing_repo args) ;;
          tasks <- (if truthy_opt (local_cache_dir args) && skip_missing_repo args
                    then tasks_in_cache tasks repo_cache else Ret tasks) ;;
          rf <- process_repos tasks (testbed args) repo_cache (max_workers args) ;;
          let '(results, failures) := rf in
          let output_path := generate_output_path (instance_path args) "_versions" in
          save_results results output_path ;;
          trigger (Print (LogSaved (length results) output_path)) ;;
          (match failures with
           | [] => Ret tt
           | _ :: _ =>
               let fail_path :=
                 generate_output_path (instance_path args) "_failures" in
               save_results failures fail_path ;;
               trigger (Print (LogFailuresSaved (length failures) fail_path))
           end) ;;
          print_results results
      end
  end.

(** ** A reference environment

    A file system of directories and files named by normalised paths,
    some of which cannot be removed, with a process-wide current
    directory.  What a subprocess does is a parameter of the machine. *)

Module Machine.

Record fs : Type := Fs {
  cwd : string;
  home : string;
  dirs : list string;
  files : list string;
  (* entries that cannot be removed (another owner, a read-only mount) *)
  pinned : list string;
  contents : list (string * artifact);
  (* git config --global safe.directory *)
  safe_directories : list string;
  (* the commit each working copy is at *)
  checked_out : list (string * string);
  console : list log_line
}.

Definition set_cwd (d : string) (f : fs) : fs :=
  Fs d (home f) (dirs f) (files f) (pinned f) (contents f)
     (safe_directories f) (checked_out f) (console f).
Definition set_tree (ds fls : list string) (cs : list (string * artifact))
    (f : fs) : fs :=
  Fs (cwd f) (home f) ds fls (pinned f) cs
     (safe_directories f) (checked_out f) (console f).
Definition add_safe (d : string) (f : fs) : fs :=
  Fs (cwd f) (home f) (dirs f) (files f) (pinned f) (contents f)
     (safe_directories f ++ [d]) (checked_out f) (console f).
Definition set_head (d c : string) (f : fs) : fs :=
  Fs (cwd f) (home f) (dirs f) (files f) (pinned f) (contents f)
     (safe_directories f) ((d, c) :: checked_out f) (console f).
Definition add_console (l : log_line) (f : fs) : fs :=
  Fs (cwd f) (home f) (dirs f) (files f) (pinned f) (contents f)
     (safe_directories f) (checked_out f) (console f ++ [l]).

Definition mem (p : string) (l : list string) : bool :=
  existsb (String.eqb p) l.

(** The entry a path names from the current directory. *)
Definition resolve (f : fs) (p : string) : string :=
  Path.normpath (Path.join2 (cwd f) p).

Definition is_dir (f : fs) (r : string) : bool :=
  String.eqb r "/" || mem r (dirs f).
Definition is_file (f : fs) (r : string) : bool := mem r (files f).

Definition isdir (f : fs) (p : string) : bool :=
  nonempty p && is_dir f (resolve f p).
Definition isfile (f : fs) (p : string) : bool :=
  nonempty p && is_file f (resolve f p).
Definition exists_ (f : fs) (p : string) : bool := isdir f p || isfile f p.

(** [e] is [r] or lies below it. *)
Definition under (r e : string) : bool :=
  String.eqb e r || String.eqb r "/" || Str.startswith e (r ++ "/").

(** An entry stays when it is pinned or holds a pinned entry. *)
Definition stays (f : fs) (e : string) : bool :=
  existsb (under e) (pinned f).

Definition removed (f : fs) (r e : string) : bool :=
  under r e && negb (stays f e).

Definition rmtree (f : fs) (p : string) : fs :=
  let r := resolve f p in
  if isdir f p then
    set_tree (List.filter (fun e => negb (removed f r e)) (dirs f))
             (List.filter (fun e => negb (removed f r e)) (files f))
             (List.filter (fun c => negb (removed f r (fst c))) (contents f)) f
  else f.

Fixpoint prefixes (acc : string) (comps : list string) : list string :=
  match comps with
  | [] => []
  | c :: cs => let a := (acc ++ "/" ++ c)%string in a :: prefixes a cs
  end.

(** A normalised absolute path and the directories above it. *)
Definition ancestors (r : string) : list string :=
  prefixes "" (List.filter nonempty (Str.split Str.slash r)).

Definition add_dirs (new : list string) (ds : list string) : list string :=
  ds ++ List.filter (fun d => negb (mem d ds)) new.

Definition makedirs (f : fs) (p : string) : outcome unit * fs :=
  if String.eqb p "" then
    (Raised (Exn FileNotFoundError [Text "No such file or directory: ''"]), f)
  else
    let r := resolve f p in
    if existsb (is_file f) (ancestors r) then
      (Raised (Exn FileExistsError [Text "File exists: "; Text p]), f)
    else
      (Returned tt,
       set_tree (add_dirs (ancestors r) (dirs f)) (files f) (contents f) f).

(** The entry of the copy for an entry [e] below [rs]. *)
Definition rebase (rs rd e : string) : string :=
  (rd ++ Str.of_chars (skipn (String.length rs) (Str.chars e)))%string.

Definition copytree (f : fs) (src dst : string) : outcome unit * fs :=
  let rs := resolve f src in
  let rd := resolve f dst in
  if negb (isdir f src) then
    (Raised (Exn FileNotFoundError [Text "No such file or directory: "; Text src]), f)
  else if String.eqb dst "" || existsb (is_file f) (ancestors rd) then
    (Raised (Exn FileExistsError [Text "File exists: "; Text dst]), f)
  else
    let below := fun e => under rs e in
    (Returned tt,
     set_tree
       (add_dirs (ancestors rd ++ map (rebase rs rd) (List.filter below (dirs f)))
                 (dirs f))
       (add_dirs (map (rebase rs rd) (List.filter below (files f))) (files f))
       (contents f) f).

Definition chdir (f : fs) (p : string) : outcome unit * fs :=
  if isdir f p then (Returned tt, set_cwd (resolve f p) f)
  else (Raised (Exn FileNotFoundError [Text "No such file or directory: "; Text p]), f).

Definition expanduser (f : fs) (p : string) : string :=
  if String.eqb p "~" then home f
  else if Str.startswith p "~/"
       then (home f ++ Str.of_chars (skipn 1 (Str.chars p)))%string
       else p.

Fixpoint lookup_path {A : Type} (r : string) (l : list (string * A)) : option A :=
  match l with
  | [] => None
  | (k, a) :: l' => if String.eqb k r then Some a else lookup_path r l'
  end.

Definition read_instances (f : fs) (p : string) (line_delimited : bool)
  : outcome (list dict) :=
  if negb (isfile f p) then
    Raised (Exn FileNotFoundError [Text "No such file or directory: "; Text p])
  else
    match lookup_path (resolve f p) (contents f), line_delimited with
    | Some (Jsonl rs), true => Returned rs
    | Some (JsonArray rs), false => Returned rs
    | _, _ => Raised (Exn JSONDecodeError [Text p])
    end.

Definition write_artifact (f : fs) (p : string) (a : artifact)
  : outcome unit * fs :=
  let r := resolve f p in
  if String.eqb p "" || negb (isdir f (Path.dirname r)) then
    (Raised (Exn FileNotFoundError [Text "No such file or directory: "; Text p]), f)
  else if is_dir f r then
    (Raised (Exn OSError [Text "Is a directory: "; Text p]), f)
  else
    (Returned tt,
     set_tree (dirs f) (add_dirs [r] (files f))
              ((r, a) :: List.filter (fun c => negb (String.eqb (fst c) r)) (contents f))
              f).

(** A machine: a file system and what running a command does to it. *)
Record machine : Type := Machine {
  m_fs : fs;
  m_subprocess : list string -> fs -> outcome string * fs
}.

Definition with_fs (m : machine) (f : fs) : machine :=
  Machine f (m_subprocess m).

(** The answers of one process; it has no pool of its own. *)
Definition os_handler : handler machine :=
  fun X ev =>
    match ev in osE X return machine -> X * machine with
    | Getcwd => fun m => (cwd (m_fs m), m)
    | Chdir p => fun m =>
        let '(r, f) := chdir (m_fs m) p in (r, with_fs m f)
    | Expanduser p => fun m => (expanduser (m_fs m) p, m)
    | PathExists p => fun m => (exists_ (m_fs m) p, m)
    | PathIsdir p => fun m => (isdir (m_fs m) p, m)
    | PathIsfile p => fun m => (isfile (m_fs m) p, m)
    | Makedirs p => fun m =>
        let '(r, f) := makedirs (m_fs m) p in (r, with_fs m f)
    | Rmtree p => fun m => (tt, with_fs m (rmtree (m_fs m) p))
    | Copytree src dst => fun m =>
        let '(r, f) := copytree (m_fs m) src dst in (r, with_fs m f)
    | Subprocess cmd => fun m =>
        let '(r, f) := m_subprocess m cmd (m_fs m) in (r, with_fs m f)
    | ReadInstances p ld => fun m => (read_instances (m_fs m) p ld, m)
    | WriteArtifact p a => fun m =>
        let '(r, f) := write_artifact (m_fs m) p a in (r, with_fs m f)
    | Submit _ _ _ _ => fun m => (Returned tt, m)
    | AsCompleted _ _ _ _ => fun m => ([], m)
    | Print l => fun m => (tt, with_fs m (add_console l (m_fs m)))
    end.

(** The workers of a pool, one after the other in submission order. *)
Fixpoint run_workers (tasks : list dict) (testbed : string)
    (repo_cache : gmap string string) (m : machine)
  : list (dict * outcome (option dict)) * machine :=
  match tasks with
  | [] => ([], m)
  | t :: tasks' =>
      let '(o, m1, _) := run os_handler (process_repo_task t testbed repo_cache) m in
      let '(rest, m2) := run_workers tasks' testbed repo_cache m1 in
      ((t, o) :: rest, m2)
  end.

Definition pool_handler : handler machine :=
  fun X ev =>
    match ev in osE X return machine -> X * machine with
    | AsCompleted tasks testbed repo_cache _ => fun m =>
        run_workers tasks testbed repo_cache m
    | ev' => os_handler _ ev'
    end.

(** The exception of a future whose pool broke. *)
Definition broken_process_pool : exn :=
  Exn BrokenProcessPool
      [Text "A process in the process pool was terminated abruptly"].

(** What becomes of the processes of a pool: none dies; the process
    that gets one of certain tasks is killed (by the system, when the
    memory runs out), after every task was submitted; or a process is
    killed while tasks are still being submitted. *)
Inductive pool_fate : Type :=
| Healthy
| KilledOn (killed : dict -> bool)
| KilledDuringSubmit.

(** The workers up to the first that is killed: the executor then
    fails the future of its task and every future still pending. *)
Fixpoint run_workers_until (killed : dict -> bool) (tasks : list dict)
    (testbed : string) (repo_cache : gmap string string) (m : machine)
  : list (dict * outcome (option dict)) * machine :=
  match tasks with
  | [] => ([], m)
  | t :: tasks' =>
      if killed t then
        (map (fun t' => (t', Raised broken_process_pool)) (t :: tasks'), m)
      else
        let '(o, m1, _) :=
          run os_handler (process_repo_task t testbed repo_cache) m in
        let '(rest, m2) :=
          run_workers_until killed tasks' testbed repo_cache m1 in
        ((t, o) :: rest, m2)
  end.

Definition fated_pool_handler (fate : pool_fate) : handler machine :=
  fun X ev =>
    match ev in osE X return machine -> X * machine with
    | Submit _ _ _ _ => fun m =>
        match fate with
        | KilledDuringSubmit => (Raised broken_process_pool, m)
        | _ => (Returned tt, m)
        end
    | AsCompleted tasks testbed repo_cache _ => fun m =>
        match fate with
        | KilledOn killed =>
            run_workers_until killed tasks testbed repo_cache m
        | _ => run_workers tasks testbed repo_cache m
        end
    | ev' => os_handler _ ev'
    end.

(** A model of [git] for the scenarios: [tags] gives the output of
    [git describe --tags] at each known commit. *)
Definition called_process_error (cmd : list string) : exn :=
  Exn CalledProcessError [Text "Command returned non-zero exit status: ";
                          Text (Str.join " " cmd)].

(** A directory with nothing in it. *)
Definition is_empty_dir (f : fs) (r : string) : bool :=
  negb (existsb (fun e => under r e && negb (String.eqb e r))
                (dirs f ++ files f)).

(** [git clone src dst]: the source is a repository, with a working
    tree or bare; the destination is not there yet, or is an empty
    directory. *)
Definition git_clone (cmd : list string) (src dst : string) (f : fs)
  : outcome string * fs :=
  let rd := resolve f dst in
  if isdir f src
     && (isdir f (Path.join2 src ".git")
         || (isfile f (Path.join2 src "HEAD")
             && isdir f (Path.join2 src "objects")))
     && nonempty dst
     && (negb (exists_ f dst) || (isdir f dst && is_empty_dir f rd))
  then
    (Returned "",
     set_tree (add_dirs (ancestors rd ++ [(rd ++ "/.git")%string]) (dirs f))
              (files f) (contents f) f)
  else (Raised (called_process_error cmd), f).

Definition git_checkout (tags : list (string * string)) (cmd : list string)
    (c : string) (f : fs) : outcome string * fs :=
  match lookup_path c tags with
  | Some _ =>
      if isdir f ".git" then (Returned "", set_head (cwd f) c f)
      else (Raised (called_process_error cmd), f)
  | None => (Raised (called_process_error cmd), f)
  end.

Definition newline : string := String (ascii_of_nat 10) "".

Definition git_describe (tags : list (string * string)) (cmd : list string)
    (f : fs) : outcome string * fs :=
  match lookup_path (cwd f) (checked_out f) with
  | Some c =>
      match lookup_path c tags with
      | Some t =>
          if isdir f ".git" then (Returned (t ++ newline)%string, f)
          else (Raised (called_process_error cmd), f)
      | None => (Raised (called_process_error cmd), f)
      end
  | None => (Raised (called_process_error cmd), f)
  end.

Definition git (tags : list (string * string)) (cmd : list string) (f : fs)
  : outcome string * fs :=
  match cmd with
  | program :: command :: args =>
      if negb (String.eqb program "git") then
        (Raised (Exn FileNotFoundError [Text "No such file or directory"]), f)
      else if String.eqb command "clone" then
        match args with
        | [src; dst] => git_clone cmd src dst f
        | _ => (Raised (called_process_error cmd), f)
        end
      else if String.eqb command "config" then
        match args with
        | [_; _; _; d] => (Returned "", add_safe d f)
        | _ => (Raised (called_process_error cmd), f)
        end
      else if String.eqb command "checkout" then
        match args with
        | [c] => git_checkout tags cmd c f
        | _ => (Raised (called_process_error cmd), f)
        end
      else if String.eqb command "describe" then git_describe tags cmd f
      else (Raised (called_process_error cmd), f)
  | _ => (Raised (Exn FileNotFoundError [Text "No such file or directory"]), f)
  end.

End Machine.

(** ** What the statements are about *)

(** A run seen from outside. *)
Definition result_of {S A : Type} (r : outcome A * S * list step) : outcome A :=
  fst (fst r).
Definition state_of {S A : Type} (r : outcome A * S * list step) : S :=
  snd (fst r).
Definition trace_of {S A : Type} (r : outcome A * S * list step) : list step :=
  snd r.

(** The state an environment is in after answering a trace. *)
Fixpoint replay {S : Type} (h : handler S) (tr : list step) (s : S) : S :=
  match tr with
  | [] => s
  | Ev ev _ :: tr' => replay h tr' (snd (h _ ev s))
  end.

(** What the pool answered, for each pool of a trace. *)
Definition pool_answer (st : step) : option (list (dict * outcome (option dict))) :=
  match st with
  | Ev ev x =>
      match ev in osE X return X -> option (list (dict * outcome (option dict))) with
      | AsCompleted _ _ _ _ => fun c => Some c
      | _ => fun _ => None
      end x
  end.
Definition pool_answers (tr : list step) : list (list (dict * outcome (option dict))) :=
  omap pool_answer tr.

(** What [executor.submit] raised, for each pool of a trace that broke
    while the tasks were being submitted. *)
Definition submit_error (st : step) : option exn :=
  match st with
  | Ev ev x =>
      match ev in osE X return X -> option exn with
      | Submit _ _ _ _ => fun r =>
          match r with Raised e => Some e | Returned _ => None end
      | _ => fun _ => None
      end x
  end.
Definition submit_errors (tr : list step) : list exn := omap submit_error tr.

(** What [git describe --tags] printed, for each time it ran and
    succeeded. *)
Definition describe_output (st : step) : option string :=
  match st with
  | Ev ev x =>
      match ev in osE X return X -> option string with
      | Subprocess cmd => fun r =>
          match r with
          | Returned out =>
              if same_command cmd git_describe then Some out else None
          | Raised _ => None
          end
      | _ => fun _ => None
      end x
  end.
Definition describe_outputs (tr : list step) : list string :=
  omap describe_output tr.

(** What a change of directory raised. *)
Definition chdir_error (st : step) : option exn :=
  match st with
  | Ev ev x =>
      match ev in osE X return X -> option exn with
      | Chdir _ => fun r =>
          match r with Raised e => Some e | Returned _ => None end
      | _ => fun _ => None
      end x
  end.
Definition chdir_errors (tr : list step) : list exn := omap chdir_error tr.

(** The artifacts a trace wrote, with their paths. *)
Definition written (st : step) : option (string * artifact) :=
  match st with
  | Ev ev x =>
      match ev in osE X return X -> option (string * artifact) with
      | WriteArtifact p a => fun r =>
          match r with Returned _ => Some (p, a) | Raised _ => None end
      | _ => fun _ => None
      end x
  end.
Definition artifacts_written (tr : list step) : list (string * artifact) :=
  omap written tr.

(** The paths a trace asked the file system about. *)
Definition asked (st : step) : option string :=
  match st with
  | Ev ev _ =>
      match ev with
      | PathExists p | PathIsdir p | PathIsfile p => Some p
      | _ => None
      end
  end.

(** ^\d+\.\d+$ *)
Definition all_digits (s : string) : Prop :=
  s <> "" /\ forallb Str.is_digit (Str.chars s) = true.
Definition is_major_minor (v : string) : Prop :=
  exists major minor : string,
    v = (major ++ "." ++ minor)%string /\ all_digits major /\ all_digits minor.

(** Some part of [out] is of the form <major>.<minor>[.<patch>]. *)
Definition describe_matches (out : string) : Prop :=
  exists pre m post : list ascii,
    Str.chars out = pre ++ m ++ post /\ Re.lang Re.version_pattern m.

(** The identifying fields of a record. *)
Definition id_fields (t : dict) : option json * option json * option json :=
  (Dict.get t "instance_id", Dict.get t "repo", Dict.get t "base_commit").

(** A success extends its task by a version. *)
Definition extends (r t : dict) : Prop :=
  exists v, is_major_minor v /\ r = Dict.set t "version" (JStr v).

(** A worker returns only what [process_repo_task] can return in some
    environment; an exception may also come from the pool itself. *)
Definition worker_may_answer (task : dict) (testbed : string)
    (repo_cache : gmap string string) (o : outcome (option dict)) : Prop :=
  match o with
  | Returned r =>
      exists (S : Type) (h : handler S) (s : S),
        result_of (run h (process_repo_task task testbed repo_cache) s)
        = Returned r
  | Raised _ => True
  end.

(** The pool hands back each submitted task once, in some order, with
    an answer of its worker. *)
Definition pool_faithful (tasks : list dict) (testbed : string)
    (repo_cache : gmap string string)
    (completed : list (dict * outcome (option dict))) : Prop :=
  Permutation (map fst completed) tasks
  /\ Forall (fun c => worker_may_answer (fst c) testbed repo_cache (snd c))
            completed.

(** The record a completed future adds to the successes, if any. *)
Definition success_of (c : dict * outcome (option dict)) : option dict :=
  match snd c with
  | Returned (Some (x :: r)) => Some (x :: r)
  | _ => None
  end.
Definition failed (c : dict * outcome (option dict)) : bool :=
  match success_of c with Some _ => false | None => true end.

(** A call that stays within a scratch path and leaves the process
    alone: it does not change the current directory, removes and
    copies to the scratch path only, and runs a command only with the
    scratch path among its arguments and without touching the global
    configuration. *)
Definition step_confined (scratch : string) (st : step) : bool :=
  match st with
  | Ev ev _ =>
      match ev with
      | Chdir _ => false
      | Rmtree p => String.eqb p scratch
      | Copytree _ dst => String.eqb dst scratch
      | Makedirs _ | WriteArtifact _ _ | Submit _ _ _ _
      | AsCompleted _ _ _ _ => false
      | Subprocess cmd =>
          existsb (String.eqb scratch) cmd
          && negb (existsb (String.eqb "--global") cmd)
      | _ => true
      end
  end.

(** The cache entry of a record, and the commit it names. *)
Definition cache_entry (task : dict) (repo_cache : gmap string string)
  : option string :=
  match Dict.get task "repo" with
  | Some (JStr r) => repo_cache !! r
  | _ => None
  end.
Definition commit_of (task : dict) : option string :=
  match Dict.get task "base_commit" with
  | Some (JStr c) => Some c
  | _ => None
  end.

Definition is_path (o : option string) (p : string) : bool :=
  match o with
  | Some q => String.eqb p q
  | None => false
  end.

(** The commands of the unit that name the staging path: the clone of
    the cache entry, and the registration of the staging path as a safe
    directory in the global configuration. *)
Definition staging_command (scratch : string) (cached : option string)
    (cmd : list string) : bool :=
  match cmd with
  | [program; command; src; dst] =>
      String.eqb program "git" && String.eqb command "clone"
      && is_path cached src && String.eqb dst scratch
  | _ => same_command cmd (git_safe_directory scratch)
  end.

(** The commands of the unit that name no path and work on the current
    directory: the checkout of the commit, and the describe. *)
Definition in_place_command (commit : option string) (cmd : list string)
  : bool :=
  match cmd with
  | [program; command; arg] =>
      String.eqb program "git"
      && ((String.eqb command "checkout" && is_path commit arg)
          || same_command cmd git_describe)
  | _ => false
  end.

(** The steps of the unit for a staging path [scratch], a cache entry
    [cached] and a commit.  [prev] is the last answer of [os.getcwd()],
    [target] the last answer of [os.path.expanduser(scratch)], [inside]
    tells whether the process is in a directory it has to leave again.
    Outside, the unit asks about the staging path, the cache entry and
    its [.git], removes the staging path, copies or clones the cache
    entry to it and registers it; it changes directory to [target]
    only.  Inside, it runs the commands without a path, and the next
    change of directory goes back to [prev].  Nothing else is done. *)
Fixpoint staged (scratch : string) (cached commit prev target : option string)
    (inside : bool) (tr : list step) : bool :=
  match tr with
  | [] => negb inside
  | Ev ev x :: tr' =>
      match ev in osE X return X -> bool with
      | Getcwd => fun d =>
          negb inside && staged scratch cached commit (Some d) target false tr'
      | Expanduser p => fun t =>
          negb inside && String.eqb p scratch
          && staged scratch cached commit prev (Some t) false tr'
      | Chdir t => fun r =>
          if inside then
            is_path prev t && staged scratch cached commit prev target false tr'
          else
            is_path target t
            && match r with
               | Returned _ => staged scratch cached commit prev target true tr'
               | Raised _ => staged scratch cached commit prev target false tr'
               end
      | Subprocess cmd => fun _ =>
          (if inside then in_place_command commit cmd
           else staging_command scratch cached cmd)
          && staged scratch cached commit prev target inside tr'
      | Copytree src dst => fun _ =>
          negb inside && is_path cached src && String.eqb dst scratch
          && staged scratch cached commit prev target inside tr'
      | Rmtree p => fun _ =>
          negb inside && String.eqb p scratch
          && staged scratch cached commit prev target inside tr'
      | PathExists p => fun _ =>
          negb inside && (String.eqb p scratch || is_path cached p)
          && staged scratch cached commit prev target inside tr'
      | PathIsdir p => fun _ =>
          negb inside
          && (String.eqb p scratch
              || is_path (option_map (fun c => Path.join2 c ".git") cached) p)
          && staged scratch cached commit prev target inside tr'
      | Print _ => fun _ => staged scratch cached commit prev target inside tr'
      | _ => fun _ => false
      end x
  end.

Definition changes_directory (st : step) : bool :=
  match st with
  | Ev ev _ => match ev with Chdir _ => true | _ => false end
  end.

(** A directory that has a [.git] subdirectory, or both a [HEAD] file
    and an [objects] directory. *)
Definition looks_like_repository (f : Machine.fs) (p : string) : bool :=
  Machine.isdir f p
  && (Machine.isdir f (Path.join2 p ".git")
      || (Machine.isfile f (Path.join2 p "HEAD")
          && Machine.isdir f (Path.join2 p "objects"))).

(** The candidates up to and including the first that verifies. *)
Fixpoint tried (ok : string -> bool) (paths : list string) : list string :=
  match paths with
  | [] => []
  | p :: ps => if ok p then [p] else p :: tried ok ps
  end.

(** What the resolver is to record for a repository: the absolute path
    of its first candidate that looks like a repository. *)
Definition local_entry (f : Machine.fs) (local repo : string) : option string :=
  option_map (fun p => Path.normpath (Path.join2 (Machine.cwd f) p))
             (List.find (looks_like_repository f) (candidates local repo)).

(** Two file systems with the same current directory and entries. *)
Definition same_tree (f f' : Machine.fs) : Prop :=
  Machine.cwd f = Machine.cwd f' /\ Machine.dirs f = Machine.dirs f'
  /\ Machine.files f = Machine.files f'.

(** The task names the repository [repo]. *)
Definition names_repo (repo : string) (t : dict) : bool :=
  match Dict.get t "repo" with
  | Some (JStr r) => String.eqb r repo
  | _ => false
  end.

(** A name without a separator that is not empty. *)
Definition name_part (s : string) : Prop :=
  s <> "" /\ Str.has_char Str.slash s = false.

(** A staging path the machine can remove. *)
Definition removable (f : Machine.fs) (p : string) : bool :=
  negb (Machine.stays f (Machine.resolve f p))
  && negb (String.eqb (Machine.resolve f p) "/").


(** What holds of the outcome and the trace of a program whatever the
    environment answers. *)
Fixpoint wp {A : Type} (p : prog A) (Q : outcome A -> list step -> Prop) : Prop :=
  match p with
  | Ret a => Q (Returned a) []
  | Raise e => Q (Raised e) []
  | Vis ev k => forall x, wp (k x) (fun o tr => Q o (Ev ev x :: tr))
  end.

(** ** Scenarios *)

Module Scenario.

Import Machine.

(** A clone of [o/r] with a working tree is cached under [/cache]; the
    tag nearest to [abc123] is [v2.3.1]. *)
Definition tree : fs :=
  Fs "/work" "/home/u"
     ["/work"; "/cache"; "/cache/o__r"; "/cache/o__r/.git"; "/tb"; "/data"]
     ["/cache/o__r/README"] [] [] [] [] [].

Definition tags : list (string * string) :=
  [("abc123", "v2.3.1"); ("def456", "weird-tag-no-version")].

Definition machine0 : machine := Machine tree (git tags).

Definition task : dict :=
  [("instance_id", JStr "o__r-1"); ("repo", JStr "o/r");
   ("base_commit", JStr "abc123")].

Definition odd_task : dict :=
  [("instance_id", JStr "o__r-2"); ("repo", JStr "o/r");
   ("base_commit", JStr "def456")].

(** A record whose [instance_id] is a number: the worker raises before
    its [try] statement. *)
Definition crashing_task : dict :=
  [("instance_id", JInt 7); ("repo", JStr "o/r"); ("base_commit", JStr "abc123")].

Definition three_tasks : list dict := [task; odd_task; crashing_task].

(** A record whose [instance_id] is the path of the cache entry:
    [os.path.join] gives that path back for any testbed. *)
Definition aliasing_task : dict :=
  [("instance_id", JStr "/cache/o__r"); ("repo", JStr "o/r");
   ("base_commit", JStr "abc123")].

(** The process that gets [odd_task] is killed. *)
Definition killed (t : dict) : bool :=
  match Dict.get t "instance_id" with
  | Some (JStr id) => String.eqb id "o__r-2"
  | _ => false
  end.

(** A record without [base_commit]. *)
Definition partial_record : dict :=
  [("instance_id", JStr "o__r-3"); ("repo", JStr "o/r")].

Definition repo_cache : gmap string string := {["o/r" := "/cache/o__r"]}.

Definition staging : string := "/tb/o__r-1".

(** The staging directory of [task] is there already and cannot be
    removed. *)
Definition pinned_tree : fs :=
  Fs "/work" "/home/u"
     ["/work"; "/cache"; "/cache/o__r"; "/cache/o__r/.git"; "/tb"; staging]
     ["/cache/o__r/README"] [staging] [] [] [] [].

Definition pinned_machine : machine := Machine pinned_tree (git tags).

(** A line-delimited input under [/data]. *)
Definition with_input (path : string) (a : artifact) (f : fs) : fs :=
  Fs (cwd f) (home f) (dirs f) (path :: files f) (pinned f)
     ((path, a) :: contents f) (safe_directories f) (checked_out f) (console f).

(** The machine of the scenarios with an input file at [path]. *)
Definition input_machine (path : string) (a : artifact) : machine :=
  Machine (with_input path a tree) (git tags).

Definition arguments_for (path : string) : arguments :=
  Arguments path "/tb" (Some "/cache") false 4.

End Scenario.

(** ** Further observations *)

(** Every attempt to write an artifact, whether it succeeded or not. *)
Definition write_attempt (st : step) : option (string * artifact) :=
  match st with
  | Ev ev _ =>
      match ev with
      | WriteArtifact p a => Some (p, a)
      | _ => None
      end
  end.
Definition write_attempts (tr : list step) : list (string * artifact) :=
  omap write_attempt tr.

Definition artifact_records (a : artifact) : list dict :=
  match a with Jsonl rs | JsonArray rs => rs end.

(** The artifact [save_results] writes at a path. *)
Definition artifact_at (path : string) (records : list dict) : artifact :=
  if is_line_delimited path then Jsonl records else JsonArray records.

(** What [main] may have tried to write for an input path: nothing, the
    successes, or the successes and then a non-empty list of failures,
    each at its derived path. *)
Definition writes_as_derived (input : string) (ws : list (string * artifact))
  : Prop :=
  match ws with
  | [] => True
  | [(p, a)] =>
      p = generate_output_path input "_versions"
      /\ a = artifact_at p (artifact_records a)
  | [(p, a); (q, b)] =>
      p = generate_output_path input "_versions"
      /\ a = artifact_at p (artifact_records a)
      /\ q = generate_output_path input "_failures"
      /\ b = artifact_at q (artifact_records b)
      /\ artifact_records b <> []
  | _ => False
  end.

(** A step of the extraction proper: a copy, a command or a change of
    directory. *)
Definition extracts (st : step) : bool :=
  match st with
  | Ev ev _ =>
      match ev with
      | Copytree _ _ | Subprocess _ | Chdir _ => true
      | _ => false
      end
  end.

(** The commands of a trace that ran and succeeded. *)
Definition successful_command (st : step) : option (list string) :=
  match st with
  | Ev ev x =>
      match ev in osE X return X -> option (list string) with
      | Subprocess cmd => fun r =>
          match r with Returned _ => Some cmd | Raised _ => None end
      | _ => fun _ => None
      end x
  end.
Definition successful_commands (tr : list step) : list (list string) :=
  omap successful_command tr.

(** Lines 87, 88 and 90: where a repository is cloned to, and the
    command that clones it. *)
Definition clone_path (cache_dir repo : string) : string :=
  Path.join2 cache_dir (Str.replace Str.slash "__" repo).
Definition clone_command (cache_dir repo : string) : list string :=
  ["git"; "clone"; ("https://github.com/" ++ repo ++ ".git")%string;
   clone_path cache_dir repo].

(** A record the unit can work on: the three fields are there and
    [instance_id] is a [str]. *)
Definition well_formed_record (t : dict) : bool :=
  has_required_keys t
  && match Dict.get t "instance_id" with Some (JStr _) => true | _ => false end.

(** The text starts with something that is not a digit, or is empty. *)
Definition no_digit_ahead (rest : list ascii) : Prop :=
  match rest with
  | c :: _ => Str.is_digit c = false
  | [] => True
  end.

(** The steps of [prepare_repo_cache]: it makes the cache directory,
    asks about paths and the current directory, prints, and runs
    [git clone] when [clones] is set; nothing else. *)
Definition is_clone (cmd : list string) : bool :=
  match cmd with
  | [git; verb; _; _] => String.eqb git "git" && String.eqb verb "clone"
  | _ => false
  end.
Definition prepares (cache_dir : string) (clones : bool) (st : step) : bool :=
  match st with
  | Ev ev _ =>
      match ev with
      | Makedirs p => String.eqb p cache_dir
      | PathIsdir _ | PathIsfile _ | Getcwd | Print _ => true
      | Subprocess cmd => clones && is_clone cmd
      | _ => false
      end
  end.

(** The stages of a run of [main] that a trace shows: the input read,
    a pool with what it was given and what it answered, and an
    attempt to write. *)
Inductive stage : Type :=
| Loaded (tasks : list dict)
| Pooled (tasks : list dict) (testbed : string)
    (repo_cache : gmap string string) (max_workers : Z)
    (completed : list (dict * outcome (option dict)))
| Saved (path : string) (a : artifact).

Definition stage_of (st : step) : option stage :=
  match st with
  | Ev ev x =>
      match ev in osE X return X -> option stage with
      | ReadInstances _ _ => fun r =>
          match r with Returned tasks => Some (Loaded tasks) | Raised _ => None end
      | AsCompleted tasks testbed repo_cache max_workers => fun completed =>
          Some (Pooled tasks testbed repo_cache max_workers completed)
      | WriteArtifact path a => fun _ => Some (Saved path a)
      | _ => fun _ => None
      end x
  end.
Definition stages (tr : list step) : list stage := omap stage_of tr.

(** Line 192: the test [t["repo"] in repo_cache]. *)
Definition in_cache (repo_cache : gmap string string) (t : dict) : bool :=
  match Dict.get t "repo" with
  | Some (JStr r) => bool_decide (is_Some (repo_cache !! r))
  | _ => false
  end.

(** The writes that follow a pool that answered [completed]: none, the
    successes, or the successes and then the failures, when there are
    some. *)
Definition saves_follow (input : string)
    (completed : list (dict * outcome (option dict))) (saves : list stage)
  : Prop :=
  let vp := generate_output_path input "_versions" in
  let fp := generate_output_path input "_failures" in
  let results := omap success_of completed in
  let failures := map fst (List.filter failed completed) in
  saves = []
  \/ saves = [Saved vp (artifact_at vp results)]
  \/ (failures <> []
      /\ saves = [Saved vp (artifact_at vp results);
                  Saved fp (artifact_at fp failures)]).

(** The stages of [main]: the input is read once; a pool, if any, is
    given the records read, or those of them with a cached repository
    when both options are set, and a positive number of workers; what
    is written afterwards is what the pool answered. *)
Definition planned (args : arguments) (l : list stage) : Prop :=
  match l with
  | [] => True
  | Loaded tasks :: l' =>
      l' = []
      \/ exists rc completed saves,
           l' = Pooled (if truthy_opt (local_cache_dir args)
                           && skip_missing_repo args
                        then List.filter (in_cache rc) tasks else tasks)
                       (testbed args) rc (max_workers args) completed
                :: saves
           /\ Forall (fun t => has_required_keys t = true) tasks
           /\ (0 < max_workers args)%Z
           /\ saves_follow (instance_path args) completed saves
  | _ => False
  end.

(** * Properties *)

(** ** Strings *)

Section StringFacts.

Lemma chars_app (a b : string) :
  Str.chars (a ++ b)%string = Str.chars a ++ Str.chars b.
Proof.
  unfold Str.chars. induction a as [|c a IH]; simpl; [reflexivity | now rewrite IH].
Qed.

Lemma of_chars_app (l1 l2 : list ascii) :
  Str.of_chars (l1 ++ l2) = (Str.of_chars l1 ++ Str.of_chars l2)%string.
Proof.
  unfold Str.of_chars.
  induction l1 as [|c l1 IH]; simpl; [reflexivity | now rewrite IH].
Qed.

Lemma chars_of_chars (l : list ascii) : Str.chars (Str.of_chars l) = l.
Proof. apply list_ascii_of_string_of_list_ascii. Qed.

Lemma of_chars_chars (s : string) : Str.of_chars (Str.chars s) = s.
Proof. apply string_of_list_ascii_of_string. Qed.

Lemma chars_inj (a b : string) : Str.chars a = Str.chars b -> a = b.
Proof.
  intros H. rewrite <- (of_chars_chars a), <- (of_chars_chars b). now rewrite H.
Qed.

Lemma digit_not_space (c : ascii) :
  Str.is_digit c = true -> Str.is_space c = false.
Proof.
  destruct c as [b0 b1 b2 b3 b4 b5 b6 b7].
  destruct b0, b1, b2, b3, b4, b5, b6, b7; vm_compute; congruence.
Qed.

Lemma dot_not_digit : Str.is_digit Str.dot = false.
Proof. reflexivity. Qed.

(** What [lstrip] drops is white space. *)
Lemma lstrip_chars_spec (l : list ascii) :
  exists ws, l = ws ++ Str.lstrip_chars l /\ forallb Str.is_space ws = true.
Proof.
  induction l as [|c l [ws [E W]]]; simpl.
  - exists []. split; reflexivity.
  - destruct (Str.is_space c) eqn:Hc.
    + exists (c :: ws). simpl. rewrite Hc, W. split; [now rewrite <- E | reflexivity].
    + exists []. split; reflexivity.
Qed.

Lemma strip_chars_spec (l : list ascii) :
  exists ws1 ws2,
    l = ws1 ++ Str.strip_chars l ++ ws2
    /\ forallb Str.is_space ws1 = true /\ forallb Str.is_space ws2 = true.
Proof.
  unfold Str.strip_chars, Str.rstrip_chars.
  destruct (lstrip_chars_spec l) as [ws1 [E1 W1]].
  destruct (lstrip_chars_spec (rev (Str.lstrip_chars l))) as [ws2 [E2 W2]].
  exists ws1, (rev ws2). repeat split; trivial.
  - rewrite <- rev_app_distr, <- E2, rev_involutive. exact E1.
  - rewrite forallb_forall in *. intros x Hx. apply W2. now apply in_rev.
Qed.

(** A part that starts with a character that is not white space lies
    after the white space a text starts with. *)
Lemma skip_leading_space (ws l pre m post : list ascii) (c : ascii) :
  forallb Str.is_space ws = true ->
  Str.is_space c = false ->
  ws ++ l = pre ++ (c :: m) ++ post ->
  exists pre', l = pre' ++ (c :: m) ++ post.
Proof.
  revert pre. induction ws as [|w ws IH]; intros pre W C E.
  - exists pre. exact E.
  - simpl in W. apply andb_prop in W as [Hw W].
    destruct pre as [|p pre]; simpl in E.
    + injection E as -> _. congruence.
    + injection E as _ E. eapply IH; eauto.
Qed.

End StringFacts.

(** ** The matcher finds what the pattern describes *)

Section RegexFacts.

Import Re.

Lemma plus_loop_sound (r : regex) (one : list ascii -> list way) :
  (forall s m rest g, In (m, rest, g) (one s) -> s = m ++ rest /\ lang r m) ->
  forall fuel s m rest g,
    In (m, rest, g) (plus_loop one fuel s) -> s = m ++ rest /\ lang (Plus r) m.
Proof.
  intros Hone. induction fuel as [|fuel IH]; intros s m rest g Hin; simpl in Hin.
  - contradiction.
  - apply in_flat_map in Hin as [[[m1 s1] g1] [H1 Hin]].
    destruct (Hone _ _ _ _ H1) as [E1 L1].
    apply in_app_iff in Hin as [Hin | [Hin | []]].
    + destruct (length s1 <? length s)%nat eqn:Hlt; [|contradiction].
      apply in_map_iff in Hin as [[[m2 s2] g2] [E Hin]].
      simpl in E. injection E as <- <- <-.
      destruct (IH _ _ _ _ Hin) as [E2 L2]. subst s s1. split.
      * now rewrite <- app_assoc.
      * apply lang_plus_more; trivial.
        intros ->. apply Nat.ltb_lt in Hlt. simpl in Hlt. lia.
    + injection Hin as <- <- <-. split; [exact E1 | now apply lang_plus_one].
Qed.

Lemma run_sound (r : regex) :
  forall s m rest g, In (m, rest, g) (run r s) -> s = m ++ rest /\ lang r m.
Proof.
  induction r as [|a|r1 IH1 r2 IH2|r IH|r IH|n r IH]; intros s m rest g Hin;
    simpl in Hin.
  - destruct s as [|c s]; [contradiction|].
    destruct (Str.is_digit c) eqn:Hd; [|contradiction].
    destruct Hin as [E|[]]. injection E as <- <- <-.
    split; [reflexivity | now constructor].
  - destruct s as [|c s]; [contradiction|].
    destruct (Ascii.eqb c a) eqn:Hc; [|contradiction].
    apply Ascii.eqb_eq in Hc as ->.
    destruct Hin as [E|[]]. injection E as <- <- <-.
    split; [reflexivity | constructor].
  - apply in_flat_map in Hin as [[[m1 s1] g1] [H1 Hin]].
    apply in_map_iff in Hin as [[[m2 s2] g2] [E Hin]].
    simpl in E. injection E as <- <- <-.
    destruct (IH1 _ _ _ _ H1) as [-> L1]. destruct (IH2 _ _ _ _ Hin) as [-> L2].
    split; [now rewrite <- app_assoc | now constructor].
  - apply (plus_loop_sound r (run r) IH (S (length s)) s m rest g). exact Hin.
  - apply in_app_iff in Hin as [Hin | [Hin | []]].
    + destruct (IH _ _ _ _ Hin) as [-> L]. split; [reflexivity | now constructor].
    + injection Hin as <- <- <-. split; [reflexivity | apply lang_opt_none].
  - apply in_map_iff in Hin as [[[m' s'] g'] [E Hin]].
    injection E as <- <- <-.
    destruct (IH _ _ _ _ Hin) as [-> L]. split; [reflexivity | now constructor].
Qed.

Lemma plus_loop_groupless (one : list ascii -> list way) :
  (forall s m rest g, In (m, rest, g) (one s) -> g = []) ->
  forall fuel s m rest g, In (m, rest, g) (plus_loop one fuel s) -> g = [].
Proof.
  intros Hone. induction fuel as [|fuel IH]; intros s m rest g Hin; simpl in Hin.
  - contradiction.
  - apply in_flat_map in Hin as [[[m1 s1] g1] [H1 Hin]].
    pose proof (Hone _ _ _ _ H1) as ->.
    apply in_app_iff in Hin as [Hin | [Hin | []]].
    + destruct (length s1 <? length s)%nat; [|contradiction].
      apply in_map_iff in Hin as [[[m2 s2] g2] [E Hin]].
      simpl in E. injection E as <- <- <-.
      rewrite (IH _ _ _ _ Hin). reflexivity.
    + now injection Hin as <- <- <-.
Qed.

Lemma run_groupless (r : regex) :
  groupless r = true ->
  forall s m rest g, In (m, rest, g) (run r s) -> g = [].
Proof.
  induction r as [|a|r1 IH1 r2 IH2|r IH|r IH|n r IH]; intros G s m rest g Hin;
    simpl in Hin, G.
  - destruct s as [|c s]; [contradiction|].
    destruct (Str.is_digit c); [|contradiction].
    destruct Hin as [E|[]]. now injection E as <- <- <-.
  - destruct s as [|c s]; [contradiction|].
    destruct (Ascii.eqb c a); [|contradiction].
    destruct Hin as [E|[]]. now injection E as <- <- <-.
  - apply andb_prop in G as [G1 G2].
    apply in_flat_map in Hin as [[[m1 s1] g1] [H1 Hin]].
    apply in_map_iff in Hin as [[[m2 s2] g2] [E Hin]].
    simpl in E. injection E as <- <- <-.
    rewrite (IH1 G1 _ _ _ _ H1), (IH2 G2 _ _ _ _ Hin). reflexivity.
  - apply (plus_loop_groupless (run r) (IH G) (S (length s)) s m rest g).
    exact Hin.
  - apply in_app_iff in Hin as [Hin | [Hin | []]].
    + eapply IH; eauto.
    + now injection Hin as <- <- <-.
  - discriminate.
Qed.

(** Fuel beyond the length of the text changes nothing. *)
Lemma plus_loop_fuel (one : list ascii -> list way) :
  forall f1 f2 s,
    (length s < f1)%nat -> (length s < f2)%nat ->
    plus_loop one f1 s = plus_loop one f2 s.
Proof.
  induction f1 as [|f1 IH]; intros f2 s H1 H2; [lia|].
  destruct f2 as [|f2]; [lia|]. simpl.
  apply flat_map_ext. intros [[m1 s1] g1].
  destruct (length s1 <? length s)%nat eqn:Hlt; [|reflexivity].
  apply Nat.ltb_lt in Hlt. rewrite (IH f2 s1) by lia. reflexivity.
Qed.

Lemma run_complete (r : regex) (m : list ascii) :
  lang r m -> forall rest, exists g, In (m, rest, g) (run r (m ++ rest)).
Proof.
  induction 1 as [c Hc|c|r1 r2 m1 m2 _ IH1 _ IH2|r m _ IH
                 |r m1 m2 _ IH1 Hne _ IH2|r m _ IH|r|n r m _ IH]; intros rest.
  - exists []. simpl. rewrite Hc. now left.
  - exists []. simpl. rewrite Ascii.eqb_refl. now left.
  - destruct (IH1 (m2 ++ rest)) as [g1 H1]. destruct (IH2 rest) as [g2 H2].
    exists (g2 ++ g1). simpl. rewrite <- app_assoc.
    apply in_flat_map. exists (m1, m2 ++ rest, g1). split; [exact H1|].
    apply in_map_iff. exists (m2, rest, g2). split; [reflexivity | exact H2].
  - destruct (IH rest) as [g Hg]. exists g. simpl.
    apply in_flat_map. exists (m, rest, g). split; [exact Hg|].
    apply in_app_iff. right. now left.
  - destruct (IH1 (m2 ++ rest)) as [g1 H1]. destruct (IH2 rest) as [g2 H2].
    exists (g2 ++ g1). simpl in H2 |- *. rewrite <- app_assoc.
    apply in_flat_map. exists (m1, m2 ++ rest, g1). split; [exact H1|].
    apply in_app_iff. left.
    assert (Hlt : (length (m2 ++ rest) < length (m1 ++ m2 ++ rest))%nat).
    { destruct m1; [congruence|]. rewrite !length_app. simpl. lia. }
    apply Nat.ltb_lt in Hlt as Hlt'. rewrite Hlt'.
    apply in_map_iff. exists (m2, rest, g2). split; [reflexivity|].
    rewrite (plus_loop_fuel _ _ (S (length (m2 ++ rest)))); [exact H2 | lia | lia].
  - destruct (IH rest) as [g Hg]. exists g. simpl. apply in_app_iff. now left.
  - exists []. simpl. apply in_app_iff. right. now left.
  - destruct (IH rest) as [g Hg]. exists ((n, m) :: g). simpl.
    apply in_map_iff. exists (m, rest, g). split; [reflexivity | exact Hg].
Qed.

Lemma search_from_some (r : regex) :
  forall s pos mo,
    search_from r pos s = Some mo ->
    exists pre rest,
      s = pre ++ mo_text mo ++ rest
      /\ In (mo_text mo, rest, mo_groups mo) (run r (mo_text mo ++ rest)).
Proof.
  induction s as [|c s IH]; intros pos mo H; simpl in H.
  - destruct (run r []) as [|[[m rest] g] ws] eqn:R; [discriminate|].
    injection H as <-. simpl.
    assert (Hin : In (m, rest, g) (run r [])) by (rewrite R; now left).
    destruct (run_sound _ _ _ _ _ Hin) as [E _].
    exists [], rest. split; [exact E|]. now rewrite <- E.
  - destruct (run r (c :: s)) as [|[[m rest] g] ws] eqn:R.
    + destruct (IH _ _ H) as [pre [rest [E Hin]]].
      exists (c :: pre), rest. split; [simpl; now rewrite <- E | exact Hin].
    + injection H as <-. simpl.
      assert (Hin : In (m, rest, g) (run r (c :: s))) by (rewrite R; now left).
      destruct (run_sound _ _ _ _ _ Hin) as [E _].
      exists [], rest. split; [exact E|]. now rewrite <- E.
Qed.

Lemma search_from_none (r : regex) :
  forall s pos,
    search_from r pos s = None ->
    forall pre m post, s = pre ++ m ++ post -> ~ lang r m.
Proof.
  induction s as [|c s IH]; intros pos H pre m post E L; simpl in H.
  - destruct pre; [|discriminate]. simpl in E.
    destruct (run_complete _ _ L post) as [g Hin]. rewrite <- E in Hin.
    destruct (run r []) as [|[[? ?] ?] ?]; [contradiction | discriminate].
  - destruct (run r (c :: s)) as [|[[m0 rest0] g0] ws] eqn:R;
      [|discriminate].
    destruct pre as [|p pre]; simpl in E.
    + destruct (run_complete _ _ L post) as [g Hin]. rewrite <- E, R in Hin.
      contradiction.
    + injection E as _ E. eapply IH; eauto.
Qed.

Lemma search_from_found (r : regex) (s pre m post : list ascii) (pos : nat) :
  s = pre ++ m ++ post -> lang r m -> search_from r pos s <> None.
Proof. intros E L H. eapply search_from_none; eauto. Qed.

Lemma lang_plus_digit (m : list ascii) :
  lang (Plus Digit) m -> m <> [] /\ forallb Str.is_digit m = true.
Proof.
  remember (Plus Digit) as r eqn:Er. induction 1; try discriminate.
  - injection Er as ->. inversion H as [c Hc| | | | | | |]; subst.
    simpl. rewrite Hc. split; [discriminate | reflexivity].
  - injection Er as ->. inversion H as [c Hc| | | | | | |]; subst.
    destruct (IHlang2 eq_refl) as [_ F].
    simpl. rewrite Hc, F. split; [discriminate | reflexivity].
Qed.

Lemma lang_major_minor (m : list ascii) :
  lang major_minor m ->
  exists a b, m = a ++ [Str.dot] ++ b
              /\ (a <> [] /\ forallb Str.is_digit a = true)
              /\ (b <> [] /\ forallb Str.is_digit b = true).
Proof.
  intros H. inversion H as [| |r1 r2 a m2 La L2| | | | |]; subst.
  inversion L2 as [| |r1 r2 d b Ld Lb| | | | |]; subst.
  inversion Ld; subst.
  exists a, b. split; [reflexivity|].
  split; now apply lang_plus_digit.
Qed.

(** The first way to match the pattern captures group 1, a text of the
    form digits, dot, digits. *)
Lemma run_version_pattern (s m rest : list ascii) (g : list (nat * list ascii)) :
  In (m, rest, g) (run version_pattern s) ->
  exists m1, g = [(1%nat, m1)] /\ lang major_minor m1.
Proof.
  intros Hin. unfold version_pattern in Hin. simpl run in Hin.
  apply in_flat_map in Hin as [[[m1 s1] g1] [H1 Hin]].
  apply in_map_iff in Hin as [[[m2 s2] g2] [E Hin]].
  simpl in E. injection E as <- <- <-.
  apply in_map_iff in H1 as [[[m1' s1'] g1'] [E H1]].
  injection E as <- <- <-.
  change (In (m1', s1', g1') (run major_minor s)) in H1.
  pose proof (run_groupless major_minor eq_refl _ _ _ _ H1) as ->.
  change (In (m2, s2, g2) (run (Opt (Seq (Chr Str.dot) (Plus Digit))) s1')) in Hin.
  pose proof (run_groupless (Opt (Seq (Chr Str.dot) (Plus Digit))) eq_refl
                _ _ _ _ Hin) as ->.
  exists m1'. split; [reflexivity|]. now destruct (run_sound _ _ _ _ _ H1).
Qed.

End RegexFacts.

(** ** The version of a describe output *)

Section VersionFacts.

Import Re.

Lemma all_digits_of_chars (l : list ascii) :
  l <> [] -> forallb Str.is_digit l = true -> all_digits (Str.of_chars l).
Proof.
  intros Hne Hd. split.
  - intros E. apply (f_equal Str.chars) in E. rewrite chars_of_chars in E.
    now apply Hne.
  - now rewrite chars_of_chars.
Qed.

Lemma extract_version_returned (version : string) (j : json) :
  extract_version version = Returned j ->
  exists v, j = JStr v /\ is_major_minor v.
Proof.
  unfold extract_version, search. intros H.
  destruct (search_from version_pattern 0 (Str.chars version)) as [mo|] eqn:Hs;
    [|discriminate].
  destruct (search_from_some _ _ _ _ Hs) as [pre [rest [_ Hin]]].
  destruct (run_version_pattern _ _ _ _ Hin) as [m1 [Hg L]].
  unfold group in H. rewrite Hg in H. simpl in H. injection H as <-.
  exists (Str.of_chars m1). split; [reflexivity|].
  destruct (lang_major_minor _ L) as [a [b [-> [[Ha Da] [Hb Db]]]]].
  exists (Str.of_chars a), (Str.of_chars b). split.
  - now rewrite !of_chars_app.
  - split; now apply all_digits_of_chars.
Qed.

Lemma extract_version_cases (version : string) :
  (exists v, extract_version version = Returned (JStr v))
  \/ extract_version version = Raised (UnrecognizedVersionError version).
Proof.
  destruct (extract_version version) as [j|e] eqn:H.
  - left. destruct (extract_version_returned _ _ H) as [v [-> _]]. now exists v.
  - right. unfold extract_version in H.
    destruct (search version_pattern version) as [mo|].
    + destruct (group 1 mo); discriminate.
    + now injection H as <-.
Qed.

(** The exception of line 50 is raised exactly when no part of the text
    is in the language of the pattern. *)
Lemma extract_version_raised (version : string) :
  extract_version version = Raised (UnrecognizedVersionError version) <->
  ~ (exists pre m post, Str.chars version = pre ++ m ++ post
                        /\ lang version_pattern m).
Proof.
  unfold extract_version, search. split.
  - intros H [pre [m [post [E L]]]].
    destruct (search_from version_pattern 0 (Str.chars version)) as [mo|] eqn:Hs.
    + destruct (group 1 mo); discriminate.
    + eapply search_from_none; eauto.
  - intros Hno.
    destruct (search_from version_pattern 0 (Str.chars version)) as [mo|] eqn:Hs;
      [|reflexivity].
    exfalso. apply Hno.
    destruct (search_from_some _ _ _ _ Hs) as [pre [rest [E Hin]]].
    exists pre, (mo_text mo), rest. split; [exact E|].
    now destruct (run_sound _ _ _ _ _ Hin).
Qed.

Lemma digits_head (l : list ascii) :
  l <> [] -> forallb Str.is_digit l = true ->
  exists c l', l = c :: l' /\ Str.is_space c = false.
Proof.
  destruct l as [|c l]; [congruence|]. simpl. intros _ H.
  apply andb_prop in H as [H _]. exists c, l. split; [reflexivity|].
  now apply digit_not_space.
Qed.

Lemma digits_last (l : list ascii) :
  l <> [] -> forallb Str.is_digit l = true ->
  exists c l', rev l = c :: l' /\ Str.is_space c = false.
Proof.
  intros Hne H. destruct (rev l) as [|c l'] eqn:E.
  - exfalso. apply Hne. rewrite <- (rev_involutive l), E. reflexivity.
  - exists c, l'. split; [reflexivity|]. apply digit_not_space.
    rewrite forallb_forall in H. apply H. apply in_rev. rewrite E. now left.
Qed.

(** A text in the language of the pattern starts and ends with a digit. *)
Lemma version_pattern_edges (m : list ascii) :
  lang version_pattern m ->
  (exists c m', m = c :: m' /\ Str.is_space c = false)
  /\ (exists c m', rev m = c :: m' /\ Str.is_space c = false).
Proof.
  intros H. inversion H as [| |r1 r2 m1 o L1 Lo| | | | |]; subst.
  inversion L1 as [| | | | | | |n r m1' L1']; subst.
  destruct (lang_major_minor _ L1') as [a [b [-> [[Ha Da] [Hb Db]]]]].
  split.
  - destruct (digits_head a Ha Da) as [c [a' [-> Hc]]].
    exists c. eexists. split; [reflexivity | exact Hc].
  - inversion Lo as [| | | | |r m2 L2|r|]; subst.
    + inversion L2 as [| |r1 r2 d p Ld Lp| | | | |]; subst.
      destruct (lang_plus_digit _ Lp) as [Hp Dp].
      destruct (digits_last p Hp Dp) as [c [p' [E Hc]]].
      exists c. rewrite !rev_app_distr, E. eexists. split; [reflexivity | exact Hc].
    + destruct (digits_last b Hb Db) as [c [b' [E Hc]]].
      exists c. rewrite app_nil_r, !rev_app_distr, E.
      eexists. split; [reflexivity | exact Hc].
Qed.

(** Stripping white space neither adds nor removes a version. *)
Lemma describe_matches_strip (out : string) :
  describe_matches (Str.strip out) <-> describe_matches out.
Proof.
  unfold describe_matches, Str.strip. rewrite chars_of_chars.
  destruct (strip_chars_spec (Str.chars out)) as [ws1 [ws2 [E [W1 W2]]]].
  remember (Str.strip_chars (Str.chars out)) as core eqn:Hcore. clear Hcore.
  split; intros [pre [m [post [Em L]]]].
  - exists (ws1 ++ pre), m, (post ++ ws2). split; [|exact L].
    rewrite E, Em. now rewrite <- !app_assoc.
  - destruct (version_pattern_edges _ L) as [[c [m' [Hm Hc]]] [c' [m'' [Hr Hc']]]].
    rewrite Em in E.
    assert (E1 : exists pre', core ++ ws2 = pre' ++ m ++ post).
    { rewrite Hm. rewrite Hm in E.
      apply (skip_leading_space ws1 _ pre m' post c W1 Hc). now symmetry. }
    destruct E1 as [pre' E1].
    assert (E2 : exists post', rev core = post' ++ rev m ++ rev pre').
    { rewrite Hr.
      apply (skip_leading_space (rev ws2) _ (rev post) m'' (rev pre') c').
      - rewrite forallb_forall in *. intros x Hx. apply W2. now apply in_rev.
      - exact Hc'.
      - change (c' :: m'' ++ rev pre') with ((c' :: m'') ++ rev pre').
        rewrite <- Hr, <- !rev_app_distr, <- app_assoc. now rewrite E1. }
    destruct E2 as [post' E2].
    exists pre', m, (rev post'). split; [|exact L].
    rewrite <- (rev_involutive core), E2.
    now rewrite !rev_app_distr, !rev_involutive, <- app_assoc.
Qed.

End VersionFacts.

(** ** Programs and their runs *)

Section ProgramFacts.

Lemma wp_run {A : Type} (p : prog A) :
  forall (Q : outcome A -> list step -> Prop), wp p Q ->
  forall (S : Type) (h : handler S) (s : S),
    Q (result_of (run h p s)) (trace_of (run h p s)).
Proof.
  induction p as [a|e|X ev k IH]; intros Q H S h s; simpl in *; trivial.
  destruct (h X ev s) as [x s1].
  specialize (IH x _ (H x) S h s1).
  destruct (run h (k x) s1) as [[o s2] tr]. exact IH.
Qed.

Lemma wp_mono {A : Type} (p : prog A) :
  forall (Q1 Q2 : outcome A -> list step -> Prop),
    (forall o tr, Q1 o tr -> Q2 o tr) -> wp p Q1 -> wp p Q2.
Proof.
  induction p as [a|e|X ev k IH]; intros Q1 Q2 HQ H; simpl in *; auto.
  intros x. apply (IH x _ _ (fun o tr => HQ o (Ev ev x :: tr)) (H x)).
Qed.

Lemma run_bind {S A B : Type} (h : handler S) (p : prog A) (k : A -> prog B) :
  forall s,
    run h (bind p k) s =
      let '(o, s1, tr1) := run h p s in
      match o with
      | Returned a =>
          let '(o2, s2, tr2) := run h (k a) s1 in (o2, s2, tr1 ++ tr2)
      | Raised e => (Raised e, s1, tr1)
      end.
Proof.
  induction p as [a|e|X ev k' IH]; intros s; simpl.
  - now destruct (run h (k a) s) as [[o2 s2] tr2].
  - reflexivity.
  - destruct (h X ev s) as [x s1]. rewrite IH.
    destruct (run h (k' x) s1) as [[[a|e] s2] tr]; [|reflexivity].
    now destruct (run h (k a) s2) as [[o2 s3] tr2].
Qed.

(** The state a run ends in is the one its trace leads to. *)
Lemma run_replay {S A : Type} (h : handler S) (p : prog A) :
  forall s, state_of (run h p s) = replay h (trace_of (run h p s)) s.
Proof.
  induction p as [a|e|X ev k IH]; intros s; simpl; trivial.
  destruct (h X ev s) as [x s1] eqn:Hx. specialize (IH x s1).
  destruct (run h (k x) s1) as [[o s2] tr]. simpl in *. now rewrite Hx.
Qed.

Lemma replay_app {S : Type} (h : handler S) (tr1 tr2 : list step) :
  forall s, replay h (tr1 ++ tr2) s = replay h tr2 (replay h tr1 s).
Proof.
  induction tr1 as [|[X ev x] tr1 IH]; intros s; simpl; [reflexivity | apply IH].
Qed.

End ProgramFacts.

(** Symbolic execution: every answer of the environment is considered. *)
Ltac unfold_progs :=
  unfold trigger, call, lift, cd, run_command, getitem, os_path_join, cache_get,
    cache_entry_missing, git_checkout, get_version_by_git, extract_staged,
    process_repo_task.
Ltac exec1 :=
  lazymatch goal with
  | |- wp (Vis ?ev ?k) ?Q =>
      change (forall x, wp (k x) (fun o tr => Q o (Ev ev x :: tr)));
      lazymatch goal with
      | |- forall _ : bool, _ => intros []
      | |- forall _ : unit, _ => intros []
      | |- forall _ : outcome _, _ => intros [?|?]
      | |- forall _, _ => intro
      end;
      cbv beta
  | |- wp (Ret _) _ => fail
  | |- wp (Raise _) _ => fail
  | |- wp ?p _ =>
      first [ progress (unfold_progs;
                        cbn [bind try_except try_finally truthy_opt default negb])
            | match p with
              | context [match ?x with _ => _ end] => destruct x eqn:?
              | context [if ?x then _ else _] => destruct x eqn:?
              end ]
  end.
Ltac exec := repeat exec1; cbn [wp]; cbv beta.

(** ** The worker *)

Section WorkerFacts.

#[local] Arguments extract_version : simpl never.
#[local] Arguments Str.strip : simpl never.
#[local] Arguments Dict.set : simpl never.
#[local] Arguments Path.join2 : simpl never.

Lemma worker_success_wp (task : dict) (testbed : string)
    (repo_cache : gmap string string) :
  wp (process_repo_task task testbed repo_cache)
     (fun o tr =>
        forall record, o = Returned (Some record) ->
        exists out version,
          describe_outputs tr = [out]
          /\ extract_version (Str.strip out) = Returned version
          /\ record = Dict.set task "version" version).
Proof.
  exec; intros record Hrecord; try discriminate.
  all: injection Hrecord as <-.
  all: eexists; eexists; (split; [|split]);
    [simpl; reflexivity | eassumption | reflexivity].
Qed.

(** Once [git describe] has answered, the unit returns, and it returns
    a record only if the answer holds a version. *)
Lemma worker_describe_wp (task : dict) (testbed : string)
    (repo_cache : gmap string string) :
  wp (process_repo_task task testbed repo_cache)
     (fun o tr =>
        forall out, In out (describe_outputs tr) ->
        o = Returned None
        \/ exists version,
             extract_version (Str.strip out) = Returned version
             /\ o = Returned (Some (Dict.set task "version" version))).
Proof.
  exec; intros out Hout; simpl in Hout; try contradiction.
  all: destruct Hout as [<-|[]].
  all: first [ now left | right; eexists; split; [eassumption | reflexivity] ].
Qed.

(** What the unit calls, for a record with a [str] as [instance_id]. *)
Lemma worker_steps_wp (task : dict) (testbed : string)
    (repo_cache : gmap string string) :
  wp (process_repo_task task testbed repo_cache)
     (fun o tr =>
        forall id, Dict.get task "instance_id" = Some (JStr id) ->
        staged (Path.join2 testbed id) (cache_entry task repo_cache)
               (commit_of task) None None false tr = true).
Proof.
  unfold cache_entry, commit_of.
  exec; intros id Hid; try discriminate; try reflexivity.
  all: injection Hid as <-.
  all: repeat match goal with
              | H : _ = _ |- _ => rewrite H
              end.
  all: try match goal with
           | H : truthy_opt ?o = true |- _ => destruct o as [?|]; [|discriminate H]
           end.
  all: cbn [staged is_path option_map default from_option id negb andb orb
            staging_command in_place_command same_command git_safe_directory
            git_describe].
  all: rewrite ?String.eqb_refl, ?orb_true_r; cbn [andb orb negb];
    try reflexivity.
Qed.

(** A unit that got as far as naming its staging directory returns, and
    the last thing it does is to remove that directory. *)
Lemma worker_cleanup_wp (task : dict) (testbed : string)
    (repo_cache : gmap string string) :
  wp (process_repo_task task testbed repo_cache)
     (fun o tr =>
        forall id repo base_commit,
          Dict.get task "instance_id" = Some (JStr id) ->
          Dict.get task "repo" = Some repo ->
          Dict.get task "base_commit" = Some base_commit ->
          (exists result, o = Returned result)
          /\ exists tr', tr = tr' ++ [Ev (Rmtree (Path.join2 testbed id)) tt]).
Proof.
  exec; intros id repo base_commit Hid Hrepo Hbase; try discriminate.
  all: injection Hid as <-.
  all: split; [eexists; reflexivity|].
  all: match goal with
       | |- exists tr', ?l = _ => exists (removelast l); reflexivity
       end.
Qed.

End WorkerFacts.

(** ** The pool *)

Section PoolFacts.

Lemma get_set_other (d : dict) (k k' : string) (v : json) :
  String.eqb k k' = false -> Dict.get (Dict.set d k v) k' = Dict.get d k'.
Proof.
  intros Hne. induction d as [|[k0 v0] d IH]; simpl.
  - now rewrite Hne.
  - destruct (String.eqb k0 k) eqn:E0; simpl.
    + apply String.eqb_eq in E0 as ->. now rewrite Hne.
    + destruct (String.eqb k0 k'); [reflexivity | exact IH].
Qed.

Lemma id_fields_set_version (t : dict) (v : json) :
  id_fields (Dict.set t "version" v) = id_fields t.
Proof. unfold id_fields. now rewrite !get_set_other. Qed.

Lemma success_of_truthy (task : dict) (result : option dict) :
  success_of (task, Returned result)
  = if truthy_result result then Some (default [] result) else None.
Proof. now destruct result as [[|x r]|]. Qed.

(** The loop adds each completed future to one of the two lists,
    according to its own answer, and stops only for a record without
    [instance_id] whose future raised. *)
Lemma collect_wp (completed : list (dict * outcome (option dict))) :
  forall results failures,
    wp (collect completed results failures)
       (fun o tr =>
          pool_answers tr = []
          /\ match o with
             | Returned (rs, fs) =>
                 rs = results ++ omap success_of completed
                 /\ fs = failures ++ map fst (List.filter failed completed)
             | Raised _ =>
                 exists t, In t (map fst completed)
                           /\ Dict.get t "instance_id" = None
             end).
Proof.
  induction completed as [|[task future] completed IH]; intros results failures.
  - simpl. now rewrite !app_nil_r.
  - cbn [collect]. destruct future as [result|e].
    + pose proof (success_of_truthy task result) as Hs.
      destruct (truthy_result result) eqn:T.
      * eapply wp_mono; [|apply IH]. intros [[rs fs]|e] tr [Hp H]; split; trivial.
        -- destruct H as [-> ->]. unfold failed. simpl. rewrite Hs.
           now rewrite <- app_assoc.
        -- destruct H as [t [Hin Ht]]. exists t. split; [now right | exact Ht].
      * eapply wp_mono; [|apply IH]. intros [[rs fs]|e] tr [Hp H]; split; trivial.
        -- destruct H as [-> ->]. unfold failed. simpl. rewrite Hs.
           now rewrite <- app_assoc.
        -- destruct H as [t [Hin Ht]]. exists t. split; [now right | exact Ht].
    + unfold getitem, trigger. destruct (Dict.get task "instance_id") eqn:G.
      * cbn [bind wp]. intros [].
        eapply wp_mono; [|apply IH]. intros [[rs fs]|e'] tr [Hp H]; split; trivial.
        -- destruct H as [-> ->]. unfold failed. simpl.
           now rewrite <- app_assoc.
        -- destruct H as [t [Hin Ht]]. exists t. split; [now right | exact Ht].
      * cbn [bind wp]. split; [reflexivity|].
        exists task. split; [now left | exact G].
Qed.

Lemma process_repos_wp (tasks : list dict) (testbed : string)
    (repo_cache : gmap string string) (max_workers : Z) :
  wp (process_repos tasks testbed repo_cache max_workers)
     (fun o tr =>
        forall completed, pool_answers tr = [completed] ->
        match o with
        | Returned (rs, fs) =>
            rs = omap success_of completed
            /\ fs = map fst (List.filter failed completed)
        | Raised _ =>
            exists t, In t (map fst completed)
                      /\ Dict.get t "instance_id" = None
        end).
Proof.
  unfold process_repos, call, trigger. cbn [bind wp].
  intros [[]|e]; cbn [bind wp].
  - destruct (max_workers <=? 0)%Z; cbn [bind wp].
    + intros completed H. discriminate.
    + intros [[]|e]; cbn [bind wp]; [|intros completed H; discriminate].
      intros answer. eapply wp_mono; [|apply collect_wp].
      intros o tr [Hp H] completed Hc. simpl in Hc. rewrite Hp in Hc.
      injection Hc as <-. exact H.
  - intros completed H. discriminate.
Qed.

(** The two lists split the completed futures. *)
Lemma partition_by_failed (completed : list (dict * outcome (option dict))) :
  Permutation
    (map fst (List.filter (fun c => negb (failed c)) completed)
     ++ map fst (List.filter failed completed))
    (map fst completed).
Proof.
  induction completed as [|c completed IH]; simpl; [constructor|].
  destruct (failed c); simpl.
  - apply Permutation_sym, Permutation_cons_app, Permutation_sym, IH.
  - now constructor.
Qed.

End PoolFacts.

(** ** Claims about the worker and the pool *)

Section Results.

Import Scenario.

Lemma worker_success {S : Type} (h : handler S) (s : S) (task : dict)
    (testbed : string) (repo_cache : gmap string string) (record : dict) :
  result_of (run h (process_repo_task task testbed repo_cache) s)
  = Returned (Some record) ->
  exists out v,
    describe_outputs (trace_of (run h (process_repo_task task testbed repo_cache) s))
    = [out]
    /\ extract_version (Str.strip out) = Returned (JStr v)
    /\ is_major_minor v
    /\ record = Dict.set task "version" (JStr v).
Proof.
  intros H.
  destruct (wp_run _ _ (worker_success_wp task testbed repo_cache) S h s record H)
    as [out [version [Ho [Hv ->]]]].
  destruct (extract_version_returned _ _ Hv) as [v [-> Hmm]].
  now exists out, v.
Qed.

(** C1.  A record the unit returns is the task with [version] set to a
    text of the form digits, dot, digits, taken from what [git describe]
    printed; when that is [v2.3.1], the version is [2.3]. *)
Theorem success_record_extends_task {S : Type} (h : handler S) (s : S)
    (task : dict) (testbed : string) (repo_cache : gmap string string)
    (record : dict) :
  result_of (run h (process_repo_task task testbed repo_cache) s)
  = Returned (Some record) ->
  exists out v,
    describe_outputs (trace_of (run h (process_repo_task task testbed repo_cache) s))
    = [out]
    /\ extract_version (Str.strip out) = Returned (JStr v)
    /\ is_major_minor v
    /\ record = Dict.set task "version" (JStr v)
    /\ (Str.strip out = "v2.3.1" -> v = "2.3").
Proof.
  intros H. destruct (worker_success h s _ _ _ _ H) as [out [v [Ho [Hv [Hmm Hr]]]]].
  exists out, v. repeat split; trivial.
  intros E. rewrite E in Hv. vm_compute in Hv. now injection Hv as <-.
Qed.

Lemma success_record_extends_task_witness :
  result_of (run Machine.os_handler (process_repo_task task "/tb" repo_cache) machine0)
  = Returned (Some (task ++ [("version", JStr "2.3")]))
  /\ exists out v,
      describe_outputs
        (trace_of (run Machine.os_handler (process_repo_task task "/tb" repo_cache)
                       machine0)) = [out]
      /\ extract_version (Str.strip out) = Returned (JStr v)
      /\ is_major_minor v
      /\ task ++ [("version", JStr "2.3")] = Dict.set task "version" (JStr v)
      /\ (Str.strip out = "v2.3.1" -> v = "2.3").
Proof.
  split; [vm_compute; reflexivity|].
  apply (success_record_extends_task Machine.os_handler machine0 task "/tb"
           repo_cache).
  vm_compute. reflexivity.
Defined.


Lemma get_version_wp (cloned_dir : string) :
  wp (get_version_by_git cloned_dir)
     (fun o tr =>
        forall out, In out (describe_outputs tr) ->
        o = extract_version (Str.strip out)
        \/ exists e, In e (chdir_errors tr) /\ o = Raised e).
Proof.
  exec; intros out Hout; simpl in Hout; try contradiction.
  all: destruct Hout as [<-|[]].
  all: first [ left; congruence
             | right; eexists; split; [simpl; left; reflexivity | reflexivity] ].
Qed.

Lemma returned_describe_matches (version : string) (j : json) :
  extract_version version = Returned j -> describe_matches version.
Proof.
  unfold extract_version, Re.search. intros H.
  destruct (Re.search_from Re.version_pattern 0 (Str.chars version))
    as [mo|] eqn:Hs; [|discriminate].
  destruct (search_from_some _ _ _ _ Hs) as [pre [rest [E Hin]]].
  exists pre, (Re.mo_text mo), rest. split; [exact E|].
  now destruct (run_sound _ _ _ _ _ Hin).
Qed.

Lemma not_describe_matches (out : string) :
  ~ describe_matches out ->
  forall version, extract_version (Str.strip out) <> Returned version.
Proof.
  intros Hno version Hv. apply Hno. apply describe_matches_strip.
  now apply returned_describe_matches in Hv.
Qed.

(** C3.  Line 50 raises exactly when no part of what [git describe]
    printed is of the form <major>.<minor>[.<patch>]; that is how
    [get_version_by_git] then ends unless restoring the directory fails
    as well; the unit of such a task returns [None], and the loop over
    the pool adds the task to the failures.  The text
    [weird-tag-no-version] is such an output. *)
Theorem unrecognized_version_is_a_failure :
  (forall out,
     extract_version (Str.strip out)
     = Raised (UnrecognizedVersionError (Str.strip out))
     <-> ~ describe_matches out)
  /\ (forall (S : Type) (h : handler S) (s : S) (cloned_dir out : string),
        In out (describe_outputs (trace_of (run h (get_version_by_git cloned_dir) s))) ->
        result_of (run h (get_version_by_git cloned_dir) s)
        = extract_version (Str.strip out)
        \/ exists e,
             In e (chdir_errors (trace_of (run h (get_version_by_git cloned_dir) s)))
             /\ result_of (run h (get_version_by_git cloned_dir) s) = Raised e)
  /\ (forall (S : Type) (h : handler S) (s : S) (task : dict) (testbed : string)
             (repo_cache : gmap string string) (out : string),
        In out (describe_outputs
                  (trace_of (run h (process_repo_task task testbed repo_cache) s))) ->
        ~ describe_matches out ->
        result_of (run h (process_repo_task task testbed repo_cache) s)
        = Returned None)
  /\ (forall (S : Type) (h : handler S) (s : S)
             (completed : list (dict * outcome (option dict)))
             (results failures : list dict) (t : dict),
        result_of (run h (collect completed [] []) s) = Returned (results, failures) ->
        In (t, Returned None) completed -> In t failures)
  /\ ~ describe_matches "weird-tag-no-version".
Proof.
  split; [|split; [|split; [|split]]].
  - intros out. rewrite <- describe_matches_strip. apply extract_version_raised.
  - intros S h s cloned_dir out.
    apply (wp_run _ _ (get_version_wp cloned_dir) S h s).
  - intros S h s task testbed repo_cache out Hout Hno.
    destruct (wp_run _ _ (worker_describe_wp task testbed repo_cache) S h s out Hout)
      as [H|[version [Hv _]]]; [exact H|].
    now apply not_describe_matches in Hv.
  - intros S h s completed results failures t H Hin.
    pose proof (wp_run _ _ (collect_wp completed [] []) S h s) as [_ Hc].
    rewrite H in Hc. destruct Hc as [_ ->]. simpl.
    apply in_map_iff. exists (t, Returned None). split; [reflexivity|].
    apply filter_In. split; [exact Hin | reflexivity].
  - intros Hm. apply describe_matches_strip in Hm.
    apply (proj1 (extract_version_raised _)) in Hm; [exact Hm|].
    vm_compute. reflexivity.
Qed.

Lemma unrecognized_version_is_a_failure_witness :
  In ("weird-tag-no-version" ++ Machine.newline)%string
     (describe_outputs
        (trace_of (run Machine.os_handler
                       (process_repo_task odd_task "/tb" repo_cache) machine0)))
  /\ result_of (run Machine.os_handler
                    (process_repo_task odd_task "/tb" repo_cache) machine0)
     = Returned None.
Proof.
  assert (H : In ("weird-tag-no-version" ++ Machine.newline)%string
     (describe_outputs
        (trace_of (run Machine.os_handler
                       (process_repo_task odd_task "/tb" repo_cache) machine0))))
    by (vm_compute; left; reflexivity).
  split; [exact H|].
  destruct unrecognized_version_is_a_failure as [Hraise [_ [Hunit [_ Hweird]]]].
  apply (Hunit _ _ _ _ _ _ _ H).
  apply Hraise. vm_compute. reflexivity.
Defined.


Lemma omap_success_length (completed : list (dict * outcome (option dict))) :
  (length (omap success_of completed)
   + length (map fst (List.filter failed completed)))%nat
  = length completed.
Proof.
  induction completed as [|c completed IH]; simpl; [reflexivity|].
  unfold failed at 1. change (list_omap _ _ success_of completed)
    with (omap success_of completed).
  destruct (success_of c); simpl; lia.
Qed.

Lemma in_omap_success (completed : list (dict * outcome (option dict)))
    (c : dict * outcome (option dict)) (r : dict) :
  In c completed -> success_of c = Some r -> In r (omap success_of completed).
Proof.
  intros Hin Hs. apply list_elem_of_In, list_elem_of_omap.
  exists c. split; [now apply list_elem_of_In | exact Hs].
Qed.

Lemma collect_submits_nothing (completed : list (dict * outcome (option dict))) :
  forall results failures,
    wp (collect completed results failures) (fun _ tr => submit_errors tr = []).
Proof.
  induction completed as [|[t [result|e]] completed IH]; intros results failures;
    cbn [collect].
  - reflexivity.
  - destruct (truthy_result result); apply IH.
  - unfold getitem, trigger. destruct (Dict.get t "instance_id");
      cbn [bind wp]; [|reflexivity].
    intros []. apply IH.
Qed.

(** What [executor.submit] raises leaves [process_repos]: no future is
    waited for. *)
Lemma process_repos_submit_wp (tasks : list dict) (testbed : string)
    (repo_cache : gmap string string) (max_workers : Z) :
  wp (process_repos tasks testbed repo_cache max_workers)
     (fun o tr =>
        forall e, submit_errors tr = [e] ->
                  o = Raised e /\ pool_answers tr = []).
Proof.
  unfold process_repos, call, trigger. cbn [bind wp].
  intros [[]|e]; cbn [bind wp]; [|intros e' H; discriminate].
  destruct (max_workers <=? 0)%Z; cbn [bind wp]; [intros e' H; discriminate|].
  intros [[]|e]; cbn [bind wp].
  - intros completed. eapply wp_mono; [|apply collect_submits_nothing].
    cbv beta. intros o tr Htr e H.
    change (submit_errors tr = [e]) in H. rewrite Htr in H. discriminate.
  - intros e' [= <-]. split; reflexivity.
Qed.

Lemma process_repos_submits_once (tasks : list dict) (testbed : string)
    (repo_cache : gmap string string) (max_workers : Z) :
  wp (process_repos tasks testbed repo_cache max_workers)
     (fun _ tr => submit_errors tr = [] \/ exists e, submit_errors tr = [e]).
Proof.
  unfold process_repos, call, trigger. cbn [bind wp].
  intros [[]|e]; cbn [bind wp]; [|now left].
  destruct (max_workers <=? 0)%Z; cbn [bind wp]; [now left|].
  intros [[]|e]; cbn [bind wp].
  - intros completed. eapply wp_mono; [|apply collect_submits_nothing].
    cbv beta. intros o tr Htr. left. exact Htr.
  - right. now exists e.
Qed.

(** C4, as stated, fails for a worker that crashes.  Alone, the unit
    of [task] returns a record, and in a healthy pool that record is a
    success whatever becomes of [odd_task].  When the process that
    gets [odd_task] is killed, the executor fails every pending future
    and [task] is a failure too; when a process is killed while the
    tasks are still being submitted, [process_repos] itself raises. *)
Lemma dead_worker_fails_its_siblings :
  let unit := process_repo_task task "/tb" repo_cache in
  let pool := process_repos [odd_task; task] "/tb" repo_cache 4 in
  result_of (run Machine.os_handler unit machine0)
  = Returned (Some (task ++ [("version", JStr "2.3")]))
  /\ result_of (run (Machine.fated_pool_handler Machine.Healthy) pool machine0)
     = Returned ([task ++ [("version", JStr "2.3")]], [odd_task])
  /\ result_of (run (Machine.fated_pool_handler (Machine.KilledOn killed))
                    pool machine0)
     = Returned ([], [odd_task; task])
  /\ result_of (run (Machine.fated_pool_handler Machine.KilledDuringSubmit)
                    pool machine0)
     = Raised Machine.broken_process_pool.
Proof. vm_compute. repeat split; reflexivity. Qed.

(** C4, amended.  Over records that have an [instance_id]: once every
    task was submitted, [process_repos] returns whatever the futures
    raise; a future that raises adds its own task to the failures, and
    every other future is counted by its own answer.  What
    [executor.submit] raises is not caught: it leaves [process_repos]
    before any future is waited for. *)
Theorem worker_exception_is_one_failure {S : Type} (h : handler S) (s : S)
    (tasks : list dict) (testbed : string) (repo_cache : gmap string string)
    (max_workers : Z) :
  Forall (fun t => Dict.contains t "instance_id" = true) tasks ->
  let r := run h (process_repos tasks testbed repo_cache max_workers) s in
  (forall completed,
     pool_answers (trace_of r) = [completed] ->
     Permutation (map fst completed) tasks ->
     exists results failures,
       result_of r = Returned (results, failures)
       /\ submit_errors (trace_of r) = []
       /\ results = omap success_of completed
       /\ failures = map fst (List.filter failed completed)
       /\ (forall t e, In (t, Raised e) completed -> In t failures)
       /\ (forall t x r', In (t, Returned (Some (x :: r'))) completed ->
                          In (x :: r') results)
       /\ (length results + length failures)%nat = length tasks)
  /\ (forall e,
        submit_errors (trace_of r) = [e] ->
        result_of r = Raised e /\ pool_answers (trace_of r) = []).
Proof.
  intros Hkeys r. subst r. split.
  - intros completed Hpool Hperm.
    pose proof (wp_run _ _ (process_repos_wp tasks testbed repo_cache max_workers)
                  S h s completed Hpool) as H.
    pose proof (wp_run _ _ (process_repos_submit_wp tasks testbed repo_cache
                              max_workers) S h s) as Hsub.
    cbv beta in Hsub.
    assert (Hnone : submit_errors
                      (trace_of (run h (process_repos tasks testbed repo_cache
                                          max_workers) s)) = []).
    { pose proof (wp_run _ _ (process_repos_submits_once tasks testbed repo_cache
                                max_workers) S h s) as Hone. cbv beta in Hone.
      destruct Hone as [Hone|[e Hone]]; [exact Hone|].
      destruct (Hsub e Hone) as [_ Hno]. rewrite Hno in Hpool. discriminate. }
    destruct (result_of (run h (process_repos tasks testbed repo_cache max_workers) s))
      as [[rs fs]|e].
    + destruct H as [-> ->]. eexists; eexists. split; [reflexivity|].
      split; [exact Hnone|]. repeat split.
      * intros t e Hin. apply in_map_iff. exists (t, Raised e).
        split; [reflexivity|]. apply filter_In. now split.
      * intros t x r Hin. now apply (in_omap_success completed _ _ Hin).
      * rewrite omap_success_length, <- (Permutation_length Hperm).
        now rewrite length_map.
    + exfalso. destruct H as [t [Hin Hnone']].
      rewrite List.Forall_forall in Hkeys.
      assert (Hk : Dict.contains t "instance_id" = true).
      { apply Hkeys. eapply Permutation_in; eauto. }
      unfold Dict.contains in Hk. now rewrite Hnone' in Hk.
  - exact (wp_run _ _ (process_repos_submit_wp tasks testbed repo_cache
                         max_workers) S h s).
Qed.

(** The workers of the reference pool answer as [process_repo_task]
    does. *)
Lemma run_workers_faithful (tasks : list dict) (testbed : string)
    (repo_cache : gmap string string) :
  forall m, pool_faithful tasks testbed repo_cache
              (fst (Machine.run_workers tasks testbed repo_cache m)).
Proof.
  induction tasks as [|t tasks IH]; intros m; simpl.
  - split; constructor.
  - destruct (run Machine.os_handler (process_repo_task t testbed repo_cache) m)
      as [[o m1] tr] eqn:R.
    specialize (IH m1).
    destruct (Machine.run_workers tasks testbed repo_cache m1) as [rest m2].
    destruct IH as [Hp Hf]. split; simpl.
    + now constructor.
    + constructor; [|exact Hf]. simpl. destruct o as [r|e]; [|exact I].
      exists Machine.machine, Machine.os_handler, m. now rewrite R.
Qed.

Lemma worker_exception_is_one_failure_witness :
  exists results failures,
    result_of (run Machine.pool_handler
                   (process_repos three_tasks "/tb" repo_cache 4) machine0)
    = Returned (results, failures)
    /\ results = [task ++ [("version", JStr "2.3")]]
    /\ failures = [odd_task; crashing_task].
Proof.
  destruct (worker_exception_is_one_failure Machine.pool_handler machine0
              three_tasks "/tb" repo_cache 4) as [Hpool _].
  - repeat constructor.
  - destruct (Hpool (fst (Machine.run_workers three_tasks "/tb" repo_cache
                            (state_of (run Machine.os_handler
                                           (call (Makedirs "/tb")) machine0)))))
      as [results [failures [Hr [_ [Hrs [Hfs _]]]]]].
    + vm_compute. reflexivity.
    + apply run_workers_faithful.
    + exists results, failures. split; [exact Hr|]. rewrite Hrs, Hfs.
      split; vm_compute; reflexivity.
Defined.


Lemma successes_extend (testbed : string) (repo_cache : gmap string string)
    (completed : list (dict * outcome (option dict))) :
  Forall (fun c => worker_may_answer (fst c) testbed repo_cache (snd c)) completed ->
  Forall2 extends (omap success_of completed)
          (map fst (List.filter (fun c => negb (failed c)) completed)).
Proof.
  induction 1 as [|[t o] completed Hc _ IH]; simpl; [constructor|].
  change (list_omap _ _ success_of completed) with (omap success_of completed).
  unfold failed at 1.
  destruct o as [[[|x r]|]|e]; simpl; trivial.
  constructor; [|exact IH].
  destruct Hc as [S [h [s Hrun]]].
  destruct (worker_success h s _ _ _ _ Hrun) as [out [v [_ [_ [Hv Hr]]]]].
  now exists v.
Qed.

Lemma extends_id_fields (results origin : list dict) :
  Forall2 extends results origin -> map id_fields results = map id_fields origin.
Proof.
  induction 1 as [|r t results origin [v [_ ->]] _ IH]; simpl; [reflexivity|].
  now rewrite id_fields_set_version, IH.
Qed.

(** C2.  When the pool hands back each submitted task once with an
    answer of its worker, the two lists [process_repos] returns split the
    tasks: every task is the origin of exactly one success, which
    extends it by a version, or is itself exactly one failure; the
    identifying fields of the two lists are those of the tasks. *)
Theorem every_task_in_exactly_one_list {S : Type} (h : handler S) (s : S)
    (tasks : list dict) (testbed : string) (repo_cache : gmap string string)
    (max_workers : Z) (completed : list (dict * outcome (option dict)))
    (results failures : list dict) :
  pool_answers (trace_of (run h (process_repos tasks testbed repo_cache max_workers) s))
  = [completed] ->
  pool_faithful tasks testbed repo_cache completed ->
  result_of (run h (process_repos tasks testbed repo_cache max_workers) s)
  = Returned (results, failures) ->
  exists origin,
    Permutation (origin ++ failures) tasks
    /\ Forall2 extends results origin
    /\ Permutation (map id_fields (results ++ failures)) (map id_fields tasks)
    /\ (length results + length failures)%nat = length tasks.
Proof.
  intros Hpool [Hperm Hmay] Hres.
  pose proof (wp_run _ _ (process_repos_wp tasks testbed repo_cache max_workers)
                S h s completed Hpool) as H.
  rewrite Hres in H. destruct H as [-> ->].
  pose proof (successes_extend _ _ _ Hmay) as Hext.
  exists (map fst (List.filter (fun c => negb (failed c)) completed)).
  assert (Hsplit : Permutation
            (map fst (List.filter (fun c => negb (failed c)) completed)
             ++ map fst (List.filter failed completed)) tasks).
  { etransitivity; [apply partition_by_failed | exact Hperm]. }
  repeat split; trivial.
  - rewrite map_app, (extends_id_fields _ _ Hext), <- map_app.
    now apply Permutation_map.
  - rewrite omap_success_length, <- (Permutation_length Hperm).
    now rewrite length_map.
Qed.

Lemma every_task_in_exactly_one_list_witness :
  exists origin,
    Permutation (origin ++ [odd_task; crashing_task]) three_tasks
    /\ Forall2 extends [task ++ [("version", JStr "2.3")]] origin
    /\ Permutation
         (map id_fields ([task ++ [("version", JStr "2.3")]]
                         ++ [odd_task; crashing_task]))
         (map id_fields three_tasks)
    /\ (1 + 2)%nat = length three_tasks.
Proof.
  apply (every_task_in_exactly_one_list Machine.pool_handler machine0
           three_tasks "/tb" repo_cache 4
           (fst (Machine.run_workers three_tasks "/tb" repo_cache
                   (state_of (run Machine.os_handler (call (Makedirs "/tb"))
                                  machine0))))).
  - vm_compute. reflexivity.
  - apply run_workers_faithful.
  - vm_compute. reflexivity.
Defined.

(** What [main] keeps when tasks without a cached repository are to be
    skipped: the tasks whose repository is in the cache, in order. *)
Lemma tasks_in_cache_keeps {S : Type} (h : handler S) (s : S)
    (repo_cache : gmap string string) (tasks kept : list dict) :
  result_of (run h (tasks_in_cache tasks repo_cache) s) = Returned kept ->
  kept = List.filter
           (fun t => match Dict.get t "repo" with
                     | Some (JStr r) => bool_decide (is_Some (repo_cache !! r))
                     | _ => false
                     end) tasks.
Proof.
  revert kept. induction tasks as [|t tasks IH]; intros kept; simpl.
  - now intros [= <-].
  - unfold getitem, cache_get. rewrite !run_bind.
    destruct (Dict.get t "repo") as [[| | |r| |]|]; simpl; try discriminate.
    all: rewrite ?run_bind.
    all: destruct (run h (tasks_in_cache tasks repo_cache) s) as [[[k|e] s1] tr];
      simpl in *; try discriminate.
    all: intros [= <-]; rewrite (IH k eq_refl); trivial.
    destruct (repo_cache !! r); reflexivity.
Qed.

End Results.

(** ** Staging *)

Section StagingFacts.

Import Scenario.

#[local] Arguments extract_staged : simpl never.
#[local] Arguments Path.join2 : simpl never.

(** C5, as stated, fails: the unit changes the current directory of the
    process and writes to the global configuration of [git]; and for a
    record whose [instance_id] names the cache entry, the staging path
    is the cache entry, which the unit removes. *)
Lemma extractor_is_not_confined :
  let r := run Machine.os_handler (process_repo_task task "/tb" repo_cache) machine0 in
  let r' := run Machine.os_handler
                (process_repo_task aliasing_task "/tb" repo_cache) machine0 in
  forallb (step_confined staging) (trace_of r) = false
  /\ existsb changes_directory (trace_of r) = true
  /\ Machine.safe_directories (Machine.m_fs machine0) = []
  /\ Machine.safe_directories (Machine.m_fs (state_of r)) = [staging]
  /\ repo_cache !! "o/r" = Some "/cache/o__r"
  /\ Machine.isdir (Machine.m_fs machine0) "/cache/o__r" = true
  /\ Machine.isdir (Machine.m_fs (state_of r')) "/cache/o__r" = false.
Proof. vm_compute. repeat split; reflexivity. Qed.

(** C5, amended.  For a record with a [str] as [instance_id], whatever
    the environment answers, the steps of the unit are these and no
    others.  It asks about its staging path, the cache entry and the
    [.git] of the cache entry; it removes the staging path only; it
    copies or clones from the cache entry to the staging path only; it
    runs [git config --global --add safe.directory] for the staging
    path; and it runs [git checkout] of the commit of the record and
    [git describe --tags], without a path, only after a change of the
    current directory to where [os.path.expanduser] takes the staging
    path, the next change of directory being back to where
    [os.getcwd()] said the process was. *)
Theorem extractor_steps {S : Type} (h : handler S) (s : S) (task : dict)
    (testbed : string) (repo_cache : gmap string string) (id : string) :
  Dict.get task "instance_id" = Some (JStr id) ->
  staged (Path.join2 testbed id) (cache_entry task repo_cache) (commit_of task)
         None None false
         (trace_of (run h (process_repo_task task testbed repo_cache) s))
  = true.
Proof.
  intros Hid.
  exact (wp_run _ _ (worker_steps_wp task testbed repo_cache) S h s id Hid).
Qed.

Lemma extractor_steps_witness :
  Dict.get task "instance_id" = Some (JStr "o__r-1")
  /\ staged (Path.join2 "/tb" "o__r-1") (cache_entry task repo_cache)
            (commit_of task) None None false
            (trace_of (run Machine.os_handler
                           (process_repo_task task "/tb" repo_cache) machine0))
     = true.
Proof.
  split; [reflexivity|].
  apply (extractor_steps Machine.os_handler machine0 task "/tb" repo_cache "o__r-1").
  reflexivity.
Defined.

Lemma mem_filter_out (P : string -> bool) (r : string) (l : list string) :
  P r = false -> Machine.mem r (List.filter P l) = false.
Proof.
  intros HP. unfold Machine.mem. induction l as [|e l IH]; simpl; trivial.
  destruct (P e) eqn:He; simpl; trivial.
  destruct (String.eqb r e) eqn:E; [|exact IH].
  apply String.eqb_eq in E as ->. congruence.
Qed.

(** A removal leaves nothing of a directory that can be removed. *)
Lemma rmtree_removes (f : Machine.fs) (p : string) :
  removable (Machine.rmtree f p) p = true ->
  Machine.isdir (Machine.rmtree f p) p = false.
Proof.
  unfold Machine.rmtree. destruct (Machine.isdir f p) eqn:D; [|now rewrite D].
  unfold removable, Machine.isdir, Machine.is_dir, Machine.stays, Machine.resolve.
  simpl. intros H. apply andb_prop in H as [Hs Hr].
  apply negb_true_iff in Hs, Hr. rewrite Hr. simpl.
  rewrite mem_filter_out; [apply andb_false_r|].
  unfold Machine.removed, Machine.under, Machine.stays.
  rewrite String.eqb_refl. simpl. unfold Machine.resolve in Hs. now rewrite Hs.
Qed.

(** C6, as stated, fails: a staging directory that cannot be removed is
    still there when the unit has returned. *)
Lemma staging_directory_can_persist :
  let r := run Machine.os_handler (process_repo_task task "/tb" repo_cache)
               pinned_machine in
  (exists record, result_of r = Returned (Some record))
  /\ Machine.isdir (Machine.m_fs (state_of r)) staging = true.
Proof. vm_compute. split; [eexists|]; reflexivity. Qed.

(** C6, amended.  The unit of a record with its three fields returns,
    and the last thing it does is to remove its staging directory,
    ignoring errors; on the reference machine no staging directory is
    left when the directory can be removed. *)
Theorem staging_removed_last (task : dict) (testbed : string)
    (repo_cache : gmap string string) (id : string) (repo base_commit : json) :
  Dict.get task "instance_id" = Some (JStr id) ->
  Dict.get task "repo" = Some repo ->
  Dict.get task "base_commit" = Some base_commit ->
  (forall (S : Type) (h : handler S) (s : S),
     (exists result,
        result_of (run h (process_repo_task task testbed repo_cache) s)
        = Returned result)
     /\ exists tr',
         trace_of (run h (process_repo_task task testbed repo_cache) s)
         = tr' ++ [Ev (Rmtree (Path.join2 testbed id)) tt])
  /\ (forall m : Machine.machine,
        let f := Machine.m_fs
                   (state_of (run Machine.os_handler
                                  (process_repo_task task testbed repo_cache) m)) in
        removable f (Path.join2 testbed id) = true ->
        Machine.isdir f (Path.join2 testbed id) = false).
Proof.
  intros Hid Hrepo Hbase.
  assert (Hall : forall (S : Type) (h : handler S) (s : S),
     (exists result,
        result_of (run h (process_repo_task task testbed repo_cache) s)
        = Returned result)
     /\ exists tr',
         trace_of (run h (process_repo_task task testbed repo_cache) s)
         = tr' ++ [Ev (Rmtree (Path.join2 testbed id)) tt]).
  { intros S h s.
    exact (wp_run _ _ (worker_cleanup_wp task testbed repo_cache) S h s
             id repo base_commit Hid Hrepo Hbase). }
  split; [exact Hall|].
  intros m f.
  destruct (Hall _ Machine.os_handler m) as [_ [tr' Htr]].
  assert (Hf : f = Machine.rmtree
                     (Machine.m_fs (replay Machine.os_handler tr' m))
                     (Path.join2 testbed id)).
  { unfold f. rewrite run_replay, Htr, replay_app. reflexivity. }
  rewrite Hf. apply rmtree_removes.
Qed.

Lemma staging_removed_last_witness :
  (exists result,
     result_of (run Machine.os_handler (process_repo_task odd_task "/tb" repo_cache)
                    machine0) = Returned result)
  /\ Machine.isdir
       (Machine.m_fs (state_of (run Machine.os_handler
                                    (process_repo_task odd_task "/tb" repo_cache)
                                    machine0)))
       (Path.join2 "/tb" "o__r-2") = false.
Proof.
  destruct (staging_removed_last odd_task "/tb" repo_cache "o__r-2"
              (JStr "o/r") (JStr "def456") eq_refl eq_refl eq_refl) as [Hall Hm].
  split.
  - apply (Hall _ Machine.os_handler machine0).
  - apply (Hm machine0). vm_compute. reflexivity.
Defined.

(** C9, as stated, fails: with a staging directory that is there and
    cannot be removed, the unit goes on and returns a record. *)
Lemma unremovable_staging_still_succeeds :
  let r := run Machine.os_handler (process_repo_task task "/tb" repo_cache)
               pinned_machine in
  Machine.exists_ (Machine.m_fs pinned_machine) staging = true
  /\ removable (Machine.m_fs pinned_machine) staging = false
  /\ Machine.exists_ (Machine.rmtree (Machine.m_fs pinned_machine) staging) staging
     = true
  /\ result_of r = Returned (Some (task ++ [("version", JStr "2.3")])).
Proof. vm_compute. repeat split; reflexivity. Qed.

(** C9, amended.  When the staging path exists, the unit asks for its
    removal, which cannot raise, and goes on with the [try] statement
    from whatever state the removal left; it returns, a failure being
    the [None] of its [except] clause. *)
Theorem existing_staging_is_removed_quietly {S : Type} (h : handler S) (s : S)
    (task : dict) (testbed : string) (repo_cache : gmap string string)
    (id : string) (repo base_commit : json) :
  Dict.get task "instance_id" = Some (JStr id) ->
  Dict.get task "repo" = Some repo ->
  Dict.get task "base_commit" = Some base_commit ->
  fst (h _ (PathExists (Path.join2 testbed id)) s) = true ->
  let d := Path.join2 testbed id in
  let s1 := snd (h _ (PathExists d) s) in
  let s2 := snd (h _ (Rmtree d) s1) in
  run h (process_repo_task task testbed repo_cache) s
  = (let '(o, s3, tr) :=
       run h (extract_staged task (JStr id) repo base_commit d repo_cache) s2 in
     (o, s3, Ev (PathExists d) true :: Ev (Rmtree d) tt :: tr))
  /\ exists result,
      result_of (run h (process_repo_task task testbed repo_cache) s)
      = Returned result.
Proof.
  intros Hid Hrepo Hbase Hex d s1 s2. split.
  - unfold process_repo_task, getitem, os_path_join, trigger.
    rewrite Hid, Hrepo, Hbase. cbn [bind run].
    subst d s1 s2.
    destruct (h bool (PathExists (Path.join2 testbed id)) s) as [b s1].
    simpl in Hex. subst b. cbn [bind run snd].
    destruct (h unit (Rmtree (Path.join2 testbed id)) s1) as [[] s2].
    cbn [snd]. now destruct (run h (extract_staged _ _ _ _ _ _) s2) as [[o s3] tr].
  - exact (proj1 (wp_run _ _ (worker_cleanup_wp task testbed repo_cache) S h s
                    id repo base_commit Hid Hrepo Hbase)).
Qed.

Lemma existing_staging_is_removed_quietly_witness :
  fst (Machine.os_handler _ (PathExists (Path.join2 "/tb" "o__r-1")) pinned_machine)
  = true
  /\ exists result,
      result_of (run Machine.os_handler (process_repo_task task "/tb" repo_cache)
                     pinned_machine) = Returned result.
Proof.
  split; [vm_compute; reflexivity|].
  apply (existing_staging_is_removed_quietly Machine.os_handler pinned_machine
           task "/tb" repo_cache "o__r-1" (JStr "o/r") (JStr "abc123")
           eq_refl eq_refl eq_refl).
  vm_compute. reflexivity.
Defined.

End StagingFacts.

(** ** Output paths and artifacts *)

Section OutputFacts.

Import Scenario.

Lemma rfind_from_absent (c : ascii) (l : list ascii) :
  existsb (Ascii.eqb c) l = false ->
  forall i acc, Path.rfind_from c l i acc = acc.
Proof.
  induction l as [|x l IH]; simpl; intros H i acc; [reflexivity|].
  apply orb_false_elim in H as [Hx Hl].
  rewrite Ascii.eqb_sym, Hx. now apply IH.
Qed.

Lemma dirname_bare (p : string) :
  Str.has_char Str.slash p = false -> Path.dirname p = "".
Proof.
  unfold Str.has_char, Path.dirname, Path.dirname_chars, Path.rfind. intros H.
  now rewrite (rfind_from_absent _ _ H).
Qed.

Lemma splitext_chars_app (p : list ascii) :
  fst (Path.splitext_chars p) ++ snd (Path.splitext_chars p) = p.
Proof.
  unfold Path.splitext_chars.
  destruct (_ && _); simpl; [apply firstn_skipn | apply app_nil_r].
Qed.

Lemma has_char_app (c : ascii) (a b : string) :
  Str.has_char c (a ++ b)%string = Str.has_char c a || Str.has_char c b.
Proof. unfold Str.has_char. now rewrite chars_app, existsb_app. Qed.

Lemma generate_output_path_bare (instance_path suffix : string) :
  Str.has_char Str.slash instance_path = false ->
  Str.has_char Str.slash suffix = false ->
  Str.has_char Str.slash (generate_output_path instance_path suffix) = false.
Proof.
  unfold generate_output_path, Path.splitext. intros Hp Hs.
  pose proof (splitext_chars_app (Str.chars instance_path)) as E.
  destruct (Path.splitext_chars (Str.chars instance_path)) as [base ext].
  simpl in E. rewrite !has_char_app, Hs.
  unfold Str.has_char in *. rewrite !chars_of_chars.
  rewrite <- E, existsb_app in Hp. apply orb_false_elim in Hp as [-> ->].
  reflexivity.
Qed.

(** C10.  An output path without a separator has the empty [dirname];
    [save_results] asks for that directory before it opens anything, and
    what [os.makedirs] raises ends it: on the reference machine a
    [FileNotFoundError], with nothing written.  The output path derived
    from a bare file name is bare. *)
Theorem bare_output_path_cannot_be_saved (results : list dict)
    (output_path : string) :
  Str.has_char Str.slash output_path = false ->
  (forall (S : Type) (h : handler S) (s : S) (e : exn),
     fst (h _ (Makedirs "") s) = Raised e ->
     run h (save_results results output_path) s
     = (Raised e, snd (h _ (Makedirs "") s), [Ev (Makedirs "") (Raised e)]))
  /\ (forall m : Machine.machine,
        let r := run Machine.os_handler (save_results results output_path) m in
        (exists e, result_of r = Raised e /\ exn_cls e = FileNotFoundError)
        /\ Machine.m_fs (state_of r) = Machine.m_fs m
        /\ artifacts_written (trace_of r) = [])
  /\ (forall instance_path suffix,
        Str.has_char Str.slash instance_path = false ->
        Str.has_char Str.slash suffix = false ->
        Str.has_char Str.slash (generate_output_path instance_path suffix)
        = false).
Proof.
  intros Hbare. pose proof (dirname_bare _ Hbare) as Hd.
  split; [|split].
  - intros S h s e He. unfold save_results, call. rewrite Hd. cbn [bind run].
    destruct (h (outcome unit) (Makedirs "") s) as [r s1]. simpl in He. subst r.
    reflexivity.
  - intros m. unfold save_results, call. rewrite Hd. cbn.
    split; [eexists; split; reflexivity|]. split; reflexivity.
  - apply generate_output_path_bare.
Qed.

Lemma bare_output_path_cannot_be_saved_witness :
  Str.has_char Str.slash (generate_output_path "tasks.jsonl" "_versions") = false
  /\ exists e,
      result_of (run Machine.os_handler
                     (save_results [task] (generate_output_path "tasks.jsonl" "_versions"))
                     machine0) = Raised e
      /\ exn_cls e = FileNotFoundError.
Proof.
  split; [vm_compute; reflexivity|].
  destruct (bare_output_path_cannot_be_saved [task]
              (generate_output_path "tasks.jsonl" "_versions")) as [_ [Hm _]].
  - vm_compute. reflexivity.
  - apply (Hm machine0).
Defined.

(** C8.  An input named [*.jsonl.all] is read line by line, and its
    results are written as one array: the suffix goes before [.all], so
    that the output path does not end as a line-delimited one does. *)
Theorem jsonl_all_input_is_written_as_array :
  let input := "/data/tasks.jsonl.all" in
  let m := Machine.Machine (with_input input (Jsonl [task]) tree) (Machine.git tags) in
  let r := run Machine.pool_handler (main (arguments_for input)) m in
  is_line_delimited input = true
  /\ generate_output_path input "_versions" = "/data/tasks.jsonl_versions.all"
  /\ is_line_delimited (generate_output_path input "_versions") = false
  /\ result_of r = Returned tt
  /\ artifacts_written (trace_of r)
     = [("/data/tasks.jsonl_versions.all",
         JsonArray [task ++ [("version", JStr "2.3")]])].
Proof. vm_compute. repeat split; reflexivity. Qed.

End OutputFacts.

(** ** The candidates of a repository *)

Section CandidateFacts.

Lemma replace_chars_absent (old : ascii) (new l : list ascii) :
  existsb (Ascii.eqb old) l = false -> Str.replace_chars old new l = l.
Proof.
  induction l as [|c l IH]; simpl; intros H; [reflexivity|].
  apply orb_false_elim in H as [Hc Hl]. rewrite Ascii.eqb_sym, Hc.
  now rewrite IH.
Qed.

Lemma replace_chars_app (old : ascii) (new a b : list ascii) :
  Str.replace_chars old new (a ++ b)
  = Str.replace_chars old new a ++ Str.replace_chars old new b.
Proof.
  induction a as [|c a IH]; simpl; [reflexivity|].
  destruct (Ascii.eqb c old); rewrite IH; [now rewrite app_assoc | reflexivity].
Qed.

Lemma split_chars_absent (sep : ascii) (l : list ascii) :
  existsb (Ascii.eqb sep) l = false -> Str.split_chars sep l = [l].
Proof.
  induction l as [|c l IH]; simpl; intros H; [reflexivity|].
  apply orb_false_elim in H as [Hc Hl]. rewrite Ascii.eqb_sym, Hc.
  now rewrite IH.
Qed.

Lemma split_chars_at (sep : ascii) (a b : list ascii) :
  existsb (Ascii.eqb sep) a = false ->
  Str.split_chars sep (a ++ sep :: b) = a :: Str.split_chars sep b.
Proof.
  induction a as [|c a IH]; simpl; intros H.
  - now rewrite Ascii.eqb_refl.
  - apply orb_false_elim in H as [Hc Ha]. rewrite Ascii.eqb_sym, Hc.
    now rewrite IH.
Qed.

Lemma name_part_chars (s : string) :
  name_part s ->
  exists c l, Str.chars s = c :: l /\ Ascii.eqb Str.slash c = false
              /\ existsb (Ascii.eqb Str.slash) l = false.
Proof.
  intros [Hne Hs]. unfold Str.has_char in Hs.
  destruct (Str.chars s) as [|c l] eqn:E.
  - exfalso. apply Hne. apply chars_inj. now rewrite E.
  - simpl in Hs. apply orb_false_elim in Hs as [Hc Hl]. now exists c, l.
Qed.

Lemma name_part_last (s : string) :
  name_part s ->
  exists c l, rev (Str.chars s) = c :: l /\ Ascii.eqb Str.slash c = false.
Proof.
  intros [Hne Hs]. unfold Str.has_char in Hs.
  destruct (rev (Str.chars s)) as [|c l] eqn:E.
  - exfalso. apply Hne. apply chars_inj.
    rewrite <- (rev_involutive (Str.chars s)), E. reflexivity.
  - exists c, l. split; [reflexivity|].
    destruct (Ascii.eqb Str.slash c) eqn:Hc; [|reflexivity].
    assert (Hin : In c (Str.chars s)) by (apply in_rev; rewrite E; now left).
    assert (Ht : existsb (Ascii.eqb Str.slash) (Str.chars s) = true)
      by (apply existsb_exists; now exists c).
    congruence.
Qed.

Lemma startswith_slash_app (a b : string) :
  name_part a -> Str.startswith (a ++ b) "/" = false.
Proof.
  intros Ha. destruct (name_part_chars _ Ha) as [c [l [E [Hc _]]]].
  unfold Str.startswith. rewrite chars_app, E.
  change (Str.chars "/") with [Str.slash].
  cbn [Str.starts_chars app]. now rewrite Hc.
Qed.

Lemma startswith_slash (a : string) :
  name_part a -> Str.startswith a "/" = false.
Proof.
  intros Ha. pose proof (startswith_slash_app a "" Ha) as H.
  assert (E : (a ++ "")%string = a).
  { apply chars_inj. rewrite chars_app. simpl. apply app_nil_r. }
  now rewrite E in H.
Qed.

Lemma endswith_slash_app (x a : string) :
  name_part a -> Str.endswith (x ++ a) "/" = false.
Proof.
  intros Ha. destruct (name_part_last _ Ha) as [c [l [E Hc]]].
  unfold Str.endswith. rewrite chars_app, rev_app_distr, E.
  change (rev (Str.chars "/")) with [Str.slash].
  cbn [Str.starts_chars app]. now rewrite Hc.
Qed.

Lemma join2_relative (a b : string) :
  Str.startswith b "/" = false ->
  Path.join2 a b
  = (a ++ (if String.eqb a "" || Str.endswith a "/" then "" else "/") ++ b)%string.
Proof.
  intros Hb. unfold Path.join2. rewrite Hb.
  now destruct (String.eqb a "" || Str.endswith a "/").
Qed.

Lemma append_assoc (a b c : string) :
  ((a ++ b) ++ c)%string = (a ++ b ++ c)%string.
Proof. apply chars_inj. rewrite !chars_app. now rewrite app_assoc. Qed.

Lemma append_nonempty (a b : string) : b <> "" -> (a ++ b)%string <> "".
Proof.
  intros Hb E. apply Hb. apply (f_equal Str.chars) in E. rewrite chars_app in E.
  apply app_eq_nil in E as [_ E]. apply chars_inj. exact E.
Qed.

Lemma join_owner_name (local owner name tail : string) :
  name_part owner -> name_part name ->
  (Path.join2 (Path.join2 local owner) name ++ tail)%string
  = Path.join2 local (owner ++ "/" ++ name ++ tail).
Proof.
  intros Ho Hn.
  rewrite (join2_relative local owner (startswith_slash _ Ho)).
  rewrite (join2_relative local _ (startswith_slash_app owner _ Ho)).
  rewrite (join2_relative _ name (startswith_slash _ Hn)).
  set (sep := if String.eqb local "" || Str.endswith local "/" then "" else "/").
  rewrite <- (append_assoc local sep owner), endswith_slash_app by exact Ho.
  assert (Hne : String.eqb ((local ++ sep) ++ owner) "" = false).
  { apply String.eqb_neq, append_nonempty, Ho. }
  rewrite Hne. simpl orb. cbv iota.
  apply chars_inj. rewrite !chars_app. now rewrite <- !app_assoc.
Qed.

(** The six candidates of [owner/name], in order. *)
Lemma candidates_owner_name (local owner name : string) :
  name_part owner -> name_part name ->
  candidates local (owner ++ "/" ++ name)
  = map (Path.join2 local)
        [ owner ++ "__" ++ name; owner ++ "__" ++ name ++ ".git";
          owner ++ "/" ++ name; owner ++ "/" ++ name ++ ".git";
          name; name ++ ".git" ]%string.
Proof.
  intros Ho Hn. unfold candidates.
  assert (Hflat : Str.replace Str.slash "__" (owner ++ "/" ++ name)
                  = (owner ++ "__" ++ name)%string).
  { unfold Str.replace. rewrite !chars_app, !replace_chars_app.
    destruct Ho as [_ Ho], Hn as [_ Hn]. unfold Str.has_char in *.
    rewrite (replace_chars_absent _ _ _ Ho), (replace_chars_absent _ _ _ Hn).
    change (Str.replace_chars Str.slash (Str.chars "__") (Str.chars "/"))
      with (Str.chars "__").
    now rewrite !of_chars_app, !of_chars_chars. }
  assert (Hsplit : Str.split Str.slash (owner ++ "/" ++ name) = [owner; name]).
  { unfold Str.split. rewrite !chars_app.
    destruct Ho as [_ Ho], Hn as [_ Hn]. unfold Str.has_char in *.
    change (Str.chars "/") with [Str.slash]. cbn [app].
    rewrite (split_chars_at _ _ _ Ho), (split_chars_absent _ _ Hn).
    cbn [map]. now rewrite !of_chars_chars. }
  rewrite Hflat, Hsplit. simpl.
  rewrite !append_assoc.
  pose proof (join_owner_name local owner name "" Ho Hn) as E0.
  pose proof (join_owner_name local owner name ".git" Ho Hn) as E1.
  assert (Hnil : forall x : string, (x ++ "")%string = x).
  { intros x. apply chars_inj. rewrite chars_app. apply app_nil_r. }
  rewrite !Hnil in E0. rewrite E1, E0. reflexivity.
Qed.

End CandidateFacts.

(** ** The resolver on the reference machine *)

Section ResolverFacts.

Import Scenario.

Lemma is_git_repo_path_run (m : Machine.machine) (p : string) :
  result_of (run Machine.os_handler (is_git_repo_path p) m)
  = Returned (looks_like_repository (Machine.m_fs m) p)
  /\ state_of (run Machine.os_handler (is_git_repo_path p) m) = m.
Proof.
  unfold is_git_repo_path, trigger, looks_like_repository.
  cbn [bind run Machine.os_handler].
  destruct (Machine.isdir (Machine.m_fs m) p); cbn [negb bind run Machine.os_handler];
    [|split; reflexivity].
  destruct (Machine.isdir (Machine.m_fs m) (Path.join2 p ".git"));
    cbn [bind run Machine.os_handler]; [split; reflexivity|].
  destruct (Machine.isfile (Machine.m_fs m) (Path.join2 p "HEAD"));
    cbn [bind run Machine.os_handler]; split; reflexivity.
Qed.

(** The candidates are asked about in order, up to the first that
    verifies. *)
Lemma first_git_repo_path_run (m : Machine.machine) (paths : list string) :
  run Machine.os_handler (first_git_repo_path paths) m
  = (Returned (List.find (looks_like_repository (Machine.m_fs m)) paths), m,
     flat_map (fun p => trace_of (run Machine.os_handler (is_git_repo_path p) m))
              (tried (looks_like_repository (Machine.m_fs m)) paths)).
Proof.
  induction paths as [|p paths IH]; [reflexivity|].
  cbn [first_git_repo_path List.find tried]. rewrite run_bind.
  destruct (is_git_repo_path_run m p) as [Hr Hs].
  destruct (run Machine.os_handler (is_git_repo_path p) m) as [[o s1] tr] eqn:R.
  unfold result_of, state_of in Hr, Hs. simpl in Hr, Hs. subst o s1.
  destruct (looks_like_repository (Machine.m_fs m) p).
  - cbn [run flat_map]. now rewrite R, !app_nil_r.
  - rewrite IH. cbn [flat_map]. now rewrite R.
Qed.

Lemma join2_nonempty (a b : string) : a <> "" -> nonempty (Path.join2 a b) = true.
Proof.
  intros Ha. unfold nonempty, Path.join2.
  destruct (Str.startswith b "/") eqn:Hb.
  - destruct b; [discriminate | reflexivity].
  - destruct a as [|c a]; [congruence|].
    destruct (_ || _); reflexivity.
Qed.

Lemma abspath_run (m : Machine.machine) (p : string) :
  result_of (run Machine.os_handler (abspath p) m)
  = Returned (Path.normpath (Path.join2 (Machine.cwd (Machine.m_fs m)) p))
  /\ state_of (run Machine.os_handler (abspath p) m) = m
  /\ omap asked (trace_of (run Machine.os_handler (abspath p) m)) = [].
Proof.
  unfold abspath, Path.isabs, trigger.
  destruct (Str.startswith p "/") eqn:Hp; cbn [bind run Machine.os_handler].
  - unfold Path.join2. rewrite Hp. repeat split; reflexivity.
  - repeat split; reflexivity.
Qed.

(** C7.  For a repository [owner/name] and a local cache directory, the
    candidates are the six paths of the specification in its order; the
    resolver asks the file system about them in that order and no
    further than the first that looks like a repository; it records the
    absolute path of that candidate, and nothing when there is none. *)
Theorem local_candidates_first_match (m : Machine.machine)
    (local owner name cache_dir : string) (skip : bool)
    (rc : gmap string string) :
  local <> "" -> name_part owner -> name_part name ->
  let repo := (owner ++ "/" ++ name)%string in
  let paths :=
    map (Path.join2 local)
        [ owner ++ "__" ++ name; owner ++ "__" ++ name ++ ".git";
          owner ++ "/" ++ name; owner ++ "/" ++ name ++ ".git";
          name; name ++ ".git" ]%string in
  let ok := looks_like_repository (Machine.m_fs m) in
  let r := run Machine.os_handler
               (resolve_repo repo cache_dir (Some local) skip rc) m in
  candidates local repo = paths
  /\ omap asked (trace_of r)
     = omap asked
         (flat_map (fun p => trace_of (run Machine.os_handler (is_git_repo_path p) m))
                   (tried ok paths))
  /\ result_of r
     = Returned
         match List.find ok paths with
         | Some p =>
             <[repo := Path.normpath (Path.join2 (Machine.cwd (Machine.m_fs m)) p)]> rc
         | None => rc
         end.
Proof.
  intros Hlocal Ho Hn repo paths ok r.
  pose proof (candidates_owner_name local owner name Ho Hn) as Hc.
  split; [exact Hc|].
  subst r. unfold resolve_repo.
  assert (Ht : truthy_opt (Some local) = true).
  { simpl. unfold nonempty. apply negb_true_iff, String.eqb_neq, Hlocal. }
  rewrite Ht. cbn [default from_option id]. subst repo. rewrite Hc. fold paths.
  rewrite run_bind, first_git_repo_path_run. fold ok.
  destruct (List.find ok paths) as [p|] eqn:Hf.
  - assert (Hp : truthy_opt (Some p) = true).
    { apply find_some in Hf as [Hin _]. unfold paths in Hin.
      apply in_map_iff in Hin as [x [<- _]]. now apply join2_nonempty. }
    rewrite Hp. cbn [default from_option id]. rewrite run_bind.
    destruct (abspath_run m p) as [Hr [Hs Ha]].
    destruct (run Machine.os_handler (abspath p) m) as [[o s1] tr].
    unfold result_of, state_of, trace_of in Hr, Hs, Ha. simpl in Hr, Hs, Ha.
    subst o s1.
    unfold trigger. cbn [bind run Machine.os_handler trace_of result_of fst snd].
    split; [|reflexivity].
    rewrite !omap_app, Ha. simpl. now rewrite !app_nil_r.
  - cbn [truthy_opt]. unfold trigger.
    destruct skip; cbn [bind run Machine.os_handler trace_of result_of fst snd].
    + split; [|reflexivity]. rewrite omap_app. simpl. now rewrite app_nil_r.
    + split; [|reflexivity]. rewrite omap_app. simpl. now rewrite app_nil_r.
Qed.

Lemma local_candidates_first_match_witness :
  candidates "/cache" "o/r"
  = ["/cache/o__r"; "/cache/o__r.git"; "/cache/o/r"; "/cache/o/r.git";
     "/cache/r"; "/cache/r.git"]
  /\ result_of (run Machine.os_handler
                    (resolve_repo "o/r" "/tb/_cache" (Some "/cache") false ∅)
                    machine0)
     = Returned {["o/r" := "/cache/o__r"]}.
Proof.
  destruct (local_candidates_first_match machine0 "/cache" "o" "r" "/tb/_cache"
              false ∅) as [Hc [_ Hr]].
  - discriminate.
  - split; [discriminate | reflexivity].
  - split; [discriminate | reflexivity].
  - split; [exact Hc | exact Hr].
Defined.

End ResolverFacts.

(** ** The resolver over a batch *)

Section ResolverBatch.

Lemma same_tree_refl (f : Machine.fs) : same_tree f f.
Proof. now repeat split. Qed.

Lemma same_tree_trans (f1 f2 f3 : Machine.fs) :
  same_tree f1 f2 -> same_tree f2 f3 -> same_tree f1 f3.
Proof.
  intros [A [B C]] [A' [B' C']]. repeat split; congruence.
Qed.

Lemma same_tree_console (l : log_line) (f : Machine.fs) :
  same_tree (Machine.add_console l f) f.
Proof. now repeat split. Qed.

Lemma same_tree_looks (f f' : Machine.fs) :
  same_tree f f' -> forall p, looks_like_repository f p = looks_like_repository f' p.
Proof.
  intros [A [B C]] p.
  unfold looks_like_repository, Machine.isdir, Machine.isfile, Machine.is_dir,
    Machine.is_file, Machine.resolve.
  now rewrite A, B, C.
Qed.

Lemma find_pointwise {A : Type} (f g : A -> bool) (l : list A) :
  (forall x, f x = g x) -> List.find f l = List.find g l.
Proof.
  intros H. induction l as [|x l IH]; simpl; [reflexivity|].
  now rewrite H, IH.
Qed.

Lemma same_tree_entry (f f' : Machine.fs) (local repo : string) :
  same_tree f f' -> local_entry f local repo = local_entry f' local repo.
Proof.
  intros H. unfold local_entry. destruct H as [A BC].
  rewrite A. f_equal. apply find_pointwise. apply same_tree_looks. now split.
Qed.

Lemma join_nonempty (fields : list string) :
  forall a, a <> "" -> nonempty (Path.join a fields) = true.
Proof.
  unfold Path.join.
  induction fields as [|b fields IH]; intros a Ha; simpl.
  - unfold nonempty. now apply negb_true_iff, String.eqb_neq.
  - apply IH. pose proof (join2_nonempty a b Ha) as H.
    unfold nonempty in H. now apply negb_true_iff, String.eqb_neq in H.
Qed.

Lemma candidates_nonempty (local repo p : string) :
  local <> "" -> In p (candidates local repo) -> nonempty p = true.
Proof.
  intros Hl Hin. unfold candidates in Hin. simpl in Hin.
  destruct Hin as [<-|[<-|[<-|[<-|[<-|[<-|[]]]]]]];
    try (now apply join2_nonempty); try (now apply join_nonempty).
  pose proof (join_nonempty (Str.split Str.slash repo) local Hl) as H.
  unfold nonempty in *. destruct (Path.join local (Str.split Str.slash repo));
    [discriminate | reflexivity].
Qed.

(** In local-cache mode the resolution of one repository records its
    entry and leaves the tree as it is. *)
Lemma resolve_repo_local (m : Machine.machine) (local repo cache_dir : string)
    (skip : bool) (rc : gmap string string) :
  local <> "" ->
  let r := run Machine.os_handler
               (resolve_repo repo cache_dir (Some local) skip rc) m in
  result_of r
  = Returned match local_entry (Machine.m_fs m) local repo with
             | Some a => <[repo := a]> rc
             | None => rc
             end
  /\ same_tree (Machine.m_fs (state_of r)) (Machine.m_fs m).
Proof.
  intros Hlocal r. subst r. unfold resolve_repo, local_entry.
  assert (Ht : truthy_opt (Some local) = true).
  { simpl. unfold nonempty. apply negb_true_iff, String.eqb_neq, Hlocal. }
  rewrite Ht. cbn [default from_option id].
  rewrite run_bind, first_git_repo_path_run.
  destruct (List.find (looks_like_repository (Machine.m_fs m))
                      (candidates local repo)) as [p|] eqn:Hf.
  - assert (Hp : truthy_opt (Some p) = true).
    { apply find_some in Hf as [Hin _]. simpl.
      now apply (candidates_nonempty local repo). }
    rewrite Hp. cbn [default from_option id]. rewrite run_bind.
    destruct (abspath_run m p) as [Hr [Hs _]].
    destruct (run Machine.os_handler (abspath p) m) as [[o s1] tr].
    unfold result_of, state_of in Hr, Hs. simpl in Hr, Hs. subst o s1.
    unfold trigger.
    cbn [bind run Machine.os_handler state_of result_of fst snd option_map].
    split; [reflexivity | apply same_tree_console].
  - cbn [truthy_opt]. unfold trigger.
    destruct skip;
      cbn [bind run Machine.os_handler state_of result_of fst snd option_map];
      (split; [reflexivity | apply same_tree_console]).
Qed.

(** Over a batch in local-cache mode, the cache ends with, for every
    repository some task names, the entry of that repository, unless the
    cache held one already. *)
Lemma prepare_repo_cache_loop_local (local cache_dir : string) (skip : bool) :
  local <> "" ->
  forall (tasks : list dict) (rc : gmap string string) (m : Machine.machine),
    Forall (fun t => exists repo, Dict.get t "repo" = Some (JStr repo)) tasks ->
    let r := run Machine.os_handler
                 (prepare_repo_cache_loop tasks cache_dir (Some local) skip rc) m in
    exists rc',
      result_of r = Returned rc'
      /\ same_tree (Machine.m_fs (state_of r)) (Machine.m_fs m)
      /\ forall repo,
          rc' !! repo
          = match rc !! repo with
            | Some a => Some a
            | None =>
                if existsb (names_repo repo) tasks
                then local_entry (Machine.m_fs m) local repo else None
            end.
Proof.
  intros Hlocal. induction tasks as [|t tasks IH]; intros rc m Hall r; subst r.
  - exists rc. repeat split. intros repo. simpl. now destruct (rc !! repo).
  - apply Forall_cons_iff in Hall as [[r0 Hr0] Hall].
    cbn [prepare_repo_cache_loop]. unfold getitem. rewrite Hr0. cbn [bind].
    assert (Hname : forall repo,
               names_repo repo t = String.eqb r0 repo).
    { intros repo. unfold names_repo. now rewrite Hr0. }
    destruct (rc !! r0) as [a0|] eqn:Hrc.
    + destruct (IH rc m Hall) as [rc' [Hres [Htree Hlook]]].
      exists rc'. split; [exact Hres|]. split; [exact Htree|].
      intros repo. rewrite Hlook. cbn [existsb]. rewrite Hname.
      destruct (String.eqb_spec r0 repo) as [<-|Hne]; [now rewrite Hrc|].
      reflexivity.
    + rewrite run_bind.
      destruct (resolve_repo_local m local r0 cache_dir skip rc Hlocal)
        as [Hr1 Ht1].
      destruct (run Machine.os_handler
                    (resolve_repo r0 cache_dir (Some local) skip rc) m)
        as [[o1 m1] tr1].
      unfold result_of, state_of in Hr1, Ht1. simpl in Hr1, Ht1. subst o1.
      set (rc1 := match local_entry (Machine.m_fs m) local r0 with
                  | Some a => <[r0 := a]> rc
                  | None => rc
                  end) in *.
      destruct (IH rc1 m1 Hall) as [rc' [Hres [Htree Hlook]]].
      destruct (run Machine.os_handler
                    (prepare_repo_cache_loop tasks cache_dir (Some local) skip rc1)
                    m1) as [[o2 m2] tr2].
      unfold result_of, state_of in Hres, Htree |- *. simpl in Hres, Htree |- *.
      subst o2. exists rc'. split; [reflexivity|].
      split; [eapply same_tree_trans; eauto|].
      intros repo. rewrite Hlook, (same_tree_entry _ _ local repo Ht1).
      cbn [existsb]. rewrite Hname.
      destruct (String.eqb_spec r0 repo) as [<-|Hne].
      * rewrite Hrc. subst rc1.
        destruct (local_entry (Machine.m_fs m) local r0) as [a|] eqn:He.
        -- now rewrite lookup_insert_eq.
        -- rewrite Hrc. simpl. now destruct (existsb (names_repo r0) tasks).
      * simpl. subst rc1.
        destruct (local_entry (Machine.m_fs m) local r0) as [a|];
          [now rewrite lookup_insert_ne | reflexivity].
Qed.

(** [prepare_repo_cache] in local-cache mode: once the cache directory
    is there, the mapping holds exactly the entries of the repositories
    the tasks name, one for each. *)
Lemma prepare_repo_cache_local (m : Machine.machine) (local cache_dir : string)
    (skip : bool) (tasks : list dict) (f1 : Machine.fs) :
  local <> "" ->
  Forall (fun t => exists repo, Dict.get t "repo" = Some (JStr repo)) tasks ->
  Machine.makedirs (Machine.m_fs m) cache_dir = (Returned tt, f1) ->
  exists rc',
    result_of (run Machine.os_handler
                   (prepare_repo_cache tasks cache_dir (Some local) skip) m)
    = Returned rc'
    /\ forall repo,
        rc' !! repo
        = if existsb (names_repo repo) tasks
          then local_entry f1 local repo else None.
Proof.
  intros Hlocal Hall Hmk. unfold prepare_repo_cache. rewrite run_bind.
  unfold call. cbn [run Machine.os_handler]. rewrite Hmk. cbn [run].
  destruct (prepare_repo_cache_loop_local local cache_dir skip Hlocal tasks ∅
              (Machine.with_fs m f1) Hall) as [rc' [Hres [_ Hlook]]].
  destruct (run Machine.os_handler
                (prepare_repo_cache_loop tasks cache_dir (Some local) skip ∅)
                (Machine.with_fs m f1)) as [[o m2] tr].
  unfold result_of in Hres |- *. simpl in Hres |- *. subst o.
  exists rc'. split; [reflexivity|].
  intros repo. rewrite Hlook, lookup_empty. reflexivity.
Qed.

End ResolverBatch.

(** * Further properties of the code *)

(** ** Output paths *)

Section OutputPathFacts.

Lemma generate_output_path_chars (instance_path suffix : string) :
  Str.chars (generate_output_path instance_path suffix)
  = fst (Path.splitext_chars (Str.chars instance_path))
    ++ Str.chars suffix
    ++ snd (Path.splitext_chars (Str.chars instance_path)).
Proof.
  unfold generate_output_path, Path.splitext.
  destruct (Path.splitext_chars (Str.chars instance_path)) as [base ext].
  now rewrite !chars_app, !chars_of_chars.
Qed.

(** X1.  Different suffixes give different output paths, and the empty
    suffix gives the input path back: the successes and the failures
    never share a file, and neither overwrites the input. *)
Theorem output_paths_never_collide :
  (forall p s1 s2 : string,
     generate_output_path p s1 = generate_output_path p s2 -> s1 = s2)
  /\ (forall p : string, generate_output_path p "" = p)
  /\ (forall p : string,
        generate_output_path p "_versions" <> p
        /\ generate_output_path p "_failures" <> p
        /\ generate_output_path p "_versions" <> generate_output_path p "_failures").
Proof.
  assert (Hinj : forall p s1 s2 : string,
             generate_output_path p s1 = generate_output_path p s2 -> s1 = s2).
  { intros p s1 s2 H. apply (f_equal Str.chars) in H.
    rewrite !generate_output_path_chars in H.
    apply app_inv_head, app_inv_tail in H. now apply chars_inj. }
  assert (Hid : forall p : string, generate_output_path p "" = p).
  { intros p. apply chars_inj. rewrite generate_output_path_chars.
    apply splitext_chars_app. }
  split; [exact Hinj|]. split; [exact Hid|].
  intros p. repeat split.
  - intros H. rewrite <- (Hid p) in H at 2. now apply Hinj in H.
  - intros H. rewrite <- (Hid p) in H at 2. now apply Hinj in H.
  - intros H. now apply Hinj in H.
Qed.

End OutputPathFacts.

(** ** Exception handling and the scoped change of directory *)

Section ControlFacts.

Lemma run_try_except {S A : Type} (h : handler S) (p : prog A)
    (handle : exn -> prog A) :
  forall s,
    run h (try_except p handle) s =
      let '(o, s1, tr1) := run h p s in
      match o with
      | Returned a => (Returned a, s1, tr1)
      | Raised e =>
          let '(o2, s2, tr2) := run h (handle e) s1 in (o2, s2, tr1 ++ tr2)
      end.
Proof.
  induction p as [a|e|X ev k IH]; intros s; simpl.
  - reflexivity.
  - now destruct (run h (handle e) s) as [[o2 s2] tr2].
  - destruct (h X ev s) as [x s1]. rewrite IH.
    destruct (run h (k x) s1) as [[[a|e] s2] tr]; [reflexivity|].
    now destruct (run h (handle e) s2) as [[o2 s3] tr2].
Qed.

Lemma run_try_finally {S A : Type} (h : handler S) (p : prog A)
    (final : prog unit) :
  forall s,
    run h (try_finally p final) s =
      let '(o, s1, tr1) := run h p s in
      let '(f, s2, tr2) := run h final s1 in
      (match f with Returned _ => o | Raised e => Raised e end, s2, tr1 ++ tr2).
Proof.
  induction p as [a|e|X ev k IH]; intros s; simpl.
  - rewrite run_bind.
    destruct (run h final s) as [[[[]|e] s2] tr2]; simpl; now rewrite ?app_nil_r.
  - rewrite run_bind.
    destruct (run h final s) as [[[[]|e'] s2] tr2]; simpl; now rewrite ?app_nil_r.
  - destruct (h X ev s) as [x s1]. rewrite IH.
    destruct (run h (k x) s1) as [[o s2] tr].
    now destruct (run h final s2) as [[f s3] tr2].
Qed.

(** X2.  [with cd(newdir): body].  When the change of directory
    raises, the body does not run.  Otherwise the body runs and,
    however it ends, the process goes back to the directory
    [os.getcwd()] gave; the block ends as the body did, unless going
    back raises, which then is how the block ends. *)
Theorem cd_runs_body_and_goes_back {S A : Type} (h : handler S) (s : S)
    (newdir : string) (body : prog A) :
  let '(prevdir, s1) := h _ Getcwd s in
  let '(target, s2) := h _ (Expanduser newdir) s1 in
  let '(entered, s3) := h _ (Chdir target) s2 in
  run h (cd newdir body) s =
    match entered with
    | Raised e =>
        (Raised e, s3,
         [Ev Getcwd prevdir; Ev (Expanduser newdir) target;
          Ev (Chdir target) (Raised e)])
    | Returned _ =>
        let '(o, s4, tr) := run h body s3 in
        let '(back, s5) := h _ (Chdir prevdir) s4 in
        (match back with Returned _ => o | Raised e => Raised e end, s5,
         [Ev Getcwd prevdir; Ev (Expanduser newdir) target;
          Ev (Chdir target) entered]
         ++ tr ++ [Ev (Chdir prevdir) back])
    end.
Proof.
  destruct (h string Getcwd s) as [prevdir s1] eqn:H1.
  destruct (h string (Expanduser newdir) s1) as [target s2] eqn:H2.
  destruct (h (outcome unit) (Chdir target) s2) as [entered s3] eqn:H3.
  unfold cd, trigger, call. cbn [bind run]. rewrite H1, H2, H3.
  destruct entered as [[]|e]; cbn [bind run]; [|reflexivity].
  rewrite run_try_finally.
  destruct (run h body s3) as [[o s4] tr]. cbn [run].
  destruct (h (outcome unit) (Chdir prevdir) s4) as [[[]|e] s5]; reflexivity.
Qed.

End ControlFacts.

(** ** The unit of work on records of every shape *)

Section RecordFacts.

Import Scenario.

#[local] Arguments extract_version : simpl never.
#[local] Arguments Str.strip : simpl never.
#[local] Arguments Dict.set : simpl never.
#[local] Arguments Path.join2 : simpl never.

Lemma worker_shape_wp (task : dict) (testbed : string)
    (repo_cache : gmap string string) :
  wp (process_repo_task task testbed repo_cache)
     (fun o tr =>
        if well_formed_record task
        then exists result, o = Returned result
        else exists e,
            o = Raised e /\ tr = []
            /\ (exn_cls e = KeyError \/ exn_cls e = TypeError)).
Proof.
  unfold well_formed_record, has_required_keys, required_keys, Dict.contains.
  cbn [forallb].
  exec; rewrite ?andb_false_r; cbn [andb].
  all: first [ eexists; reflexivity
             | eexists; split; [reflexivity|]; split; [reflexivity|];
               first [left; reflexivity | right; reflexivity] ].
Qed.

(** X3.  Whatever the environment answers, the unit raises exactly for
    a record that lacks one of the three fields or whose [instance_id]
    is not a [str], and then before it has called anything; for every
    other record it returns. *)
Theorem unit_raises_exactly_for_malformed_records {S : Type} (h : handler S)
    (s : S) (task : dict) (testbed : string) (repo_cache : gmap string string) :
  let r := run h (process_repo_task task testbed repo_cache) s in
  if well_formed_record task
  then exists result, result_of r = Returned result
  else exists e,
      result_of r = Raised e /\ trace_of r = []
      /\ (exn_cls e = KeyError \/ exn_cls e = TypeError).
Proof.
  exact (wp_run _ _ (worker_shape_wp task testbed repo_cache) S h s).
Qed.

(** The run of the unit when the cache has nothing for the
    repository: the [RuntimeError] of line 108 is caught and printed. *)
Lemma worker_missing_entry_wp (task : dict) (testbed : string)
    (repo_cache : gmap string string) :
  wp (process_repo_task task testbed repo_cache)
     (fun o tr =>
        forall id repo,
          well_formed_record task = true ->
          Dict.get task "instance_id" = Some (JStr id) ->
          Dict.get task "repo" = Some (JStr repo) ->
          truthy_opt (repo_cache !! repo) = false ->
          let scratch := Path.join2 testbed id in
          let missing :=
            Exn RuntimeError [Text "Missing cached repo for "; Show (JStr repo)] in
          o = Returned None
          /\ existsb extracts tr = false
          /\ exists present : bool,
               tr = Ev (PathExists scratch) present
                    :: (if present then [Ev (Rmtree scratch) tt] else [])
                    ++ [Ev (Print (LogFailed (JStr id) missing)) tt;
                        Ev (Rmtree scratch) tt]).
Proof.
  unfold well_formed_record, has_required_keys, required_keys, Dict.contains.
  cbn [forallb].
  exec; intros id repo Hwf Hid Hrepo Hmiss;
    rewrite ?andb_false_r in Hwf; cbn [andb] in Hwf; try discriminate.
  all: try (injection Hrepo as <-); try congruence.
  all: injection Hid as <-.
  all: split; [reflexivity|]; split; [reflexivity|].
  - exists true. reflexivity.
  - exists false. reflexivity.
Qed.

(** X4.  When the cache has no entry for the repository of a
    well-formed record (or an empty one), the unit does this and
    nothing else: it asks whether its staging path exists and removes
    it if so, prints the failure with the [RuntimeError] of line 108,
    and removes the staging path; then it returns [None].  It has not
    copied, run a command or changed directory. *)
Theorem missing_cache_entry_fails_before_extraction {S : Type} (h : handler S)
    (s : S) (task : dict) (testbed : string) (repo_cache : gmap string string)
    (id repo : string) :
  well_formed_record task = true ->
  Dict.get task "instance_id" = Some (JStr id) ->
  Dict.get task "repo" = Some (JStr repo) ->
  truthy_opt (repo_cache !! repo) = false ->
  let r := run h (process_repo_task task testbed repo_cache) s in
  let scratch := Path.join2 testbed id in
  let missing :=
    Exn RuntimeError [Text "Missing cached repo for "; Show (JStr repo)] in
  result_of r = Returned None
  /\ existsb extracts (trace_of r) = false
  /\ exists present : bool,
       trace_of r
       = Ev (PathExists scratch) present
         :: (if present then [Ev (Rmtree scratch) tt] else [])
         ++ [Ev (Print (LogFailed (JStr id) missing)) tt;
             Ev (Rmtree scratch) tt].
Proof.
  intros Hwf Hid Hrepo Hmiss.
  exact (wp_run _ _ (worker_missing_entry_wp task testbed repo_cache) S h s
           id repo Hwf Hid Hrepo Hmiss).
Qed.

Lemma missing_cache_entry_fails_before_extraction_witness :
  let r := run Machine.os_handler (process_repo_task task "/tb" ∅) machine0 in
  let missing :=
    Exn RuntimeError [Text "Missing cached repo for "; Show (JStr "o/r")] in
  result_of r = Returned None
  /\ existsb extracts (trace_of r) = false
  /\ exists present : bool,
       trace_of r
       = Ev (PathExists (Path.join2 "/tb" "o__r-1")) present
         :: (if present then [Ev (Rmtree (Path.join2 "/tb" "o__r-1")) tt] else [])
         ++ [Ev (Print (LogFailed (JStr "o__r-1") missing)) tt;
             Ev (Rmtree (Path.join2 "/tb" "o__r-1")) tt].
Proof.
  apply (missing_cache_entry_fails_before_extraction Machine.os_handler machine0
           task "/tb" ∅ "o__r-1" "o/r"); reflexivity.
Defined.

End RecordFacts.

(** ** The exits of [main] before any processing *)

Section MainFacts.

Import Scenario.

Lemma get_instances_call (path : string) :
  get_instances path = call (ReadInstances path (is_line_delimited path)).
Proof.
  unfold get_instances, is_line_delimited.
  now destruct (Str.endswith path ".jsonl" || Str.endswith path ".jsonl.all").
Qed.

(** X5.  When the input cannot be read or parsed, [main] reports the
    error and returns: it has made no directory, started no pool and
    written nothing. *)
Theorem main_stops_on_unreadable_input {S : Type} (h : handler S) (s : S)
    (args : arguments) (e : exn) :
  let read := ReadInstances (instance_path args)
                            (is_line_delimited (instance_path args)) in
  fst (h _ read s) = Raised e ->
  result_of (run h (main args) s) = Returned tt
  /\ trace_of (run h (main args) s)
     = [Ev read (Raised e); Ev (Print (LogReadError e)) tt].
Proof.
  intros read Hread. unfold main.
  rewrite run_bind, run_try_except, run_bind, get_instances_call.
  unfold call, trigger. cbn [run]. fold read.
  destruct (h (outcome (list dict)) read s) as [ans s1]. simpl in Hread.
  subst ans. cbn [run bind].
  destruct (h unit (Print (LogReadError e)) s1) as [[] s2].
  cbn [run]. split; reflexivity.
Qed.

Lemma main_stops_on_unreadable_input_witness :
  fst (Machine.pool_handler _
         (ReadInstances "/data/none.jsonl" (is_line_delimited "/data/none.jsonl"))
         machine0)
  = Raised (Exn FileNotFoundError
              [Text "No such file or directory: "; Text "/data/none.jsonl"])
  /\ result_of (run Machine.pool_handler (main (arguments_for "/data/none.jsonl"))
                    machine0) = Returned tt.
Proof.
  split; [vm_compute; reflexivity|].
  destruct (main_stops_on_unreadable_input Machine.pool_handler machine0
              (arguments_for "/data/none.jsonl")
              (Exn FileNotFoundError
                 [Text "No such file or directory: "; Text "/data/none.jsonl"]))
    as [H _]; [vm_compute; reflexivity | exact H].
Defined.

(** X6.  The records are checked before anything else is done: when
    one of them lacks [repo], [base_commit] or [instance_id], [main]
    reports the first such record and returns, having only read the
    input. *)
Theorem main_stops_on_invalid_record {S : Type} (h : handler S) (s : S)
    (args : arguments) (tasks : list dict) (t : dict) :
  let read := ReadInstances (instance_path args)
                            (is_line_delimited (instance_path args)) in
  fst (h _ read s) = Returned tasks ->
  List.find (fun t => negb (has_required_keys t)) tasks = Some t ->
  result_of (run h (main args) s) = Returned tt
  /\ trace_of (run h (main args) s)
     = [Ev read (Returned tasks); Ev (Print (LogInvalidTask t)) tt].
Proof.
  intros read Hread Hfind. unfold main.
  rewrite run_bind, run_try_except, run_bind, get_instances_call.
  unfold call, trigger. cbn [run]. fold read.
  destruct (h (outcome (list dict)) read s) as [ans s1]. simpl in Hread.
  subst ans. cbn [run bind]. rewrite Hfind. cbn [run].
  destruct (h unit (Print (LogInvalidTask t)) s1) as [[] s2].
  cbn [run]. split; reflexivity.
Qed.

Lemma main_stops_on_invalid_record_witness :
  List.find (fun t => negb (has_required_keys t)) [task; partial_record]
  = Some partial_record
  /\ trace_of (run Machine.pool_handler (main (arguments_for "/data/tasks.json"))
                   (input_machine "/data/tasks.json"
                      (JsonArray [task; partial_record])))
     = [Ev (ReadInstances "/data/tasks.json" false) (Returned [task; partial_record]);
        Ev (Print (LogInvalidTask partial_record)) tt].
Proof.
  split; [reflexivity|].
  destruct (main_stops_on_invalid_record Machine.pool_handler
              (input_machine "/data/tasks.json" (JsonArray [task; partial_record]))
              (arguments_for "/data/tasks.json") [task; partial_record]
              partial_record) as [_ H];
    [vm_compute; reflexivity | reflexivity | exact H].
Defined.

End MainFacts.

(** ** What [main] writes *)

Section WriteFacts.

Import Scenario.

Lemma wp_bind {A B : Type} (p : prog A) (k : A -> prog B) :
  forall (Q : outcome B -> list step -> Prop),
    wp p (fun o tr =>
            match o with
            | Returned a => wp (k a) (fun o' tr' => Q o' (tr ++ tr'))
            | Raised e => Q (Raised e) tr
            end) ->
    wp (bind p k) Q.
Proof.
  induction p as [a|e|X ev k' IH]; intros Q H; simpl in *;
    [exact H | exact H | intros x; apply IH; exact (H x)].
Qed.

Lemma wp_try_except {A : Type} (p : prog A) (handle : exn -> prog A) :
  forall (Q : outcome A -> list step -> Prop),
    wp p (fun o tr =>
            match o with
            | Returned a => Q (Returned a) tr
            | Raised e => wp (handle e) (fun o' tr' => Q o' (tr ++ tr'))
            end) ->
    wp (try_except p handle) Q.
Proof.
  induction p as [a|e|X ev k' IH]; intros Q H; simpl in *;
    [exact H | exact H | intros x; apply IH; exact (H x)].
Qed.

(** Programs that do not try to write. *)
Abbreviation silent p := (wp p (fun _ tr => write_attempts tr = [])).

Lemma write_attempts_app (tr1 tr2 : list step) :
  write_attempts (tr1 ++ tr2) = write_attempts tr1 ++ write_attempts tr2.
Proof. apply omap_app. Qed.

Lemma write_attempts_cons_print (l : log_line) (x : unit) (tr : list step) :
  write_attempts (Ev (Print l) x :: tr) = write_attempts tr.
Proof. reflexivity. Qed.

Lemma silent_bind {A B : Type} (p : prog A) (k : A -> prog B) :
  silent p -> (forall a, silent (k a)) -> silent (bind p k).
Proof.
  intros Hp Hk. apply wp_bind. eapply wp_mono; [|exact Hp].
  intros [a|e] tr Htr; cbv beta.
  - eapply wp_mono; [|apply Hk]. intros o' tr' Htr'; cbv beta.
    now rewrite write_attempts_app, Htr, Htr'.
  - exact Htr.
Qed.

Lemma silent_try_except {A : Type} (p : prog A) (handle : exn -> prog A) :
  silent p -> (forall e, silent (handle e)) -> silent (try_except p handle).
Proof.
  intros Hp Hh. apply wp_try_except. eapply wp_mono; [|exact Hp].
  intros [a|e] tr Htr; cbv beta.
  - exact Htr.
  - eapply wp_mono; [|apply Hh]. intros o' tr' Htr'; cbv beta.
    now rewrite write_attempts_app, Htr, Htr'.
Qed.

(** A silent program followed by a program that keeps [P]. *)
Lemma silent_then {A B : Type} (p : prog A) (k : A -> prog B)
    (P : list (string * artifact) -> Prop) :
  silent p -> P [] ->
  (forall a, wp (k a) (fun _ tr => P (write_attempts tr))) ->
  wp (bind p k) (fun _ tr => P (write_attempts tr)).
Proof.
  intros Hp HP Hk. apply wp_bind. eapply wp_mono; [|exact Hp].
  intros [a|e] tr Htr; cbv beta.
  - eapply wp_mono; [|apply Hk]. intros o' tr' Htr'; cbv beta.
    now rewrite write_attempts_app, Htr.
  - now rewrite Htr.
Qed.

Lemma silent_getitem (d : dict) (k : string) : silent (getitem d k).
Proof. unfold getitem. now destruct (Dict.get d k). Qed.

Lemma silent_cache_get (rc : gmap string string) (v : json) :
  silent (cache_get rc v).
Proof. unfold cache_get. now destruct v. Qed.

Lemma silent_run_command (cmd : list string) : silent (run_command cmd).
Proof.
  unfold run_command, trigger. cbn [bind wp]. intros [out|e]; cbn [wp].
  - reflexivity.
  - destruct (is_called_process_error e); cbn [bind wp]; [intros []|];
      reflexivity.
Qed.

Lemma silent_is_git_repo_path (p : string) : silent (is_git_repo_path p).
Proof.
  unfold is_git_repo_path, trigger. cbn [bind wp].
  intros []; cbn [negb bind wp]; [|reflexivity].
  intros []; cbn [bind wp]; [reflexivity|].
  intros []; cbn [bind wp]; [intros []|]; reflexivity.
Qed.

Lemma silent_first_git_repo_path (paths : list string) :
  silent (first_git_repo_path paths).
Proof.
  induction paths as [|p paths IH]; [reflexivity|].
  cbn [first_git_repo_path]. apply silent_bind; [apply silent_is_git_repo_path|].
  intros []; [reflexivity | exact IH].
Qed.

Lemma silent_abspath (p : string) : silent (abspath p).
Proof.
  unfold abspath, trigger. destruct (Path.isabs p); cbn [bind wp];
    [reflexivity | intros cwd; reflexivity].
Qed.

Lemma silent_resolve_repo (repo cache_dir : string) (lcd : option string)
    (skip : bool) (rc : gmap string string) :
  silent (resolve_repo repo cache_dir lcd skip rc).
Proof.
  unfold resolve_repo. destruct (truthy_opt lcd).
  - apply silent_bind; [apply silent_first_git_repo_path|].
    intros local_path. destruct (truthy_opt local_path).
    + apply silent_bind; [apply silent_abspath|]. intros path.
      unfold trigger. cbn [bind wp]. intros []. reflexivity.
    + destruct skip; unfold trigger; cbn [bind wp]; intros []; reflexivity.
  - apply silent_try_except.
    + apply silent_bind; [apply silent_run_command|]. intros out.
      unfold trigger. cbn [bind wp]. intros []. reflexivity.
    + intros e. unfold trigger. cbn [bind wp]. intros []. reflexivity.
Qed.

Lemma silent_prepare_repo_cache (tasks : list dict) (cache_dir : string)
    (lcd : option string) (skip : bool) :
  silent (prepare_repo_cache tasks cache_dir lcd skip).
Proof.
  assert (Hloop : forall rc, silent (prepare_repo_cache_loop tasks cache_dir lcd skip rc)).
  { induction tasks as [|t tasks IH]; intros rc; [reflexivity|].
    cbn [prepare_repo_cache_loop].
    apply silent_bind; [apply silent_getitem|]. intros v.
    destruct v; try reflexivity.
    destruct (rc !! s); [apply IH|].
    apply silent_bind; [apply silent_resolve_repo | intros rc'; apply IH]. }
  unfold prepare_repo_cache. apply silent_bind; [|intros _; apply Hloop].
  unfold call. cbn [wp]. intros [[]|e]; reflexivity.
Qed.

Lemma silent_tasks_in_cache (tasks : list dict) (rc : gmap string string) :
  silent (tasks_in_cache tasks rc).
Proof.
  induction tasks as [|t tasks IH]; [reflexivity|].
  cbn [tasks_in_cache].
  apply silent_bind; [apply silent_getitem|]. intros repo.
  apply silent_bind; [apply silent_cache_get|]. intros cached.
  apply silent_bind; [exact IH|]. intros kept. reflexivity.
Qed.

Lemma silent_collect (completed : list (dict * outcome (option dict))) :
  forall results failures, silent (collect completed results failures).
Proof.
  induction completed as [|[t [result|e]] completed IH]; intros results failures;
    cbn [collect].
  - reflexivity.
  - destruct (truthy_result result); apply IH.
  - apply silent_bind; [apply silent_getitem|]. intros id.
    unfold trigger. cbn [bind wp]. intros []. apply IH.
Qed.

Lemma silent_process_repos (tasks : list dict) (testbed : string)
    (rc : gmap string string) (max_workers : Z) :
  silent (process_repos tasks testbed rc max_workers).
Proof.
  unfold process_repos, call, trigger. cbn [bind wp].
  intros [[]|e]; cbn [bind wp]; [|reflexivity].
  destruct (max_workers <=? 0)%Z; cbn [bind wp]; [reflexivity|].
  intros [[]|e]; cbn [bind wp]; [|reflexivity].
  intros completed. eapply wp_mono; [|apply silent_collect].
  intros o tr Htr; cbv beta. simpl. exact Htr.
Qed.

Lemma silent_print_results (results : list dict) : silent (print_results results).
Proof.
  induction results as [|r results IH]; [reflexivity|].
  cbn [print_results]. unfold trigger. cbn [bind wp]. intros []. exact IH.
Qed.

Lemma artifact_records_at (path : string) (records : list dict) :
  artifact_records (artifact_at path records) = records.
Proof. unfold artifact_at. now destruct (is_line_delimited path). Qed.

(** [save_results] tries at most one write, of all the records, at the
    path it is given and in the style of that path; it returns only
    after that write. *)
Lemma save_results_wp (records : list dict) (path : string) :
  wp (save_results records path)
     (fun o tr =>
        write_attempts tr = [(path, artifact_at path records)]
        \/ (write_attempts tr = [] /\ exists e, o = Raised e)).
Proof.
  unfold save_results, artifact_at, call. cbn [bind wp].
  intros [[]|e]; cbn [bind wp].
  - destruct (is_line_delimited path); cbn [wp]; intros [[]|e]; now left.
  - right. split; [reflexivity | now exists e].
Qed.

(** X7.  Whatever the environment answers, [main] tries to write at
    most twice: first the successes, at the path derived with
    [_versions], then the failures, at the path derived with
    [_failures], and the latter only for a list of failures that is
    not empty; each is written in the style its own path calls for.
    Nothing else in the pipeline writes an artifact. *)
Theorem main_writes_derived_artifacts {S : Type} (h : handler S) (s : S)
    (args : arguments) :
  writes_as_derived (instance_path args)
    (write_attempts (trace_of (run h (main args) s))).
Proof.
  apply (wp_run (main args)
           (fun _ tr => writes_as_derived (instance_path args) (write_attempts tr))).
  unfold main. apply silent_then; [|exact I|].
  { apply silent_try_except.
    - apply silent_bind; [|reflexivity].
      rewrite get_instances_call. unfold call. cbn [wp]. intros [?|?]; reflexivity.
    - intros e. unfold trigger. cbn [bind wp]. intros []. reflexivity. }
  intros [tasks|]; [|exact I].
  destruct (List.find _ tasks); [unfold trigger; cbn [wp]; intros []; exact I|].
  apply silent_then; [apply silent_prepare_repo_cache | exact I|]. intros rc.
  apply silent_then; [|exact I|].
  { destruct (_ && _); [apply silent_tasks_in_cache | reflexivity]. }
  intros kept.
  apply silent_then; [apply silent_process_repos | exact I|].
  intros [results failures].
  set (vp := generate_output_path (instance_path args) "_versions").
  set (fp := generate_output_path (instance_path args) "_failures").
  apply wp_bind. eapply wp_mono; [|apply save_results_wp].
  intros o tr [Hw|[Hw [e ->]]]; cbv beta.
  2:{ rewrite Hw. exact I. }
  destruct o as [[]|e].
  2:{ rewrite Hw. simpl. split; [reflexivity | now rewrite artifact_records_at]. }
  assert (Hone : writes_as_derived (instance_path args)
                   [(vp, artifact_at vp results)]).
  { simpl. split; [reflexivity | now rewrite artifact_records_at]. }
  unfold trigger. cbn [bind wp]. intros [].
  apply wp_bind. destruct failures as [|f failures].
  - cbn [wp]. eapply wp_mono; [|apply silent_print_results].
    intros o' tr' Htr'; cbv beta.
    repeat rewrite ?write_attempts_app, ?write_attempts_cons_print.
    rewrite Hw, Htr'. exact Hone.
  - assert (Htwo : writes_as_derived (instance_path args)
                     [(vp, artifact_at vp results);
                      (fp, artifact_at fp (f :: failures))]).
    { simpl. rewrite !artifact_records_at.
      repeat split; try reflexivity; discriminate. }
    apply wp_bind. eapply wp_mono; [|apply save_results_wp].
    intros o2 tr2 [Hw2|[Hw2 [e2 ->]]]; cbv beta.
    2:{ repeat rewrite ?write_attempts_app, ?write_attempts_cons_print.
        rewrite Hw, Hw2. exact Hone. }
    destruct o2 as [[]|e2].
    2:{ repeat rewrite ?write_attempts_app, ?write_attempts_cons_print.
        rewrite Hw, Hw2. exact Htwo. }
    cbn [wp]. intros [].
    eapply wp_mono; [|apply silent_print_results].
    intros o' tr' Htr'; cbv beta.
    repeat rewrite ?write_attempts_app, ?write_attempts_cons_print.
    rewrite Hw, Hw2, Htr'. exact Htwo.
Qed.

End WriteFacts.

(** ** Writing and reading back *)

Section RoundTripFacts.

Import Scenario.

Lemma mem_add_dirs (r : string) (l : list string) :
  Machine.mem r (Machine.add_dirs [r] l) = true.
Proof.
  unfold Machine.add_dirs, Machine.mem. rewrite existsb_app. simpl.
  destruct (existsb (String.eqb r) l) eqn:E; [reflexivity|].
  simpl. now rewrite String.eqb_refl.
Qed.

(** X8.  On the reference machine, what [save_results] has written at
    a path, [get_instances] reads back from that path: the two choose
    the line-delimited or the array form by the same test on the
    path. *)
Theorem saved_results_are_read_back (m : Machine.machine)
    (records : list dict) (path : string) :
  result_of (run Machine.os_handler (save_results records path) m) = Returned tt ->
  result_of (run Machine.os_handler (get_instances path)
                 (state_of (run Machine.os_handler (save_results records path) m)))
  = Returned records.
Proof.
  unfold save_results. rewrite run_bind, get_instances_call.
  replace (if is_line_delimited path
           then call (WriteArtifact path (Jsonl records))
           else call (WriteArtifact path (JsonArray records)))
    with (call (WriteArtifact path (artifact_at path records)))
    by (unfold artifact_at; now destruct (is_line_delimited path)).
  destruct (run Machine.os_handler (call (Makedirs (Path.dirname path))) m)
    as [[o1 s1] tr1].
  destruct o1 as [[]|e1]; [|discriminate].
  destruct (run Machine.os_handler
                (call (WriteArtifact path (artifact_at path records))) s1)
    as [[o2 s2] tr2] eqn:E2.
  unfold result_of, state_of. cbn [fst snd]. intros ->.
  unfold call in *. cbn [run Machine.os_handler] in *.
  assert (Hread : Machine.read_instances (Machine.m_fs s2) path
                    (is_line_delimited path) = Returned records).
  { unfold Machine.write_artifact in E2.
    destruct (String.eqb path "") eqn:Hp; cbn [orb] in E2; [discriminate|].
    destruct (negb (Machine.isdir (Machine.m_fs s1)
                      (Path.dirname (Machine.resolve (Machine.m_fs s1) path))));
      [discriminate|].
    destruct (Machine.is_dir (Machine.m_fs s1)
                (Machine.resolve (Machine.m_fs s1) path)); [discriminate|].
    cbn [run] in E2. injection E2 as <- _.
    unfold Machine.read_instances, Machine.isfile, Machine.is_file, nonempty.
    rewrite Hp. cbn [negb andb Machine.m_fs Machine.with_fs].
    unfold Machine.resolve, Machine.set_tree.
    cbn [Machine.cwd Machine.files Machine.contents].
    rewrite mem_add_dirs. cbn [negb Machine.lookup_path fst snd].
    rewrite String.eqb_refl. unfold artifact_at.
    now destruct (is_line_delimited path). }
  rewrite Hread. reflexivity.
Qed.

Lemma saved_results_are_read_back_witness :
  result_of (run Machine.os_handler (save_results three_tasks "/data/out/x.jsonl")
                 machine0) = Returned tt
  /\ result_of (run Machine.os_handler (get_instances "/data/out/x.jsonl")
                    (state_of (run Machine.os_handler
                                   (save_results three_tasks "/data/out/x.jsonl")
                                   machine0)))
     = Returned three_tasks.
Proof.
  split; [vm_compute; reflexivity|].
  apply (saved_results_are_read_back machine0 three_tasks "/data/out/x.jsonl").
  vm_compute. reflexivity.
Defined.

End RoundTripFacts.

(** ** Cloning into the cache *)

Section CloneFacts.

Import Scenario.

#[local] Arguments Path.join2 : simpl never.
#[local] Arguments Str.replace : simpl never.

Lemma string_app_inv_tail (a b c : string) :
  (a ++ c)%string = (b ++ c)%string -> a = b.
Proof.
  intros H. apply chars_inj. apply (f_equal Str.chars) in H.
  rewrite !chars_app in H. now apply app_inv_tail in H.
Qed.

Lemma clone_command_inj (cache_dir repo repo' : string) :
  clone_command cache_dir repo = clone_command cache_dir repo' -> repo = repo'.
Proof.
  unfold clone_command. intros [= H _].
  exact (string_app_inv_tail repo repo' ".git" H).
Qed.

(** The loop in clone mode, from a mapping [rc0]: it returns; the
    commands that succeeded are clones of repositories that were not in
    [rc0], no two of them the same; and the mapping has grown by them. *)
Lemma clone_loop_wp (cache_dir : string) (lcd : option string) (skip : bool)
    (tasks : list dict) :
  truthy_opt lcd = false ->
  Forall (fun t => exists repo, Dict.get t "repo" = Some (JStr repo)) tasks ->
  forall rc0,
    wp (prepare_repo_cache_loop tasks cache_dir lcd skip rc0)
       (fun o tr =>
          exists rc,
            o = Returned rc
            /\ NoDup (successful_commands tr)
            /\ (forall cmd, cmd ∈ successful_commands tr ->
                  exists repo, cmd = clone_command cache_dir repo
                               /\ rc0 !! repo = None
                               /\ existsb (names_repo repo) tasks = true)
            /\ (forall repo,
                  rc !! repo
                  = match rc0 !! repo with
                    | Some p => Some p
                    | None =>
                        if bool_decide (clone_command cache_dir repo
                                       ∈ successful_commands tr)
                        then Some (clone_path cache_dir repo) else None
                    end)).
Proof.
  intros Hlcd Hall. induction Hall as [|t tasks [repo Hrepo] _ IH]; intros rc0.
  - cbn [prepare_repo_cache_loop wp]. exists rc0.
    repeat split; [constructor | intros cmd Hc; inversion Hc |].
    intros repo. simpl. now destruct (rc0 !! repo).
  - cbn [prepare_repo_cache_loop]. unfold getitem. rewrite Hrepo.
    cbn [bind]. destruct (rc0 !! repo) as [p|] eqn:Hin.
    + eapply wp_mono; [|apply IH]. cbv beta.
      intros o tr [rc [-> [Hnd [Hcmd Hlook]]]]. exists rc.
      repeat split; [exact Hnd | | exact Hlook].
      intros cmd Hc. destruct (Hcmd cmd Hc) as [r [-> [Hr Hn]]].
      exists r. repeat split; [exact Hr|]. cbn [existsb]. rewrite Hn.
      apply orb_true_r.
    + unfold resolve_repo. rewrite Hlcd.
      unfold run_command, trigger. cbn [bind try_except wp].
      intros [out|e].
      * cbn [bind try_except wp]. intros [].
        eapply wp_mono; [|apply IH]. cbv beta.
        intros o tr [rc [-> [Hnd [Hcmd Hlook]]]]. exists rc.
        change (successful_commands
                  (Ev (Subprocess
                         ["git"; "clone"; ("https://github.com/" ++ repo ++ ".git")%string;
                          Path.join2 cache_dir (Str.replace Str.slash "__" repo)])
                      (Returned out)
                   :: Ev (Print (LogCached repo)) () :: tr))
          with (clone_command cache_dir repo :: successful_commands tr).
        assert (Hfresh : clone_command cache_dir repo ∉ successful_commands tr).
        { intros Hc. destruct (Hcmd _ Hc) as [r [E [Hr _]]].
          apply clone_command_inj in E as <-.
          now rewrite lookup_insert_eq in Hr. }
        repeat split.
        -- constructor; [exact Hfresh | exact Hnd].
        -- intros cmd [->|Hc]%elem_of_cons.
           ++ exists repo. repeat split; [exact Hin|].
              cbn [existsb]. unfold names_repo at 1. rewrite Hrepo.
              now rewrite String.eqb_refl.
           ++ destruct (Hcmd cmd Hc) as [r [-> [Hr Hn]]]. exists r.
              destruct (decide (repo = r)) as [->|Hne];
                [now rewrite lookup_insert_eq in Hr|].
              rewrite lookup_insert_ne in Hr by exact Hne.
              repeat split; [exact Hr|]. cbn [existsb]. rewrite Hn.
              apply orb_true_r.
        -- intros r. rewrite Hlook.
           destruct (decide (repo = r)) as [<-|Hne].
           ++ rewrite lookup_insert_eq, Hin.
              rewrite bool_decide_eq_true_2 by apply list_elem_of_here. reflexivity.
           ++ rewrite lookup_insert_ne by exact Hne.
              destruct (rc0 !! r); [reflexivity|].
              apply (f_equal (fun b : bool =>
                                if b then Some (clone_path cache_dir r) else None)).
              apply bool_decide_ext. rewrite elem_of_cons. split; [now right|].
              intros [E|Hc]; [|exact Hc]. symmetry in E.
              now apply clone_command_inj in E.
      * assert (Hrest :
                  wp (prepare_repo_cache_loop tasks cache_dir lcd skip rc0)
                     (fun o tr =>
                        exists rc,
                          o = Returned rc
                          /\ NoDup (successful_commands tr)
                          /\ (forall cmd, cmd ∈ successful_commands tr ->
                                exists r, cmd = clone_command cache_dir r
                                          /\ rc0 !! r = None
                                          /\ existsb (names_repo r) (t :: tasks) = true)
                          /\ (forall r,
                                rc !! r
                                = match rc0 !! r with
                                  | Some p => Some p
                                  | None =>
                                      if bool_decide (clone_command cache_dir r
                                                     ∈ successful_commands tr)
                                      then Some (clone_path cache_dir r) else None
                                  end))).
        { eapply wp_mono; [|apply IH]. cbv beta.
          intros o tr [rc [-> [Hnd [Hcmd Hlook]]]]. exists rc.
          repeat split; [exact Hnd | | exact Hlook].
          intros cmd Hc. destruct (Hcmd cmd Hc) as [r [-> [Hr Hn]]].
          exists r. repeat split; [exact Hr|]. cbn [existsb]. rewrite Hn.
          apply orb_true_r. }
        destruct (is_called_process_error e);
          cbn [bind try_except wp]; intros; try intros [];
          (eapply wp_mono; [|exact Hrest]); cbv beta;
          intros o tr H; exact H.
Qed.

(** X9.  Without a local cache directory, [prepare_repo_cache] raises
    only what [os.makedirs] raises, before any command; a failed clone
    never ends it.  When it returns, the mapping holds exactly the
    repositories whose clone succeeded, each at its path under the
    cache directory; no repository was cloned successfully twice, and
    every successful command clones a repository some task names. *)
Theorem clones_fill_the_cache {S : Type} (h : handler S) (s : S)
    (tasks : list dict) (cache_dir : string) (lcd : option string)
    (skip : bool) :
  truthy_opt lcd = false ->
  Forall (fun t => exists repo, Dict.get t "repo" = Some (JStr repo)) tasks ->
  let r := run h (prepare_repo_cache tasks cache_dir lcd skip) s in
  match result_of r with
  | Raised e => trace_of r = [Ev (Makedirs cache_dir) (Raised e)]
  | Returned rc =>
      NoDup (successful_commands (trace_of r))
      /\ (forall cmd, cmd ∈ successful_commands (trace_of r) ->
            exists repo, cmd = clone_command cache_dir repo
                         /\ existsb (names_repo repo) tasks = true)
      /\ (forall repo,
            rc !! repo
            = if bool_decide (clone_command cache_dir repo
                              ∈ successful_commands (trace_of r))
              then Some (clone_path cache_dir repo) else None)
  end.
Proof.
  intros Hlcd Hall.
  assert (Hwp :
    wp (prepare_repo_cache tasks cache_dir lcd skip)
       (fun o tr =>
          match o with
          | Raised e => tr = [Ev (Makedirs cache_dir) (Raised e)]
          | Returned rc =>
              NoDup (successful_commands tr)
              /\ (forall cmd, cmd ∈ successful_commands tr ->
                    exists repo, cmd = clone_command cache_dir repo
                                 /\ existsb (names_repo repo) tasks = true)
              /\ (forall repo,
                    rc !! repo
                    = if bool_decide (clone_command cache_dir repo
                                      ∈ successful_commands tr)
                      then Some (clone_path cache_dir repo) else None)
          end));
    [|exact (wp_run _ _ Hwp S h s)].
  unfold prepare_repo_cache, call. cbn [bind wp]. intros [[]|e]; cbn [bind wp].
  - eapply wp_mono; [|apply (clone_loop_wp cache_dir lcd skip tasks Hlcd Hall ∅)].
    cbv beta. intros o tr [rc [-> [Hnd [Hcmd Hlook]]]].
    change (successful_commands (Ev (Makedirs cache_dir) (Returned ()) :: tr))
      with (successful_commands tr).
    repeat split; [exact Hnd | |].
    + intros cmd Hc. destruct (Hcmd cmd Hc) as [repo [-> [_ Hn]]]. now exists repo.
    + intros repo. rewrite Hlook, lookup_empty. reflexivity.
  - reflexivity.
Qed.

Lemma clones_fill_the_cache_witness :
  let r := run Machine.os_handler
               (prepare_repo_cache three_tasks "/tb/_cache" None false) machine0 in
  match result_of r with
  | Raised e => trace_of r = [Ev (Makedirs "/tb/_cache") (Raised e)]
  | Returned rc =>
      NoDup (successful_commands (trace_of r))
      /\ (forall cmd, cmd ∈ successful_commands (trace_of r) ->
            exists repo, cmd = clone_command "/tb/_cache" repo
                         /\ existsb (names_repo repo) three_tasks = true)
      /\ (forall repo,
            rc !! repo
            = if bool_decide (clone_command "/tb/_cache" repo
                              ∈ successful_commands (trace_of r))
              then Some (clone_path "/tb/_cache" repo) else None)
  end.
Proof.
  apply (clones_fill_the_cache Machine.os_handler machine0 three_tasks
           "/tb/_cache" None false).
  - reflexivity.
  - repeat constructor; exists "o/r"; reflexivity.
Defined.

End CloneFacts.

(** ** Which version is extracted *)

Section VersionFacts.

Import Re.

Lemma run_digit_cons (c : ascii) (s : list ascii) :
  run Digit (c :: s) = if Str.is_digit c then [([c], s, [])] else [].
Proof. reflexivity. Qed.

Lemma run_chr_cons (a c : ascii) (s : list ascii) :
  run (Chr a) (c :: s) = if Ascii.eqb c a then [([c], s, [])] else [].
Proof. reflexivity. Qed.

Lemma run_opt (r : regex) (s : list ascii) :
  run (Opt r) s = run r s ++ [([], s, [])].
Proof. reflexivity. Qed.

Lemma run_plus (r : regex) (s : list ascii) :
  run (Plus r) s = plus_loop (run r) (S (length s)) s.
Proof. reflexivity. Qed.

Lemma run_seq (r1 r2 : regex) (s : list ascii) :
  run (Seq r1 r2) s
  = flat_map (fun w1 => let '(m1, s1, g1) := w1 in
                        map (extend m1 g1) (run r2 s1)) (run r1 s).
Proof. reflexivity. Qed.

Lemma run_group (n : nat) (r : regex) (s : list ascii) :
  run (Group n r) s
  = map (fun w => let '(m, rest, g) := w in (m, rest, (n, m) :: g)) (run r s).
Proof. reflexivity. Qed.

Lemma plus_digit_none (fuel : nat) (rest : list ascii) :
  no_digit_ahead rest -> plus_loop (run Digit) fuel rest = [].
Proof.
  intros H. destruct fuel as [|fuel]; [reflexivity|].
  destruct rest as [|c rest]; [reflexivity|].
  simpl in H. cbn [plus_loop]. rewrite run_digit_cons. now rewrite H.
Qed.

(** [\d+] takes the longest run of digits first. *)
Lemma plus_digit_head (a rest : list ascii) :
  a <> [] -> forallb Str.is_digit a = true -> no_digit_ahead rest ->
  forall fuel, (length a <= fuel)%nat ->
    exists ws, plus_loop (run Digit) fuel (a ++ rest) = (a, rest, []) :: ws.
Proof.
  induction a as [|c a IH]; [congruence|]. intros _ Hd Hrest fuel Hfuel.
  cbn [forallb] in Hd. apply andb_prop in Hd as [Hc Ha].
  destruct fuel as [|fuel]; [simpl in Hfuel; lia|].
  cbn [plus_loop app]. rewrite run_digit_cons, Hc. cbn [flat_map].
  replace (length (a ++ rest) <? length (c :: a ++ rest))%nat with true
    by (symmetry; apply Nat.ltb_lt; simpl; lia).
  destruct a as [|c' a'].
  - cbn [app]. rewrite (plus_digit_none fuel rest Hrest). now exists [].
  - destruct (IH ltac:(discriminate) Ha Hrest fuel ltac:(simpl in *; lia))
      as [ws E].
    rewrite E. cbn [map extend app]. eexists. reflexivity.
Qed.

Lemma run_major_minor_head (a b rest : list ascii) :
  a <> [] -> forallb Str.is_digit a = true ->
  b <> [] -> forallb Str.is_digit b = true ->
  no_digit_ahead rest ->
  exists ws,
    run major_minor (a ++ Str.dot :: b ++ rest)
    = (a ++ Str.dot :: b, rest, []) :: ws.
Proof.
  intros Ha Da Hb Db Hrest. unfold major_minor. rewrite run_seq, run_plus.
  destruct (plus_digit_head a (Str.dot :: b ++ rest) Ha Da eq_refl
              (S (length (a ++ Str.dot :: b ++ rest)))) as [ws1 E1].
  { rewrite length_app. lia. }
  rewrite E1. cbn [flat_map]. rewrite run_seq, run_chr_cons, Ascii.eqb_refl.
  cbn [flat_map]. rewrite run_plus.
  destruct (plus_digit_head b rest Hb Db Hrest (S (length (b ++ rest))))
    as [ws2 E2].
  { rewrite length_app. lia. }
  rewrite E2. cbn [map extend app]. rewrite app_nil_r.
  eexists. reflexivity.
Qed.

Lemma run_version_pattern_head (a b rest : list ascii) :
  a <> [] -> forallb Str.is_digit a = true ->
  b <> [] -> forallb Str.is_digit b = true ->
  no_digit_ahead rest ->
  exists m2 rest2 ws,
    run version_pattern (a ++ Str.dot :: b ++ rest)
    = (a ++ Str.dot :: b ++ m2, rest2, [(1%nat, a ++ Str.dot :: b)]) :: ws.
Proof.
  intros Ha Da Hb Db Hrest.
  destruct (run_major_minor_head a b rest Ha Da Hb Db Hrest) as [ws E].
  unfold version_pattern. rewrite run_seq, run_group, E.
  cbn [map flat_map].
  destruct (run (Opt (Seq (Chr Str.dot) (Plus Digit))) rest)
    as [|[[m2 rest2] g2] ws2] eqn:E2.
  { rewrite run_opt in E2.
    destruct (run (Seq (Chr Str.dot) (Plus Digit)) rest); discriminate. }
  assert (Hg : g2 = []).
  { apply (run_groupless (Opt (Seq (Chr Str.dot) (Plus Digit))) eq_refl
             rest m2 rest2 g2). rewrite E2. now left. }
  subst g2. cbn [map extend app]. exists m2, rest2.
  rewrite <- app_assoc. cbn [app]. eexists. reflexivity.
Qed.

Lemma search_from_skip (r : regex) (pre t : list ascii) :
  (forall c s, In c pre -> run r (c :: s) = []) ->
  forall pos,
    search_from r pos (pre ++ t) = search_from r (pos + length pre) t.
Proof.
  induction pre as [|c pre IH]; intros H pos.
  - simpl. now rewrite Nat.add_0_r.
  - cbn [app search_from]. rewrite (H c (pre ++ t)) by now left.
    rewrite IH by (intros c' s Hc; apply H; now right).
    simpl. now rewrite Nat.add_succ_r.
Qed.

Lemma run_version_pattern_no_digit (c : ascii) (s : list ascii) :
  Str.is_digit c = false -> run version_pattern (c :: s) = [].
Proof.
  intros H. unfold version_pattern, major_minor.
  rewrite run_seq, run_group, run_seq, run_plus.
  now rewrite (plus_digit_none _ (c :: s) H).
Qed.

(** X10.  In a text that has no digit before its first
    <digits>.<digits>, with no further digit right after it, the
    version extracted is that <digits>.<digits>: a third component, a
    distance or a hash that follows is dropped. *)
Theorem version_is_first_major_minor (pre major minor rest : string) :
  forallb (fun c => negb (Str.is_digit c)) (Str.chars pre) = true ->
  all_digits major -> all_digits minor ->
  no_digit_ahead (Str.chars rest) ->
  extract_version (pre ++ major ++ "." ++ minor ++ rest)
  = Returned (JStr (major ++ "." ++ minor)).
Proof.
  intros Hpre [Ha Da] [Hb Db] Hrest.
  unfold extract_version, search. rewrite !chars_app.
  change (Str.chars ".") with [Str.dot]. cbn [app].
  rewrite search_from_skip.
  2:{ intros c s Hc. apply run_version_pattern_no_digit.
      rewrite forallb_forall in Hpre. specialize (Hpre c Hc).
      now destruct (Str.is_digit c). }
  assert (Ha' : Str.chars major <> []).
  { intros E. apply Ha. apply chars_inj. now rewrite E. }
  assert (Hb' : Str.chars minor <> []).
  { intros E. apply Hb. apply chars_inj. now rewrite E. }
  destruct (run_version_pattern_head _ _ _ Ha' Da Hb' Db Hrest)
    as [m2 [rest2 [ws E]]].
  destruct (Str.chars major ++ Str.dot :: Str.chars minor ++ Str.chars rest)
    as [|c t] eqn:Et.
  - cbn [search_from]. rewrite E. cbn [group mo_groups assoc_group Nat.eqb option_map].
    f_equal. f_equal.
    change (Str.dot :: Str.chars minor) with ([Str.dot] ++ Str.chars minor).
    rewrite !of_chars_app, !of_chars_chars. reflexivity.
  - cbn [search_from]. rewrite E. cbn [group mo_groups assoc_group Nat.eqb option_map].
    f_equal. f_equal.
    change (Str.dot :: Str.chars minor) with ([Str.dot] ++ Str.chars minor).
    rewrite !of_chars_app, !of_chars_chars. reflexivity.
Qed.

Lemma version_is_first_major_minor_witness :
  extract_version ("v" ++ "2" ++ "." ++ "3" ++ ".1-5-gabc1234")
  = Returned (JStr ("2" ++ "." ++ "3")).
Proof.
  apply (version_is_first_major_minor "v" "2" "3" ".1-5-gabc1234").
  - reflexivity.
  - split; [discriminate | reflexivity].
  - split; [discriminate | reflexivity].
  - reflexivity.
Defined.

End VersionFacts.

(** ** The steps of the preparation *)

Section PrepareFacts.

Import Scenario.

Abbreviation only P p := (wp p (fun _ tr => forallb P tr = true)).

Lemma only_bind {A B : Type} (P : step -> bool) (p : prog A) (k : A -> prog B) :
  only P p -> (forall a, only P (k a)) -> only P (bind p k).
Proof.
  intros Hp Hk. apply wp_bind. eapply wp_mono; [|exact Hp].
  intros [a|e] tr Htr; cbv beta.
  - eapply wp_mono; [|apply Hk]. intros o' tr' Htr'; cbv beta.
    now rewrite forallb_app, Htr, Htr'.
  - exact Htr.
Qed.

Lemma only_try_except {A : Type} (P : step -> bool) (p : prog A)
    (handle : exn -> prog A) :
  only P p -> (forall e, only P (handle e)) -> only P (try_except p handle).
Proof.
  intros Hp Hh. apply wp_try_except. eapply wp_mono; [|exact Hp].
  intros [a|e] tr Htr; cbv beta.
  - exact Htr.
  - eapply wp_mono; [|apply Hh]. intros o' tr' Htr'; cbv beta.
    now rewrite forallb_app, Htr, Htr'.
Qed.

Lemma prepares_is_git_repo_path (cache_dir : string) (clones : bool) (p : string) :
  only (prepares cache_dir clones) (is_git_repo_path p).
Proof.
  unfold is_git_repo_path, trigger. cbn [bind wp].
  intros []; cbn [negb bind wp]; [|reflexivity].
  intros []; cbn [bind wp]; [reflexivity|].
  intros []; cbn [bind wp]; [intros []|]; reflexivity.
Qed.

Lemma prepares_first_git_repo_path (cache_dir : string) (clones : bool)
    (paths : list string) :
  only (prepares cache_dir clones) (first_git_repo_path paths).
Proof.
  induction paths as [|p paths IH]; [reflexivity|].
  cbn [first_git_repo_path].
  apply only_bind; [apply prepares_is_git_repo_path|].
  intros []; [reflexivity | exact IH].
Qed.

Lemma prepares_resolve_repo (repo cache_dir : string) (lcd : option string)
    (skip : bool) (rc : gmap string string) :
  only (prepares cache_dir (negb (truthy_opt lcd)))
       (resolve_repo repo cache_dir lcd skip rc).
Proof.
  unfold resolve_repo. destruct (truthy_opt lcd); cbn [negb].
  - apply only_bind; [apply prepares_first_git_repo_path|].
    intros local_path. destruct (truthy_opt local_path).
    + unfold abspath, trigger. destruct (Path.isabs _); cbn [bind wp].
      * intros []. reflexivity.
      * intros cwd []. reflexivity.
    + destruct skip; unfold trigger; cbn [bind wp]; intros []; reflexivity.
  - unfold run_command, trigger. cbn [bind try_except wp]. intros [out|e].
    + cbn [bind try_except wp]. intros []. reflexivity.
    + destruct (is_called_process_error e); cbn [bind try_except wp];
        repeat intros []; reflexivity.
Qed.

Lemma prepares_prepare_repo_cache (tasks : list dict) (cache_dir : string)
    (lcd : option string) (skip : bool) :
  only (prepares cache_dir (negb (truthy_opt lcd)))
       (prepare_repo_cache tasks cache_dir lcd skip).
Proof.
  assert (Hloop : forall rc,
             only (prepares cache_dir (negb (truthy_opt lcd)))
                  (prepare_repo_cache_loop tasks cache_dir lcd skip rc)).
  { induction tasks as [|t tasks IH]; intros rc; [reflexivity|].
    cbn [prepare_repo_cache_loop]. unfold getitem.
    destruct (Dict.get t "repo") as [v|]; [|reflexivity]. cbn [bind].
    destruct v; try reflexivity.
    destruct (rc !! s); [apply IH|].
    apply only_bind; [apply prepares_resolve_repo | intros rc'; apply IH]. }
  unfold prepare_repo_cache, call. cbn [bind wp].
  intros [[]|e]; cbn [bind wp].
  - eapply wp_mono; [|apply (Hloop ∅)]. cbv beta. intros _ tr Htr.
    cbn [forallb prepares]. now rewrite String.eqb_refl, Htr.
  - cbn [forallb prepares]. now rewrite String.eqb_refl.
Qed.

(** X11.  Whatever the environment answers, [prepare_repo_cache] takes
    steps of these kinds only: it makes the cache directory, asks
    whether paths are directories or files and for the current
    directory, prints, and runs [git clone]; with a local cache
    directory it runs no command at all.  It never removes, copies,
    changes directory, reads or writes an artifact. *)
Theorem prepare_repo_cache_only_probes_and_clones {S : Type} (h : handler S)
    (s : S) (tasks : list dict) (cache_dir : string) (lcd : option string)
    (skip : bool) :
  forallb (prepares cache_dir (negb (truthy_opt lcd)))
          (trace_of (run h (prepare_repo_cache tasks cache_dir lcd skip) s))
  = true.
Proof.
  apply (wp_run (prepare_repo_cache tasks cache_dir lcd skip)
           (fun _ tr => forallb (prepares cache_dir (negb (truthy_opt lcd))) tr
                        = true)).
  apply prepares_prepare_repo_cache.
Qed.

End PrepareFacts.

(** ** A batch over a local cache *)

Section LocalBatchFacts.

Import Scenario.

(** X12.  On the reference machine, with a local cache directory and
    tasks whose [repo] is a [str]: [prepare_repo_cache] raises only
    what [os.makedirs] raises; otherwise it returns a mapping that has,
    for every repository some task names, the absolute path of the
    first of its candidates that looks like a repository, and no entry
    for a repository without such a candidate or that no task names.
    Repositories named more than once and the order of the tasks make
    no difference. *)
Theorem local_cache_maps_named_repositories (m : Machine.machine)
    (local cache_dir : string) (skip : bool) (tasks : list dict) :
  local <> "" ->
  Forall (fun t => exists repo, Dict.get t "repo" = Some (JStr repo)) tasks ->
  let r := run Machine.os_handler
               (prepare_repo_cache tasks cache_dir (Some local) skip) m in
  match Machine.makedirs (Machine.m_fs m) cache_dir with
  | (Raised e, _) => result_of r = Raised e
  | (Returned _, f1) =>
      exists rc,
        result_of r = Returned rc
        /\ forall repo,
            rc !! repo
            = if existsb (names_repo repo) tasks
              then local_entry f1 local repo else None
  end.
Proof.
  intros Hlocal Hall r.
  destruct (Machine.makedirs (Machine.m_fs m) cache_dir) as [[[]|e] f1] eqn:Hmk.
  - exact (prepare_repo_cache_local m local cache_dir skip tasks f1
             Hlocal Hall Hmk).
  - subst r. unfold prepare_repo_cache, call. cbn [bind run Machine.os_handler].
    rewrite Hmk. reflexivity.
Qed.

Lemma local_cache_maps_named_repositories_witness :
  exists rc,
    result_of (run Machine.os_handler
                   (prepare_repo_cache three_tasks "/tb/_cache" (Some "/cache") true)
                   machine0) = Returned rc
    /\ forall repo,
        rc !! repo
        = if existsb (names_repo repo) three_tasks
          then local_entry
                 (snd (Machine.makedirs (Machine.m_fs machine0) "/tb/_cache"))
                 "/cache" repo
          else None.
Proof.
  exact (local_cache_maps_named_repositories machine0 "/cache" "/tb/_cache" true
           three_tasks ltac:(discriminate)
           ltac:(repeat constructor; exists "o/r"; reflexivity)).
Defined.

End LocalBatchFacts.

(** ** The stages of the pipeline *)

Section PipelineFacts.

Import Scenario.

Abbreviation offstage p := (wp p (fun _ tr => stages tr = [])).

Lemma stages_app (tr1 tr2 : list step) :
  stages (tr1 ++ tr2) = stages tr1 ++ stages tr2.
Proof. apply omap_app. Qed.

Lemma stages_cons_print (l : log_line) (x : unit) (tr : list step) :
  stages (Ev (Print l) x :: tr) = stages tr.
Proof. reflexivity. Qed.

Lemma wp_conj {A : Type} (p : prog A) :
  forall (Q1 Q2 : outcome A -> list step -> Prop),
    wp p Q1 -> wp p Q2 -> wp p (fun o tr => Q1 o tr /\ Q2 o tr).
Proof.
  induction p as [a|e|X ev k IH]; intros Q1 Q2 H1 H2; simpl in *;
    [now split | now split |].
  intros x. apply (IH x _ _ (H1 x) (H2 x)).
Qed.

Lemma prepares_offstage (cache_dir : string) (clones : bool) (tr : list step) :
  forallb (prepares cache_dir clones) tr = true -> stages tr = [].
Proof.
  induction tr as [|[X ev x] tr IH]; [reflexivity|].
  cbn [forallb]. intros [Hst Htr]%andb_prop.
  unfold stages. cbn [omap list_omap]. fold (stages tr). rewrite (IH Htr).
  destruct ev; try discriminate; reflexivity.
Qed.

Lemma offstage_print_results (results : list dict) :
  offstage (print_results results).
Proof.
  induction results as [|r results IH]; [reflexivity|].
  cbn [print_results]. unfold trigger. cbn [bind wp]. intros []. exact IH.
Qed.

Lemma offstage_collect (completed : list (dict * outcome (option dict))) :
  forall results failures, offstage (collect completed results failures).
Proof.
  induction completed as [|[t [result|e]] completed IH]; intros results failures;
    cbn [collect].
  - reflexivity.
  - destruct (truthy_result result); apply IH.
  - unfold getitem, trigger. destruct (Dict.get t "instance_id");
      cbn [bind wp]; [|reflexivity].
    intros []. apply IH.
Qed.

(** The filter of line 192 asks the environment nothing. *)
Lemma tasks_in_cache_wp (tasks : list dict) (rc : gmap string string) :
  wp (tasks_in_cache tasks rc)
     (fun o tr =>
        tr = []
        /\ forall kept, o = Returned kept -> kept = List.filter (in_cache rc) tasks).
Proof.
  induction tasks as [|t tasks IH]; cbn [tasks_in_cache].
  - cbn [wp]. split; [reflexivity|]. now intros kept [= <-].
  - unfold getitem, cache_get.
    destruct (Dict.get t "repo") as [v|] eqn:Hv; cbn [bind].
    2:{ cbn [wp]. split; [reflexivity | discriminate]. }
    assert (Hkeep : forall c : option string,
               wp (kept <- tasks_in_cache tasks rc ;;
                   Ret (match c with Some _ => t :: kept | None => kept end))
                  (fun o tr =>
                     tr = []
                     /\ forall kept, o = Returned kept ->
                          kept = (if bool_decide (is_Some c)
                                  then [t] else [])
                                 ++ List.filter (in_cache rc) tasks)).
    { intros c. apply wp_bind. eapply wp_mono; [|exact IH].
      intros [kept|e] tr [-> Hk]; cbv beta; cbn [wp].
      - split; [reflexivity|]. intros kept' [= <-].
        rewrite (Hk kept eq_refl). now destruct c.
      - split; [reflexivity | discriminate]. }
    assert (Hdrop : Dict.get t "repo" = Some v ->
               (forall r, v <> JStr r) ->
               wp (kept <- tasks_in_cache tasks rc ;; Ret kept)
                  (fun o tr =>
                     tr = []
                     /\ forall kept, o = Returned kept ->
                          kept = List.filter (in_cache rc) (t :: tasks))).
    { intros Hv' Hne. eapply wp_mono; [|exact (Hkeep None)]. cbv beta.
      intros o tr [-> Hk]. split; [reflexivity|].
      intros kept Ho. rewrite (Hk kept Ho). cbn [List.filter].
      assert (E : in_cache rc t = false).
      { unfold in_cache. rewrite Hv'.
        destruct v; try reflexivity. now destruct (Hne s). }
      rewrite E. reflexivity. }
    destruct v as [| | |r| |]; cbn [bind].
    + now apply Hdrop.
    + now apply Hdrop.
    + now apply Hdrop.
    + eapply wp_mono; [|exact (Hkeep (rc !! r))]. cbv beta.
      intros o tr [-> Hk]. split; [reflexivity|].
      intros kept Ho. rewrite (Hk kept Ho). cbn [List.filter].
      assert (E : in_cache rc t = bool_decide (is_Some (rc !! r)))
        by (unfold in_cache; now rewrite Hv).
      rewrite E. now destruct (bool_decide (is_Some (rc !! r))).
    + cbn [wp]. split; [reflexivity | discriminate].
    + cbn [wp]. split; [reflexivity | discriminate].
Qed.

(** [process_repos] starts at most one pool, with the arguments it was
    given and a positive number of workers; what it returns is what
    that pool answered, sorted into two lists. *)
Lemma process_repos_stage_wp (tasks : list dict) (testbed : string)
    (rc : gmap string string) (max_workers : Z) :
  wp (process_repos tasks testbed rc max_workers)
     (fun o tr =>
        (stages tr = [] /\ exists e, o = Raised e)
        \/ exists completed,
             stages tr = [Pooled tasks testbed rc max_workers completed]
             /\ (0 < max_workers)%Z
             /\ forall rs fs, o = Returned (rs, fs) ->
                  rs = omap success_of completed
                  /\ fs = map fst (List.filter failed completed)).
Proof.
  unfold process_repos, call, trigger. cbn [bind wp].
  intros [[]|e]; cbn [bind wp].
  2:{ left. split; [reflexivity | now exists e]. }
  destruct (max_workers <=? 0)%Z eqn:Hw; cbn [bind wp].
  { left. split; [reflexivity | eexists; reflexivity]. }
  intros [[]|e]; cbn [bind wp].
  2:{ left. split; [reflexivity | now exists e]. }
  intros completed.
  eapply wp_mono;
    [|apply (wp_conj _ _ _ (offstage_collect completed [] [])
                     (collect_wp completed [] []))].
  cbv beta. intros o tr [Hst [_ Ho]]. right. exists completed.
  split; [|split].
  - change (stages (Ev (Makedirs testbed) (Returned ())
                    :: Ev (Submit tasks testbed rc max_workers) (Returned ())
                    :: Ev (AsCompleted tasks testbed rc max_workers) completed
                    :: tr))
      with (Pooled tasks testbed rc max_workers completed :: stages tr).
    now rewrite Hst.
  - apply Z.leb_gt in Hw. exact Hw.
  - intros rs fs ->. exact Ho.
Qed.

Lemma save_results_stage_wp (records : list dict) (path : string) :
  wp (save_results records path)
     (fun o tr =>
        stages tr = [Saved path (artifact_at path records)]
        \/ (stages tr = [] /\ exists e, o = Raised e)).
Proof.
  unfold save_results, artifact_at, call. cbn [bind wp].
  intros [[]|e]; cbn [bind wp].
  - destruct (is_line_delimited path); cbn [wp]; intros [[]|e]; now left.
  - right. split; [reflexivity | now exists e].
Qed.

Lemma stages_cons_loaded (path : string) (ld : bool) (tasks : list dict)
    (tr : list step) :
  stages (Ev (ReadInstances path ld) (Returned tasks) :: tr)
  = Loaded tasks :: stages tr.
Proof. reflexivity. Qed.

(** What follows a pool in [main]: the writes of what it answered. *)
Lemma main_saves_wp (input : string)
    (completed : list (dict * outcome (option dict))) :
  let results := omap success_of completed in
  let failures := map fst (List.filter failed completed) in
  wp (save_results results (generate_output_path input "_versions") ;;
      trigger (Print (LogSaved (length results)
                               (generate_output_path input "_versions"))) ;;
      (match failures with
       | [] => Ret tt
       | _ :: _ =>
           save_results failures (generate_output_path input "_failures") ;;
           trigger (Print (LogFailuresSaved
                             (length failures)
                             (generate_output_path input "_failures")))
       end) ;;
      print_results results)
     (fun _ tr => saves_follow input completed (stages tr)).
Proof.
  intros results failures.
  set (vp := generate_output_path input "_versions").
  set (fp := generate_output_path input "_failures").
  apply wp_bind. eapply wp_mono; [|apply save_results_stage_wp].
  intros o tr [Hw|[Hw [e ->]]]; cbv beta.
  2:{ rewrite Hw. now left. }
  destruct o as [[]|e].
  2:{ rewrite Hw. right. now left. }
  unfold trigger. cbn [bind wp]. intros [].
  apply wp_bind. destruct failures as [|f fs] eqn:Hf.
  - cbn [wp]. eapply wp_mono; [|apply offstage_print_results].
    intros o' tr' Htr'; cbv beta.
    repeat rewrite ?stages_app, ?stages_cons_print.
    rewrite Hw, Htr'. right. now left.
  - apply wp_bind. eapply wp_mono; [|apply save_results_stage_wp].
    intros o2 tr2 [Hw2|[Hw2 [e2 ->]]]; cbv beta.
    2:{ repeat rewrite ?stages_app, ?stages_cons_print.
        rewrite Hw, Hw2. right. now left. }
    assert (Htwo : saves_follow input completed
                     [Saved vp (artifact_at vp results);
                      Saved fp (artifact_at fp (f :: fs))]).
    { right. right. fold failures. rewrite Hf. split; [discriminate | reflexivity]. }
    destruct o2 as [[]|e2].
    2:{ repeat rewrite ?stages_app, ?stages_cons_print.
        rewrite Hw, Hw2. exact Htwo. }
    cbn [wp]. intros [].
    eapply wp_mono; [|apply offstage_print_results].
    intros o' tr' Htr'; cbv beta.
    repeat rewrite ?stages_app, ?stages_cons_print.
    rewrite Hw, Hw2, Htr'. exact Htwo.
Qed.

Lemma main_plan_wp (args : arguments) :
  wp (main args) (fun _ tr => planned args (stages tr)).
Proof.
  unfold main. apply wp_bind, wp_try_except.
  rewrite get_instances_call. unfold call, trigger. cbn [bind wp].
  intros [tasks|e]; cbn [bind wp]; [|intros []; exact I].
  destruct (List.find (fun t => negb (has_required_keys t)) tasks) as [t|] eqn:Hfind.
  { cbn [wp]. intros []. now left. }
  assert (Hvalid : Forall (fun t => has_required_keys t = true) tasks).
  { apply List.Forall_forall. intros t Ht.
    pose proof (find_none _ _ Hfind t Ht) as Hn. now apply negb_false_iff in Hn. }
  apply wp_bind. eapply wp_mono; [|apply prepares_prepare_repo_cache].
  intros [rc|e] tr1 H1%prepares_offstage; cbv beta.
  2:{ cbn [app]. rewrite stages_cons_loaded, H1. now left. }
  apply wp_bind.
  assert (Hfilter :
    wp (if truthy_opt (local_cache_dir args) && skip_missing_repo args
        then tasks_in_cache tasks rc else Ret tasks)
       (fun o tr =>
          tr = []
          /\ forall kept, o = Returned kept ->
               kept = if truthy_opt (local_cache_dir args) && skip_missing_repo args
                      then List.filter (in_cache rc) tasks else tasks)).
  { destruct (_ && _); [apply tasks_in_cache_wp|].
    cbn [wp]. split; [reflexivity|]. now intros kept [= <-]. }
  eapply wp_mono; [|exact Hfilter].
  intros [kept|e] tr2 [-> Hk]; cbv beta.
  2:{ cbn [app]. rewrite stages_cons_loaded, stages_app, H1. now left. }
  specialize (Hk kept eq_refl).
  apply wp_bind. eapply wp_mono; [|apply process_repos_stage_wp].
  intros o tr3 [[Hst [e ->]] | [completed [Hst [Hw Hres]]]]; cbv beta.
  { cbn [app]. rewrite stages_cons_loaded, !stages_app, H1, Hst. now left. }
  destruct o as [[rs fs]|e].
  2:{ cbn [app]. rewrite stages_cons_loaded, !stages_app, H1, Hst.
      right. exists rc, completed, []. rewrite Hk.
      repeat split; [exact Hvalid | exact Hw | now left]. }
  destruct (Hres rs fs eq_refl) as [-> ->].
  eapply wp_mono; [|apply (main_saves_wp (instance_path args) completed)].
  cbv beta. intros _ tr4 Hsaves.
  cbn [app]. rewrite stages_cons_loaded, !stages_app, H1, Hst.
  right. exists rc, completed, (stages tr4). rewrite Hk.
  repeat split; [exact Hvalid | exact Hw | exact Hsaves].
Qed.

(** X13.  Whatever the environment answers, the stages of [main] are
    in this order and no others: the input is read; at most one pool
    is started, after every record read was found to have the three
    required keys, with the testbed and a positive number of workers
    as given, and with all the records read, or, when a local cache
    directory and [--skip-missing-repo] are both given, those of them
    whose repository is in the cache; then it tries to write the truthy
    results the pool answered at the [_versions] path, in completion
    order, and after that the tasks of all other futures at the
    [_failures] path, if there are any. *)
Theorem main_follows_its_plan {S : Type} (h : handler S) (s : S)
    (args : arguments) :
  planned args (stages (trace_of (run h (main args) s))).
Proof.
  apply (wp_run (main args) (fun _ tr => planned args (stages tr))).
  apply main_plan_wp.
Qed.

End PipelineFacts.

(** ** The style of the outputs *)

Section OutputStyleFacts.

Lemma rfind_from_spec (c : ascii) (l : list ascii) :
  forall i acc,
    (existsb (Ascii.eqb c) l = false /\ Path.rfind_from c l i acc = acc)
    \/ exists k t,
         Path.rfind_from c l i acc = (i + Z.of_nat k)%Z
         /\ skipn k l = c :: t
         /\ existsb (Ascii.eqb c) t = false.
Proof.
  induction l as [|x l IH]; intros i acc; cbn [Path.rfind_from existsb].
  - left. now split.
  - destruct (IH (i + 1)%Z (if Ascii.eqb x c then i else acc))
      as [[Habs E]|[k [t [E [Hk Ht]]]]].
    + rewrite E, Habs, (Ascii.eqb_sym c x).
      destruct (Ascii.eqb x c) eqn:Hx.
      * right. exists 0%nat, l. apply Ascii.eqb_eq in Hx as ->.
        repeat split; [lia | exact Habs].
      * left. now split.
    + right. exists (S k), t. rewrite E. repeat split; [lia | exact Hk | exact Ht].
Qed.

(** The extension [os.path.splitext] gives is empty, or a dot followed
    by text without a dot. *)
Lemma splitext_ext (p : list ascii) :
  snd (Path.splitext_chars p) = []
  \/ exists e, snd (Path.splitext_chars p) = Str.dot :: e
               /\ existsb (Ascii.eqb Str.dot) e = false.
Proof.
  unfold Path.splitext_chars, Path.rfind.
  destruct (rfind_from_spec Str.dot p 0 (-1)) as [[_ E]|[k [t [E [Hk Ht]]]]];
    rewrite E.
  - destruct (rfind_from_spec Str.slash p 0 (-1)) as [[_ E']|[k' [t' [E' _]]]];
      rewrite E'.
    + now left.
    + replace (0 + Z.of_nat k' <? -1)%Z with false
        by (symmetry; apply Z.ltb_ge; lia).
      now left.
  - destruct (_ && _); [|now left].
    right. exists t. cbn [snd]. replace (Z.to_nat (0 + Z.of_nat k)) with k by lia.
    now split.
Qed.

Lemma existsb_reversed {A : Type} (f : A -> bool) (l : list A) :
  existsb f (rev l) = existsb f l.
Proof.
  induction l as [|x l IH]; [reflexivity|].
  cbn [rev existsb]. rewrite existsb_app, IH. cbn [existsb].
  rewrite orb_false_r. apply orb_comm.
Qed.

Lemma starts_until_dot (q : list ascii) :
  existsb (Ascii.eqb Str.dot) q = false ->
  forall r X,
    existsb (Ascii.eqb Str.dot) r = false ->
    (Str.starts_chars (q ++ [Str.dot]) (r ++ Str.dot :: X) = true <-> q = r).
Proof.
  induction q as [|a q IH]; intros Hq r X Hr.
  - destruct r as [|c r]; cbn [app Str.starts_chars].
    + now rewrite Ascii.eqb_refl.
    + cbn [existsb] in Hr. apply orb_false_elim in Hr as [Hc _].
      rewrite Hc. cbn [andb]. split; discriminate.
  - cbn [existsb] in Hq. apply orb_false_elim in Hq as [Ha Hq].
    destruct r as [|c r]; cbn [app Str.starts_chars].
    + rewrite (Ascii.eqb_sym a Str.dot), Ha. cbn [andb]. split; discriminate.
    + cbn [existsb] in Hr. apply orb_false_elim in Hr as [_ Hr].
      rewrite andb_true_iff, (IH Hq r X Hr), Ascii.eqb_eq.
      split; [now intros [-> ->] | now intros [= -> ->]].
Qed.

Lemma starts_chars_app_true (p1 p2 l : list ascii) :
  Str.starts_chars (p1 ++ p2) l = true ->
  Str.starts_chars p1 l = true
  /\ Str.starts_chars p2 (skipn (length p1) l) = true.
Proof.
  revert l. induction p1 as [|a p1 IH]; intros l H; cbn [app] in *.
  - now split.
  - destruct l as [|b l]; cbn [Str.starts_chars] in *; [discriminate|].
    apply andb_prop in H as [-> H]. now apply IH.
Qed.

Lemma starts_chars_self (q X : list ascii) : Str.starts_chars q (q ++ X) = true.
Proof.
  induction q as [|a q IH]; [reflexivity|].
  cbn [app Str.starts_chars]. now rewrite Ascii.eqb_refl, IH.
Qed.

(** A path that ends with an underscore word and an extension. *)
Lemma line_delimited_after_word (base w ext : list ascii) (c : ascii) :
  Ascii.eqb "l"%char c = false ->
  ext = []
  \/ (exists e, ext = Str.dot :: e /\ existsb (Ascii.eqb Str.dot) e = false) ->
  is_line_delimited (Str.of_chars (base ++ (w ++ [c]) ++ ext)) = true
  <-> ext = Str.chars ".jsonl".
Proof.
  intros Hc Hext. unfold is_line_delimited, Str.endswith.
  rewrite chars_of_chars, !rev_app_distr. cbn [rev app].
  change (rev (Str.chars ".jsonl")) with (Str.chars "lnosj" ++ [Str.dot]).
  change (rev (Str.chars ".jsonl.all"))
    with ((Str.chars "lla" ++ [Str.dot]) ++ Str.chars "lnosj" ++ [Str.dot]).
  destruct Hext as [->|[e [-> He]]].
  - cbn [rev app Str.chars list_ascii_of_string Str.starts_chars].
    rewrite Hc. cbn [andb orb]. split; discriminate.
  - cbn [rev]. rewrite <- !app_assoc. cbn [app].
    assert (Hr : existsb (Ascii.eqb Str.dot) (rev e) = false).
    { rewrite existsb_reversed. exact He. }
    assert (Hall : Str.starts_chars
                     ((Str.chars "lla" ++ [Str.dot]) ++ Str.chars "lnosj" ++ [Str.dot])
                     (rev e ++ Str.dot :: c :: rev w ++ rev base) = false).
    { destruct (Str.starts_chars _ _) eqn:H; [|reflexivity].
      apply starts_chars_app_true in H as [H1 H2].
      apply (starts_until_dot (Str.chars "lla") eq_refl) in H1; [|exact Hr].
      rewrite <- H1 in H2.
      change (Str.starts_chars (Str.chars "lnosj" ++ [Str.dot])
                (c :: rev w ++ rev base) = true) in H2.
      cbn [Str.chars list_ascii_of_string app Str.starts_chars] in H2.
      rewrite Hc in H2. discriminate. }
    change (Str.chars "lla" ++ Str.dot :: Str.chars "lnosj" ++ [Str.dot])
      with ((Str.chars "lla" ++ [Str.dot]) ++ Str.chars "lnosj" ++ [Str.dot]).
    rewrite Hall, orb_false_r.
    rewrite (starts_until_dot (Str.chars "lnosj") eq_refl _ _ Hr).
    split.
    + intros H. apply (f_equal (@rev ascii)) in H. rewrite rev_involutive in H.
      now rewrite <- H.
    + intros [= ->]. reflexivity.
Qed.

(** X14.  The outputs of [main] are line-delimited exactly when the
    extension of the input, as [os.path.splitext] sees it, is [.jsonl]:
    the suffix goes before the extension, so an input that is read
    line by line under another extension ([.jsonl.all], or a file
    named [.jsonl]) has its outputs written as one array.  Outputs
    that are line-delimited come from a line-delimited input. *)
Theorem output_style_follows_extension (p : string) :
  (is_line_delimited (generate_output_path p "_versions") = true
   <-> snd (Path.splitext p) = ".jsonl")
  /\ (is_line_delimited (generate_output_path p "_failures") = true
      <-> snd (Path.splitext p) = ".jsonl")
  /\ (snd (Path.splitext p) = ".jsonl" -> is_line_delimited p = true).
Proof.
  assert (Hext : snd (Path.splitext p)
                 = Str.of_chars (snd (Path.splitext_chars (Str.chars p)))).
  { unfold Path.splitext. now destruct (Path.splitext_chars (Str.chars p)). }
  assert (Hiff : snd (Path.splitext p) = ".jsonl"
                 <-> snd (Path.splitext_chars (Str.chars p)) = Str.chars ".jsonl").
  { rewrite Hext. split.
    - intros H. apply (f_equal Str.chars) in H. now rewrite chars_of_chars in H.
    - intros ->. reflexivity. }
  assert (Hgen : forall w c,
             generate_output_path p (Str.of_chars (w ++ [c]))
             = Str.of_chars (fst (Path.splitext_chars (Str.chars p))
                             ++ (w ++ [c])
                             ++ snd (Path.splitext_chars (Str.chars p)))).
  { intros w c. apply chars_inj.
    now rewrite generate_output_path_chars, !chars_of_chars. }
  split; [|split].
  - rewrite Hiff.
    change "_versions" with (Str.of_chars (Str.chars "_version" ++ ["s"%char])).
    rewrite Hgen. apply line_delimited_after_word; [reflexivity|].
    apply splitext_ext.
  - rewrite Hiff.
    change "_failures" with (Str.of_chars (Str.chars "_failure" ++ ["s"%char])).
    rewrite Hgen. apply line_delimited_after_word; [reflexivity|].
    apply splitext_ext.
  - rewrite Hiff. intros H.
    unfold is_line_delimited, Str.endswith.
    rewrite <- (splitext_chars_app (Str.chars p)), H, rev_app_distr.
    now rewrite starts_chars_self.
Qed.

End OutputStyleFacts.

(** ** A pool without workers *)

Section NoWorkersFacts.

Import Scenario.

Lemma loaded_only (tr : list step) :
  (forall st, In st (stages tr) -> exists tasks, st = Loaded tasks) ->
  write_attempts tr = [] /\ pool_answers tr = [].
Proof.
  induction tr as [|[X ev x] tr IH]; intros H; [now split|].
  destruct ev; try destruct x;
    first [ apply IH; intros st Hst; apply H;
            first [exact Hst | right; exact Hst]
          | destruct (H _ (or_introl eq_refl)) as [? Ht]; discriminate Ht ].
Qed.

Lemma no_workers_wp (args : arguments) :
  (max_workers args <= 0)%Z ->
  wp (main args)
     (fun o tr =>
        stages tr = []
        \/ exists tasks,
             stages tr = [Loaded tasks]
             /\ (o = Returned tt ->
                 Exists (fun t => has_required_keys t = false) tasks)).
Proof.
  intros Hw. unfold main. apply wp_bind, wp_try_except.
  rewrite get_instances_call. unfold call, trigger. cbn [bind wp].
  intros [tasks|e]; cbn [bind wp]; [|intros []; now left].
  destruct (List.find (fun t => negb (has_required_keys t)) tasks) as [t|] eqn:Hfind.
  { cbn [wp]. intros []. right. exists tasks. split; [reflexivity|]. intros _.
    apply find_some in Hfind as [Hin Ht]. apply List.Exists_exists.
    exists t. split; [exact Hin | now apply negb_true_iff in Ht]. }
  apply wp_bind. eapply wp_mono; [|apply prepares_prepare_repo_cache].
  intros [rc|e] tr1 H1%prepares_offstage; cbv beta.
  2:{ cbn [app]. rewrite stages_cons_loaded, H1. right. exists tasks.
      split; [reflexivity | discriminate]. }
  apply wp_bind.
  assert (Hfilter :
    wp (if truthy_opt (local_cache_dir args) && skip_missing_repo args
        then tasks_in_cache tasks rc else Ret tasks)
       (fun _ tr => tr = [])).
  { destruct (_ && _); [|reflexivity].
    eapply wp_mono; [|apply tasks_in_cache_wp]. now intros o tr [-> _]. }
  eapply wp_mono; [|exact Hfilter].
  intros [kept|e] tr2 ->; cbv beta.
  2:{ cbn [app]. rewrite stages_cons_loaded, stages_app, H1. right. exists tasks.
      split; [reflexivity | discriminate]. }
  apply wp_bind. eapply wp_mono; [|apply process_repos_stage_wp].
  intros o tr3 [[Hst [e ->]] | [completed [_ [Hpos _]]]]; cbv beta; [|lia].
  cbn [app]. rewrite stages_cons_loaded, !stages_app, H1, Hst. right. exists tasks.
  split; [reflexivity | discriminate].
Qed.

(** X15.  With [--max-workers] zero or negative, whatever the
    environment answers: no pool is started and nothing is written,
    although the repositories are prepared first; and [main] returns
    normally only when the input could not be read or has a record
    without the required keys: in every other case it ends with an
    exception. *)
Theorem no_workers_no_output {S : Type} (h : handler S) (s : S)
    (args : arguments) :
  (max_workers args <= 0)%Z ->
  let r := run h (main args) s in
  write_attempts (trace_of r) = []
  /\ pool_answers (trace_of r) = []
  /\ (result_of r = Returned tt ->
      forall tasks, In (Loaded tasks) (stages (trace_of r)) ->
                    Exists (fun t => has_required_keys t = false) tasks).
Proof.
  intros Hw r. subst r.
  pose proof (wp_run _ _ (no_workers_wp args Hw) S h s) as H. cbv beta in H.
  destruct H as [H|[tasks [H Hret]]]; rewrite H.
  - split; [|split].
    + apply loaded_only. rewrite H. intros st [].
    + apply loaded_only. rewrite H. intros st [].
    + intros _ tasks [].
  - split; [|split].
    + apply loaded_only. rewrite H. intros st [<-|[]]. now exists tasks.
    + apply loaded_only. rewrite H. intros st [<-|[]]. now exists tasks.
    + intros Ho ts [[= <-]|[]]. now apply Hret.
Qed.

Lemma no_workers_no_output_witness :
  let r := run Machine.pool_handler
               (main (Arguments "/data/tasks.jsonl" "/tb" (Some "/cache") false 0))
               (input_machine "/data/tasks.jsonl" (Jsonl [task])) in
  write_attempts (trace_of r) = []
  /\ pool_answers (trace_of r) = []
  /\ (result_of r = Returned tt ->
      forall tasks, In (Loaded tasks) (stages (trace_of r)) ->
                    Exists (fun t => has_required_keys t = false) tasks).
Proof.
  apply (no_workers_no_output Machine.pool_handler
           (input_machine "/data/tasks.jsonl" (Jsonl [task]))
           (Arguments "/data/tasks.jsonl" "/tb" (Some "/cache") false 0)).
  simpl. lia.
Defined.

End NoWorkersFacts.
